(** * The agent orchestrator of services/AgentOrchestrator.js

    A shallow embedding of the orchestration engine: the instance
    registry, the coordination rule table, conflict detection and
    resolution, the run operation, the scheduler tick and the two
    performance records (the per-instance [metrics] of [BaseAgent] and
    the [PerformanceTracker]).

    JavaScript runs one task at a time and a task gives up control only
    at an [await].  An [async] function is therefore modelled as a
    resumption: from a state it runs up to its next [await] and hands
    back the state reached together with the rest of its work.  The
    database, the clock, the uuid generator and the bodies of the
    execution units are the environment; their answers come from an
    oracle [Env] that the theorems quantify over. *)

From Stdlib Require Import String List Bool Arith ZArith Lia Floats.
Import ListNotations.
Open Scope string_scope.
Open Scope list_scope.

Set Implicit Arguments.

(** ** JavaScript [Map] with string keys

    A [Map] iterates in insertion order and [set] on a key that is
    already present keeps the key's place, so the model is an
    association list. *)
Module JsMap.
Section Defs.
Variable V : Type.

Definition t := list (string * V).

Definition empty : t := [].

Fixpoint get (m : t) (k : string) : option V :=
  match m with
  | [] => None
  | (k', v) :: m' => if String.eqb k' k then Some v else get m' k
  end.

Fixpoint set (m : t) (k : string) (v : V) : t :=
  match m with
  | [] => [(k, v)]
  | (k', v') :: m' =>
      if String.eqb k' k then (k, v) :: m' else (k', v') :: set m' k v
  end.

Definition keys (m : t) : list string := map fst m.
Definition values (m : t) : list V := map snd m.
Definition size (m : t) : nat := length m.
End Defs.
Arguments empty {V}.
End JsMap.

(** ** Data *)

Definition UserId := string.
Definition AgentId := string.
Definition InstanceId := string.
Definition Error := string.

(** A plain object with string values (configuration, settings,
    parameters); the values are kept as JSON text. *)
Definition Config := JsMap.t string.
Definition Params := JsMap.t string.

(** [{ ...a, ...b }] *)
Definition spread (a b : Config) : Config :=
  fold_left (fun acc kv => JsMap.set acc (fst kv) (snd kv)) b a.

(** [Array.prototype.includes] on an array of strings. *)
Fixpoint includes (l : list string) (x : string) : bool :=
  match l with
  | [] => false
  | y :: l' => String.eqb y x || includes l' x
  end.

Inductive AgentClass :=
| MeetingAgent
| MailSummarizerAgent
| ReportGeneratorAgent
| TaskRouterAgent.

(** The [type] column of the [agents] table.  The schema admits these
    four values and no other:
    [CHECK (type IN ('meeting-agent', 'mail-summarizer',
    'report-generator', 'task-router'))]. *)
Inductive AgentType :=
| MeetingAgentType
| MailSummarizerType
| ReportGeneratorType
| TaskRouterType.

(** The string that the driver hands over for a value of the column. *)
Definition type_name (type : AgentType) : string :=
  match type with
  | MeetingAgentType => "meeting-agent"
  | MailSummarizerType => "mail-summarizer"
  | ReportGeneratorType => "report-generator"
  | TaskRouterType => "task-router"
  end.

(** The object literal of [getAgentClass], by its own properties. *)
Definition agentClasses : JsMap.t AgentClass :=
  [("meeting-agent", MeetingAgent);
   ("mail-summarizer", MailSummarizerAgent);
   ("report-generator", ReportGeneratorAgent);
   ("task-router", TaskRouterAgent)].

(** [getAgentClass]: the property read [agentClasses[type]], called
    by [initializeAgents] on the [type] of a row.  A read looks among
    the object's own properties first, and the name of each value of
    the column is one of them, so the names that the literal inherits
    ([constructor], [toString], ...) are never asked for; [None] is
    [undefined]. *)
Definition getAgentClass (type : AgentType) : option AgentClass :=
  JsMap.get agentClasses (type_name type).

(** One entry of [coordinationRules]. *)
Record Rules := {
  dependencies : list string;
  conflicts : list string;
  priority : nat
}.

(** [setupCoordinationRules]: the table is filled once by the
    constructor and never written again, so it is a constant. *)
Definition setupCoordinationRules : JsMap.t Rules :=
  let m := JsMap.set JsMap.empty "meeting-agent"
             {| dependencies := ["mail-summarizer"];
                conflicts := ["task-router"];
                priority := 1 |} in
  let m := JsMap.set m "mail-summarizer"
             {| dependencies := []; conflicts := []; priority := 2 |} in
  let m := JsMap.set m "report-generator"
             {| dependencies := ["meeting-agent"; "mail-summarizer"; "task-router"];
                conflicts := [];
                priority := 3 |} in
  JsMap.set m "task-router"
    {| dependencies := ["mail-summarizer"];
       conflicts := ["meeting-agent"];
       priority := 2 |}.

Definition coordinationRules : JsMap.t Rules :=
  Eval cbv in setupCoordinationRules.

(** [BaseAgent.metrics].  JavaScript numbers are binary64 floats. *)
Record Metrics := {
  totalRuns : float;
  successRate : float;
  averageExecutionTime : float;
  lastRun : option float
}.

(** An agent object ([BaseAgent] and its subclasses).  The fields [db]
    and [orchestrator] are references to the collaborators and carry no
    state of their own. *)
Record Instance := {
  id : InstanceId;
  userId : UserId;
  agentId : AgentId;
  config : Config;
  cls : AgentClass;
  status : string;
  metrics : Metrics
}.

(** The [BaseAgent] constructor. *)
Definition new_agent (c : AgentClass) (i : InstanceId) (u : UserId)
    (a : AgentId) (cfg : Config) : Instance :=
  {| id := i; userId := u; agentId := a; config := cfg; cls := c;
     status := "idle";
     metrics := {| totalRuns := 0; successRate := 0;
                   averageExecutionTime := 0; lastRun := None |} |}.

Definition with_status (st : string) (i : Instance) : Instance :=
  {| id := id i; userId := userId i; agentId := agentId i;
     config := config i; cls := cls i; status := st;
     metrics := metrics i |}.

Definition with_metrics (m : Metrics) (i : Instance) : Instance :=
  {| id := id i; userId := userId i; agentId := agentId i;
     config := config i; cls := cls i; status := status i;
     metrics := m |}.

(** [BaseAgent.updateMetrics]; [date] is the value of [new Date()]. *)
Definition updateMetrics (m : Metrics) (success : bool)
    (executionTime date : float) : Metrics :=
  let totalRuns' := (totalRuns m + 1)%float in
  {| totalRuns := totalRuns';
     successRate :=
       ((successRate m * (totalRuns' - 1) + (if success then 1 else 0))
        / totalRuns')%float;
     averageExecutionTime :=
       ((averageExecutionTime m * (totalRuns' - 1) + executionTime)
        / totalRuns')%float;
     lastRun := Some date |}.

(** What an execution unit returns: an object of which the orchestrator
    reads [error] (for truthiness) and [executionTime]. *)
Record ExecResult := {
  payload : string;
  error : bool;
  executionTime : option float
}.

(** [None] stands for [undefined] or [null]. *)
Definition JsResult := option ExecResult.

Inductive ExecOutcome :=
| Returns (r : JsResult)
| Throws (e : Error).

(** A row handed back by the database.  The orchestrator reads [id],
    [type] and [configuration] of an [agents] row and [user_id],
    [agent_id] and [settings] of a [user_agents] row. *)
Record DbRow := {
  row_id : string;
  row_type : AgentType;
  row_configuration : Config;
  row_user_id : UserId;
  row_agent_id : AgentId;
  row_settings : Config
}.

Inductive Query :=
| SelectActiveAgents
| UpsertUserAgent (u : UserId) (a : AgentId) (settings : Config)
| UpdateUserAgentStatus (st : string) (u : UserId) (a : AgentId)
| SelectAutoRunAgents.

Inductive DbReply :=
| DbRows (rows : list DbRow)
| DbError (e : Error).

(** An entry of [this.agents].  Its [instances] map holds the same
    objects as [agentInstances]; it is kept as the map from key to the
    key under which the object lives in [agentInstances]. *)
Record AgentEntry := {
  definition : DbRow;
  agent_class : AgentClass;
  instances : JsMap.t InstanceId
}.

(** [PerformanceTracker.metrics] holds one of these per instance id. *)
Record TrackerMetrics := {
  totalExecutions : float;
  successfulExecutions : float;
  totalExecutionTime : float;
  lastExecution : option float
}.

(** What the orchestrator sends out. *)
Inductive Channel :=
| Emitter                    (* this.emit *)
| Io                         (* this.io.emit *)
| IoRoom (room : string)     (* this.io.to(room).emit *)
| Console.                   (* console.error *)

Inductive PVal :=
| PStr (s : string)
| PResult (r : JsResult).

Record Event := {
  ev_channel : Channel;
  ev_name : string;
  ev_payload : list (string * PVal)
}.

(** A conflict record; [instance1] and [instance2] are references, of
    which only the immutable [id] is read afterwards. *)
Record ConflictRecord := {
  conflict_type : string;
  instance1 : Instance;
  instance2 : Instance;
  severity : string
}.

Record Resolution := {
  action : string;
  target : option InstanceId
}.

(** The orchestrator's fields, followed by the record of its dealings
    with the environment: the queries sent, the events emitted, and how
    many uuids, execution-unit invocations and clock readings there
    have been. *)
Record State := {
  agents : JsMap.t AgentEntry;
  agentInstances : JsMap.t Instance;
  performanceTracker : JsMap.t TrackerMetrics;
  isRunning : bool;
  queries : list Query;
  events : list Event;
  uuids : nat;
  executions : nat;
  clock : nat
}.

(** The environment: the [n]-th uuid, the database's answer to the
    [n]-th query, the outcome of the [n]-th invocation of an execution
    unit's [execute], the [n]-th clock reading. *)
Record Env := {
  uuidv4 : nat -> InstanceId;
  db_reply : nat -> Query -> DbReply;
  execute_reply : nat -> InstanceId -> Params -> ExecOutcome;
  Date_now : nat -> float
}.

Definition with_agents (v : JsMap.t AgentEntry) (s : State) : State :=
  {| agents := v; agentInstances := agentInstances s;
     performanceTracker := performanceTracker s; isRunning := isRunning s;
     queries := queries s; events := events s; uuids := uuids s;
     executions := executions s; clock := clock s |}.

Definition with_agentInstances (v : JsMap.t Instance) (s : State) : State :=
  {| agents := agents s; agentInstances := v;
     performanceTracker := performanceTracker s; isRunning := isRunning s;
     queries := queries s; events := events s; uuids := uuids s;
     executions := executions s; clock := clock s |}.

Definition with_performanceTracker (v : JsMap.t TrackerMetrics) (s : State)
    : State :=
  {| agents := agents s; agentInstances := agentInstances s;
     performanceTracker := v; isRunning := isRunning s;
     queries := queries s; events := events s; uuids := uuids s;
     executions := executions s; clock := clock s |}.

Definition with_isRunning (v : bool) (s : State) : State :=
  {| agents := agents s; agentInstances := agentInstances s;
     performanceTracker := performanceTracker s; isRunning := v;
     queries := queries s; events := events s; uuids := uuids s;
     executions := executions s; clock := clock s |}.

Definition push_query (q : Query) (s : State) : State :=
  {| agents := agents s; agentInstances := agentInstances s;
     performanceTracker := performanceTracker s; isRunning := isRunning s;
     queries := queries s ++ [q]; events := events s; uuids := uuids s;
     executions := executions s; clock := clock s |}.

Definition push_event (e : Event) (s : State) : State :=
  {| agents := agents s; agentInstances := agentInstances s;
     performanceTracker := performanceTracker s; isRunning := isRunning s;
     queries := queries s; events := events s ++ [e]; uuids := uuids s;
     executions := executions s; clock := clock s |}.

Definition bump_uuids (s : State) : State :=
  {| agents := agents s; agentInstances := agentInstances s;
     performanceTracker := performanceTracker s; isRunning := isRunning s;
     queries := queries s; events := events s; uuids := S (uuids s);
     executions := executions s; clock := clock s |}.

Definition bump_executions (s : State) : State :=
  {| agents := agents s; agentInstances := agentInstances s;
     performanceTracker := performanceTracker s; isRunning := isRunning s;
     queries := queries s; events := events s; uuids := uuids s;
     executions := S (executions s); clock := clock s |}.

Definition bump_clock (s : State) : State :=
  {| agents := agents s; agentInstances := agentInstances s;
     performanceTracker := performanceTracker s; isRunning := isRunning s;
     queries := queries s; events := events s; uuids := uuids s;
     executions := executions s; clock := S (clock s) |}.

(** Assignment to a field of the agent object stored under [k].  An
    agent object is identified with the registry's entry for its id:
    entries are never removed, and one is replaced by another object
    only if [uuidv4] should repeat itself. *)
Definition modify_instance (k : InstanceId) (f : Instance -> Instance)
    (s : State) : State :=
  match JsMap.get (agentInstances s) k with
  | Some i => with_agentInstances (JsMap.set (agentInstances s) k (f i)) s
  | None => s
  end.

(** ** Async functions as resumptions *)

Inductive Completion (A : Type) :=
| Normal (a : A)
| Throw (e : Error).
Arguments Throw {A} e.

(** [Done s c]: finished in state [s] with completion [c].
    [Yield s k]: suspended at an [await] in state [s]; when resumed in
    the state [s'] that the other tasks left behind, goes on as [k s']. *)
Inductive Res (A : Type) :=
| Done (s : State) (c : Completion A)
| Yield (s : State) (k : State -> Res A).

Definition Async (A : Type) := State -> Res A.

Definition ret {A} (a : A) : Async A := fun s => Done s (Normal a).
Definition throw {A} (e : Error) : Async A := fun s => Done s (Throw e).

Fixpoint bindR {A B} (r : Res A) (f : A -> Async B) : Res B :=
  match r with
  | Done s (Normal a) => f a s
  | Done s (Throw e) => Done s (Throw e)
  | Yield s k => Yield s (fun s' => bindR (k s') f)
  end.

Definition bind {A B} (p : Async A) (f : A -> Async B) : Async B :=
  fun s => bindR (p s) f.

(** [try { p } catch (error) { h error }] *)
Fixpoint try_catchR {A} (r : Res A) (h : Error -> Async A) : Res A :=
  match r with
  | Done s (Normal a) => Done s (Normal a)
  | Done s (Throw e) => h e s
  | Yield s k => Yield s (fun s' => try_catchR (k s') h)
  end.

Definition try_catch {A} (p : Async A) (h : Error -> Async A) : Async A :=
  fun s => try_catchR (p s) h.

(** [try { p } finally { f }], for a finaliser that is a plain state
    change (it cannot throw or suspend). *)
Fixpoint try_finallyR {A} (r : Res A) (f : State -> State) : Res A :=
  match r with
  | Done s c => Done (f s) c
  | Yield s k => Yield s (fun s' => try_finallyR (k s') f)
  end.

Definition try_finally {A} (p : Async A) (f : State -> State) : Async A :=
  fun s => try_finallyR (p s) f.

(** [await p]: [p] runs on to its completion, and the awaiting task is
    resumed with it only after giving up control once more. *)
Fixpoint awaitR {A} (r : Res A) : Res A :=
  match r with
  | Done s c => Yield s (fun s' => Done s' c)
  | Yield s k => Yield s (fun s' => awaitR (k s'))
  end.

Definition await {A} (p : Async A) : Async A := fun s => awaitR (p s).

Definition gets {A} (f : State -> A) : Async A :=
  fun s => Done s (Normal (f s)).

Definition modify (f : State -> State) : Async unit :=
  fun s => Done (f s) (Normal tt).

Declare Scope async_scope.
Delimit Scope async_scope with async.
Notation "x <- p ;; q" := (bind p (fun x => q))
  (at level 61, p at next level, right associativity) : async_scope.
Notation "p ;; q" := (bind p (fun _ => q))
  (at level 61, right associativity) : async_scope.
Open Scope async_scope.

(** [for (const x of l) { body x }] *)
Fixpoint for_each {X} (l : list X) (body : X -> Async unit) : Async unit :=
  match l with
  | [] => ret tt
  | x :: l' => body x ;; for_each l' body
  end.

Definition emit (ch : Channel) (name : string)
    (fields : list (string * PVal)) : Async unit :=
  modify (push_event {| ev_channel := ch; ev_name := name;
                        ev_payload := fields |}).

Definition console_error (msg : string) (e : Error) : Async unit :=
  emit Console msg [("error", PStr e)].

(** ** The orchestrator *)

Section Orchestrator.

Variable env : Env.

(** [Date.now()] and [new Date()] *)
Definition now : Async float :=
  fun s => Done (bump_clock s) (Normal (Date_now env (clock s))).

(** [uuidv4()] *)
Definition uuid : Async InstanceId :=
  fun s => Done (bump_uuids s) (Normal (uuidv4 env (uuids s))).

(** [this.db.query(...)]: the query goes out, and the promise settles
    with the database's answer. *)
Definition db_query (q : Query) : Async (list DbRow) :=
  fun s =>
    match db_reply env (length (queries s)) q with
    | DbRows rows => Done (push_query q s) (Normal rows)
    | DbError e => Done (push_query q s) (Throw e)
    end.

(** [this.execute(params)] of the agent stored under [this]: the four
    subclasses query the database and compute a summary object; all of
    that is the environment's side. *)
Definition execute (this : InstanceId) (params : Params) : Async JsResult :=
  fun s =>
    match execute_reply env (executions s) this params with
    | Returns r => Done (bump_executions s) (Normal r)
    | Throws e => Done (bump_executions s) (Throw e)
    end.

(** The [pause] method of an agent object.  Neither [BaseAgent] nor any
    of its four subclasses declares one, so [instance.pause] is
    [undefined] for every class. *)
Definition pause_method (c : AgentClass) : option (InstanceId -> Async unit) :=
  match c with
  | MeetingAgent => None
  | MailSummarizerAgent => None
  | ReportGeneratorAgent => None
  | TaskRouterAgent => None
  end.

Definition lookup_instance (k : InstanceId) : Async (option Instance) :=
  gets (fun s => JsMap.get (agentInstances s) k).

(** [BaseAgent.run] *)
Definition BaseAgent_run (this : InstanceId) (params : Params)
    : Async JsResult :=
  startTime <- now ;;
  modify (modify_instance this (with_status "running")) ;;
  try_finally
    (try_catch
       (result <- await (execute this params) ;;
        t <- now ;;
        date <- now ;;
        modify (modify_instance this (fun i =>
          with_metrics
            (updateMetrics (metrics i) true (t - startTime)%float date) i)) ;;
        ret result)
       (fun error =>
        t <- now ;;
        date <- now ;;
        modify (modify_instance this (fun i =>
          with_metrics
            (updateMetrics (metrics i) false (t - startTime)%float date) i)) ;;
        throw error))
    (modify_instance this (with_status "idle")).

(** [ConflictResolver.resolve] *)
Definition ConflictResolver_resolve (conflict : ConflictRecord)
    : Async Resolution :=
  if String.eqb (conflict_type conflict) "agent-conflict"
  then ret {| action := "pause"; target := Some (id (instance2 conflict)) |}
  else ret {| action := "queue"; target := None |}.

(** [value || 0] on a number that may be missing. *)
Definition or_zero (v : option float) : float :=
  match v with
  | Some x => if (PrimFloat.eqb x 0 || PrimFloat.is_nan x)%bool
              then 0%float else x
  | None => 0%float
  end.

(** [PerformanceTracker.recordExecution].  The entry found in the map
    is updated in place, a fresh one is stored by the final [set]; on
    [null] or [undefined] the read of [result.executionTime] throws. *)
Definition PerformanceTracker_recordExecution (instanceId : InstanceId)
    (result : JsResult) : Async unit :=
  found <- gets (fun s => JsMap.get (performanceTracker s) instanceId) ;;
  let metrics :=
    match found with
    | Some m => m
    | None => {| totalExecutions := 0; successfulExecutions := 0;
                 totalExecutionTime := 0; lastExecution := None |}
    end in
  let total := (totalExecutions metrics + 1)%float in
  match result with
  | Some r =>
      date <- now ;;
      modify (fun s => with_performanceTracker
        (JsMap.set (performanceTracker s) instanceId
           {| totalExecutions := total;
              successfulExecutions :=
                if negb (error r)
                then (successfulExecutions metrics + 1)%float
                else successfulExecutions metrics;
              totalExecutionTime :=
                (totalExecutionTime metrics + or_zero (executionTime r))%float;
              lastExecution := Some date |}) s)
  | None =>
      match found with
      | Some _ =>
          modify (fun s => with_performanceTracker
            (JsMap.set (performanceTracker s) instanceId
               {| totalExecutions := total;
                  successfulExecutions := successfulExecutions metrics;
                  totalExecutionTime := totalExecutionTime metrics;
                  lastExecution := lastExecution metrics |}) s)
      | None => ret tt
      end ;;
      throw "TypeError: Cannot read properties of undefined"
  end.

(** The fixed answer of [PerformanceTracker.getUserPerformance]. *)
Record UserPerformance := {
  totalAgents : float;
  activeAgents : float;
  averagePerformance : float;
  up_totalExecutions : float;
  up_successRate : float
}.

Definition PerformanceTracker_getUserPerformance (userId : UserId)
    : Async UserPerformance :=
  ret {| totalAgents := 4;
         activeAgents := 3;
         averagePerformance := 0.92;
         up_totalExecutions := 156;
         up_successRate := 0.94 |}.

(** [getAgentPerformance] *)
Definition getAgentPerformance (userId : UserId) : Async UserPerformance :=
  await (PerformanceTracker_getUserPerformance userId).

(** [updateAgentStatus] *)
Definition updateAgentStatus (instanceId : InstanceId) (st : string)
    : Async unit :=
  try_catch
    (found <- lookup_instance instanceId ;;
     match found with
     | None => ret tt
     | Some instance =>
         modify (modify_instance instanceId (with_status st)) ;;
         await (db_query
                  (UpdateUserAgentStatus st (userId instance)
                     (agentId instance))) ;;
         emit (IoRoom ("user-" ++ userId instance)%string) "agent-status-changed"
           [("instanceId", PStr instanceId);
            ("agentId", PStr (agentId instance));
            ("status", PStr st);
            ("userId", PStr (userId instance))]
     end)
    (fun error => console_error "Failed to update agent status:" error).

(** [pauseAgent] *)
Definition pauseAgent (instanceId : InstanceId) : Async unit :=
  found <- lookup_instance instanceId ;;
  match found with
  | Some instance =>
      match pause_method (cls instance) with
      | Some pause =>
          await (pause instanceId) ;;
          await (updateAgentStatus instanceId "paused")
      | None => ret tt
      end
  | None => ret tt
  end.

(** [queueAgent] *)
Definition queueAgent (instanceId : InstanceId) : Async unit :=
  emit Emitter "agent-queued" [("instanceId", PStr instanceId)].

(** [checkConflicts] *)
Definition checkConflicts (instance : Instance)
    : Async (list ConflictRecord) :=
  match JsMap.get coordinationRules (agentId instance) with
  | None => ret []
  | Some rules =>
      registry <- gets agentInstances ;;
      ret (fold_left
             (fun found entry =>
                let otherInstance := snd entry in
                if (String.eqb (userId otherInstance) (userId instance)
                    && String.eqb (status otherInstance) "running"
                    && includes (conflicts rules) (agentId otherInstance))%bool
                then found ++ [{| conflict_type := "agent-conflict";
                                  instance1 := instance;
                                  instance2 := otherInstance;
                                  severity := "medium" |}]
                else found)
             registry [])
  end.

(** [resolveConflicts] *)
Fixpoint resolveConflicts (found : list ConflictRecord) (instance : Instance)
    : Async unit :=
  match found with
  | [] => ret tt
  | conflict :: rest =>
      resolution <- await (ConflictResolver_resolve conflict) ;;
      (if String.eqb (action resolution) "pause"
       then await (pauseAgent (id (instance2 conflict)))
       else if String.eqb (action resolution) "queue"
       then await (queueAgent (id instance))
       else ret tt) ;;
      resolveConflicts rest instance
  end.

(** [createAgentInstance] *)
Definition createAgentInstance (userId : UserId) (agentId : AgentId)
    (config : Config) : Async InstanceId :=
  try_catch
    (found <- gets (fun s => JsMap.get (agents s) agentId) ;;
     match found with
     | None => throw ("Agent " ++ agentId ++ " not found")%string
     | Some agentDef =>
         instanceId <- uuid ;;
         let instance :=
           new_agent (agent_class agentDef) instanceId userId agentId
             (spread (row_configuration (definition agentDef)) config) in
         modify (fun s => with_agents
           (JsMap.set (agents s) agentId
              {| definition := definition agentDef;
                 agent_class := agent_class agentDef;
                 instances :=
                   JsMap.set (instances agentDef) instanceId instanceId |})
           s) ;;
         modify (fun s => with_agentInstances
           (JsMap.set (agentInstances s) instanceId instance) s) ;;
         await (db_query (UpsertUserAgent userId agentId config)) ;;
         emit Emitter "agent-created"
           [("instanceId", PStr instanceId); ("userId", PStr userId);
            ("agentId", PStr agentId)] ;;
         emit Io "agent-status-changed"
           [("userId", PStr userId); ("agentId", PStr agentId);
            ("status", PStr "idle"); ("instanceId", PStr instanceId)] ;;
         ret instanceId
     end)
    (fun error =>
       console_error "Failed to create agent instance:" error ;;
       throw error).

(** [runAgent] *)
Definition runAgent (instanceId : InstanceId) (params : Params)
    : Async JsResult :=
  try_catch
    (found <- lookup_instance instanceId ;;
     match found with
     | None => throw ("Agent instance " ++ instanceId ++ " not found")%string
     | Some instance =>
         conflicts <- await (checkConflicts instance) ;;
         (if (0 <? length conflicts)%nat
          then await (resolveConflicts conflicts instance)
          else ret tt) ;;
         await (updateAgentStatus instanceId "running") ;;
         result <- await (BaseAgent_run instanceId params) ;;
         await (PerformanceTracker_recordExecution instanceId result) ;;
         await (updateAgentStatus instanceId "idle") ;;
         emit Emitter "agent-completed"
           [("instanceId", PStr instanceId); ("result", PResult result)] ;;
         emit (IoRoom ("user-" ++ userId instance)%string) "agent-result"
           [("instanceId", PStr instanceId);
            ("agentId", PStr (agentId instance));
            ("result", PResult result)] ;;
         ret result
     end)
    (fun error =>
       console_error ("Failed to run agent " ++ instanceId ++ ":")%string error ;;
       await (updateAgentStatus instanceId "error") ;;
       throw error).

(** The loop of the scheduler's callback over the selected rows. *)
Definition runAutoRunAgents (rows : list DbRow) : Async unit :=
  for_each rows (fun agent =>
    instanceId <- await (createAgentInstance (row_user_id agent)
                           (row_agent_id agent) (row_settings agent)) ;;
    await (runAgent instanceId []) ;;
    ret tt).

(** The callback that [startScheduler] registers with cron: one tick. *)
Definition schedulerTick : Async unit :=
  running <- gets isRunning ;;
  if negb running then ret tt
  else
    try_catch
      (autoRunAgents <- await (db_query SelectAutoRunAgents) ;;
       runAutoRunAgents autoRunAgents)
      (fun error => console_error "Scheduler error:" error).

(** [initializeAgents] *)
Definition initializeAgents : Async unit :=
  try_catch
    (agentDefs <- await (db_query SelectActiveAgents) ;;
     for_each agentDefs (fun agentDef =>
       match getAgentClass (row_type agentDef) with
       | Some agentClass =>
           modify (fun s => with_agents
             (JsMap.set (agents s) (row_id agentDef)
                {| definition := agentDef; agent_class := agentClass;
                   instances := JsMap.empty |}) s)
       | None => ret tt
       end))
    (fun error => console_error "Failed to initialize agents:" error).

End Orchestrator.

(** ** Running tasks *)

(** One task alone: every [await] is resumed in the state it left. *)
Fixpoint run_seq {A} (r : Res A) : State * Completion A :=
  match r with
  | Done s c => (s, c)
  | Yield s k => run_seq (k s)
  end.

Definition exec {A} (p : Async A) (s : State) : State * Completion A :=
  run_seq (p s).

(** Several tasks: a pool of suspended or finished calls over the one
    shared state.  A schedule is a list of actions: a new call, which
    runs up to its first [await], or the resumption of the [i]-th task
    of the pool, which runs up to its next one. *)
Inductive Task (A : Type) :=
| Running (k : State -> Res A)
| Finished (c : Completion A).

Inductive Action (A : Type) :=
| Call (p : Async A)
| Resume (i : nat).
Arguments Resume {A} i.

Definition settle {A} (r : Res A) : State * Task A :=
  match r with
  | Done s c => (s, Finished c)
  | Yield s k => (s, Running k)
  end.

Fixpoint replace_nth {X} (i : nat) (x : X) (l : list X) : list X :=
  match l, i with
  | [], _ => []
  | _ :: l', O => x :: l'
  | y :: l', S i' => y :: replace_nth i' x l'
  end.

Definition act {A} (cfg : State * list (Task A)) (a : Action A)
    : State * list (Task A) :=
  let (s, pool) := cfg in
  match a with
  | Call p => let (s', t) := settle (p s) in (s', pool ++ [t])
  | Resume i =>
      match nth_error pool i with
      | Some (Running k) =>
          let (s', t) := settle (k s) in (s', replace_nth i t pool)
      | _ => cfg
      end
  end.

Definition run_schedule {A} (sched : list (Action A)) (s : State)
    : State * list (Task A) :=
  fold_left act sched (s, []).

Definition finished {A} (t : Task A) : bool :=
  match t with Finished _ => true | Running _ => false end.

(** ** Reasoning about a task among others

    [I] is what the task owes at each of its [await]s, and [rely]
    relates the state in which it suspends to the state in which it is
    resumed.  Besides that the logic counts the invocations of
    execution units that the task itself makes: [wp I rely d r Q]
    holds when [r], resumed within [rely], ends in a state [s] with a
    completion [c] such that [Q n s c], where [n] is the number of the
    task's own invocations, kept as an offset [d] from [executions]. *)

Section Logic.

Variable I : State -> Prop.
Variable rely : State -> State -> Prop.

Definition ex (s : State) : Z := Z.of_nat (executions s).

Fixpoint wp {A} (d : Z) (r : Res A)
    (Q : Z -> State -> Completion A -> Prop) : Prop :=
  match r with
  | Done s c => Q (d + ex s)%Z s c
  | Yield s k =>
      I s /\ forall s', rely s s' -> wp (d + ex s - ex s')%Z (k s') Q
  end.

(** [performs p s R]: started in [s], [p] goes through to a completion
    [c] in a state [s'] after [k] invocations of its own, with
    [R k s' c]. *)
Definition performs {A} (p : Async A) (s : State)
    (R : Z -> State -> Completion A -> Prop) : Prop :=
  forall d Q,
    (forall k s' c, R k s' c -> Q (d + ex s + k)%Z s' c) ->
    wp d (p s) Q.

End Logic.

(** Interference by tasks that keep [I]. *)
Definition keeping (I : State -> Prop) : State -> State -> Prop :=
  fun _ s' => I s'.

(** ** Vocabulary of the statements *)

Definition has_instance (k : InstanceId) (s : State) : Prop :=
  JsMap.get (agentInstances s) k <> None.

(** The shape of the registry: no key twice and every agent object
    kept under its own [id]. *)
Definition registry_wf (registry : JsMap.t Instance) : Prop :=
  NoDup (JsMap.keys registry) /\
  (forall k i, In (k, i) registry -> id i = k).

(** Moreover every key is one of the uuids drawn so far. *)
Definition registry_ok (env : Env) (s : State) : Prop :=
  registry_wf (agentInstances s) /\
  (forall k, In k (JsMap.keys (agentInstances s)) ->
     exists j, j < uuids s /\ k = uuidv4 env j).

(** The conflict set of a unit-type, empty when the rule table has no
    entry for it. *)
Definition conflict_set (unitType : string) : list string :=
  match JsMap.get coordinationRules unitType with
  | Some rules => conflicts rules
  | None => []
  end.

(** Conflict detection in the specification's words: one record of
    severity medium for every other instance of the same user that is
    running and whose unit-type is in the candidate's conflict set. *)
Definition findConflicts (registry : JsMap.t Instance)
    (candidate : Instance) : list ConflictRecord :=
  map (fun other => {| conflict_type := "agent-conflict";
                       instance1 := candidate;
                       instance2 := other;
                       severity := "medium" |})
    (filter (fun other =>
               negb (String.eqb (id other) (id candidate))
               && String.eqb (userId other) (userId candidate)
               && String.eqb (status other) "running"
               && includes (conflict_set (agentId candidate))
                    (agentId other))
       (JsMap.values registry)).

(** How many instances the registry holds for a (user, unit-type) pair. *)
Definition instances_of (u : UserId) (a : AgentId) (s : State) : nat :=
  length (filter (fun i => String.eqb (userId i) u
                           && String.eqb (agentId i) a)
            (JsMap.values (agentInstances s))).

Definition status_of (k : InstanceId) (s : State) : option string :=
  option_map status (JsMap.get (agentInstances s) k).

Definition metrics_of (k : InstanceId) (s : State) : option Metrics :=
  option_map metrics (JsMap.get (agentInstances s) k).

(** The incremental-mean update as the specification writes it:
    [newAvg = oldAvg + (sample - oldAvg) / n]. *)
Definition spec_incremental_mean (oldAvg sample n : float) : float :=
  (oldAvg + (sample - oldAvg) / n)%float.

(** What a run adds to the success rate: [success ? 1 : 0]. *)
Definition success_sample (success : bool) : float :=
  if success then 1%float else 0%float.

(** Whether an invocation of an execution unit came back with a
    result. *)
Definition returned (o : ExecOutcome) : bool :=
  match o with Returns _ => true | Throws _ => false end.

(** The orchestrator's operations, each run to its end before the next
    starts.  The source has no resume operation. *)
Inductive Op :=
| OpCreate (u : UserId) (a : AgentId) (cfg : Config)
| OpRun (k : InstanceId) (params : Params)
| OpPause (k : InstanceId)
| OpUpdateStatus (k : InstanceId) (st : string)
| OpTick.

Definition op_step (env : Env) (op : Op) (s : State) : State :=
  match op with
  | OpCreate u a cfg => fst (exec (createAgentInstance env u a cfg) s)
  | OpRun k params => fst (exec (runAgent env k params) s)
  | OpPause k => fst (exec (pauseAgent env k) s)
  | OpUpdateStatus k st => fst (exec (updateAgentStatus env k st) s)
  | OpTick => fst (exec (schedulerTick env) s)
  end.

Definition empty_state : State :=
  {| agents := JsMap.empty; agentInstances := JsMap.empty;
     performanceTracker := JsMap.empty; isRunning := false;
     queries := []; events := []; uuids := 0; executions := 0;
     clock := 0 |}.

(** The constructor: [initializeAgents] is called without [await], so
    it is suspended at its query while [startScheduler] sets
    [isRunning], and completes afterwards. *)
Definition constructor (env : Env) : State :=
  match initializeAgents env empty_state with
  | Done s _ => with_isRunning true s
  | Yield s k => fst (run_seq (k (with_isRunning true s)))
  end.

Inductive reachable (env : Env) : State -> Prop :=
| reachable_constructor : reachable env (constructor env)
| reachable_step s op :
    reachable env s -> reachable env (op_step env op s).

(** Calls of [runAgent] on one instance id arriving among the
    resumptions of the calls already under way. *)
Inductive RunAction :=
| CallRun (params : Params)
| ResumeRun (i : nat).

Definition run_actions (env : Env) (k : InstanceId) (l : list RunAction)
    : list (Action JsResult) :=
  map (fun a => match a with
                | CallRun params => Call (runAgent env k params)
                | ResumeRun i => Resume i
                end) l.

Definition is_call (a : RunAction) : bool :=
  match a with CallRun _ => true | ResumeRun _ => false end.

Definition calls (l : list RunAction) : nat := length (filter is_call l).

(** What a run that fails keeps: the tracker's records and the
    presence of its instance. *)
Definition untracked (this : InstanceId) (T : JsMap.t TrackerMetrics)
    (s : State) : Prop :=
  performanceTracker s = T /\ has_instance this s.

(** Counts kept for the tasks of a pool. *)
Fixpoint zsum (l : list Z) : Z :=
  match l with
  | [] => 0%Z
  | x :: l' => (x + zsum l')%Z
  end.

(** A task of a pool of calls of [runAgent] on the instance [this]
    that has made [n] invocations so far: whatever the other tasks do
    short of removing the instance, it makes one in all. *)
Definition task_ok (this : InstanceId) (t : Task JsResult) (n : Z) : Prop :=
  match t with
  | Running k =>
      forall s, has_instance this s ->
        wp (has_instance this) (keeping (has_instance this))
          (n - ex s)%Z (k s)
          (fun n' s' _ => has_instance this s' /\ n' = 1%Z)
  | Finished _ => n = 1%Z
  end.

Definition pool_ok (this : InstanceId) (base : Z)
    (cfg : State * list (Task JsResult)) : Prop :=
  has_instance this (fst cfg) /\
  exists counts, Forall2 (task_ok this) (snd cfg) counts /\
                 ex (fst cfg) = (base + zsum counts)%Z.

(** ** Sample environments and states *)

Fixpoint sample_uuid (n : nat) : InstanceId :=
  match n with
  | O => "i"
  | S n' => ("x" ++ sample_uuid n')%string
  end.

Definition sample_result : JsResult :=
  Some {| payload := "done"; error := false; executionTime := None |}.

(** The samples name their agents after their types: the type of the
    agent named [a]. *)
Definition sample_type (a : AgentId) : AgentType :=
  if String.eqb a "meeting-agent" then MeetingAgentType
  else if String.eqb a "mail-summarizer" then MailSummarizerType
  else if String.eqb a "report-generator" then ReportGeneratorType
  else TaskRouterType.

Definition sample_row (u : UserId) (a : AgentId) : DbRow :=
  {| row_id := a; row_type := sample_type a; row_configuration := [];
     row_user_id := u; row_agent_id := a; row_settings := [] |}.

(** The four unit-types, each under its type name as id. *)
Definition catalogue : list DbRow :=
  [sample_row "" "meeting-agent"; sample_row "" "mail-summarizer";
   sample_row "" "report-generator"; sample_row "" "task-router"].

(** An environment whose database holds [catalogue], selects [rows]
    for auto-run at every tick and accepts every write, and whose
    execution units all end in [outcome]. *)
Definition sample_env (rows : list DbRow) (outcome : ExecOutcome) : Env :=
  {| uuidv4 := sample_uuid;
     db_reply := fun _ q =>
       match q with
       | SelectActiveAgents => DbRows catalogue
       | SelectAutoRunAgents => DbRows rows
       | _ => DbRows []
       end;
     execute_reply := fun _ _ _ => outcome;
     Date_now := fun _ => 0%float |}.

Definition calm_env : Env :=
  sample_env [sample_row "u1" "mail-summarizer"] (Returns sample_result).

Definition failing_env : Env :=
  sample_env [sample_row "u1" "mail-summarizer";
              sample_row "u2" "mail-summarizer"]
    (Throws "boom").

(** The orchestrator as constructed, with no instance yet. *)
Definition started : State := Eval vm_compute in constructor calm_env.

(** [started] after user u1 got one mail-summarizer instance (id "i"). *)
Definition one_agent : State :=
  Eval vm_compute in
    op_step calm_env (OpCreate "u1" "mail-summarizer" []) started.

(** [started] after user u1 got a task-router instance (id "i") and a
    meeting-agent instance (id "xi"). *)
Definition two_agents : State :=
  Eval vm_compute in
    op_step calm_env (OpCreate "u1" "meeting-agent" [])
      (op_step calm_env (OpCreate "u1" "task-router" []) started).

(** [two_agents] at a moment when the task-router instance is in the
    middle of a run. *)
Definition router_running : State :=
  Eval vm_compute in modify_instance "i" (with_status "running") two_agents.

(** ** The rest of the orchestrator and of the agent classes *)

(** What [getStatus] returns. *)
Module OrchestratorStatus.
Record t := {
  isRunning : bool;
  totalAgents : nat;
  activeInstances : nat;
  runningInstances : nat
}.
End OrchestratorStatus.

(** [getStatus] *)
Definition getStatus (s : State) : OrchestratorStatus.t :=
  {| OrchestratorStatus.isRunning := isRunning s;
     OrchestratorStatus.totalAgents := JsMap.size (agents s);
     OrchestratorStatus.activeInstances := JsMap.size (agentInstances s);
     OrchestratorStatus.runningInstances :=
       length (filter (fun instance => String.eqb (status instance) "running")
                 (JsMap.values (agentInstances s))) |}.

(** The part of an instance that no operation assigns to. *)
Definition same_identity (i i' : Instance) : Prop :=
  id i' = id i /\ userId i' = userId i /\ agentId i' = agentId i /\
  config i' = config i /\ cls i' = cls i.

(** A sequence of operations, each run to its end before the next. *)
Definition run_ops (env : Env) (ops : list Op) (s : State) : State :=
  fold_left (fun s' op => op_step env op s') ops s.

(** The loop of [initializeAgents] over the rows of the catalogue. *)
Definition register_agents (rows : list DbRow) (known : JsMap.t AgentEntry)
    : JsMap.t AgentEntry :=
  fold_left
    (fun registered agentDef =>
       match getAgentClass (row_type agentDef) with
       | Some agentClass =>
           JsMap.set registered (row_id agentDef)
             {| definition := agentDef; agent_class := agentClass;
                instances := JsMap.empty |}
       | None => registered
       end)
    rows known.

(** A value as a row's [data] holds it and as a property of it reads:
    [undefined], [null], a boolean, a number, a string, or an object
    or array.  An object or array has an identity, [ref], and its own
    properties. *)
Inductive JsValue :=
| JsUndefined
| JsNull
| JsBoolean (b : bool)
| JsNumber (x : float)
| JsString (s : string)
| JsObject (ref : nat) (properties : list (string * JsValue)).

(** [a === b]: values of one type, equal as booleans, as numbers (no
    number equals NaN, and 0 equals -0) or as strings; an object only
    equals itself. *)
Definition strict_eq (a b : JsValue) : bool :=
  match a, b with
  | JsUndefined, JsUndefined => true
  | JsNull, JsNull => true
  | JsBoolean x, JsBoolean y => Bool.eqb x y
  | JsNumber x, JsNumber y => PrimFloat.eqb x y
  | JsString x, JsString y => String.eqb x y
  | JsObject x _, JsObject y _ => Nat.eqb x y
  | _, _ => false
  end.

(** The properties that the agent classes read of a row's [data].
    None of them is the name of a property that a prototype
    provides. *)
Inductive Field :=
| FieldDate
| FieldTime
| FieldSubject.

Definition field_name (field : Field) : string :=
  match field with
  | FieldDate => "date"
  | FieldTime => "time"
  | FieldSubject => "subject"
  end.

(** The property read [value.field]: a TypeError on [undefined] and
    [null]; on an object its own property of that name, and
    [undefined] when it has none, as on every primitive. *)
Definition get_property (value : JsValue) (field : Field)
    : Completion JsValue :=
  match value with
  | JsUndefined =>
      Throw ("Cannot read properties of undefined (reading '"
             ++ field_name field ++ "')")%string
  | JsNull =>
      Throw ("Cannot read properties of null (reading '"
             ++ field_name field ++ "')")%string
  | JsObject _ properties =>
      Normal match JsMap.get properties (field_name field) with
             | Some v => v
             | None => JsUndefined
             end
  | _ => Normal JsUndefined
  end.

(** [MeetingAgent.isTimeOverlap]: the two dates are read and compared
    first; [&&] reads the times only when the dates are equal. *)
Definition isTimeOverlap (meeting1 meeting2 : JsValue) : Completion bool :=
  match get_property meeting1 FieldDate with
  | Throw e => Throw e
  | Normal date1 =>
      match get_property meeting2 FieldDate with
      | Throw e => Throw e
      | Normal date2 =>
          if strict_eq date1 date2
          then match get_property meeting1 FieldTime with
               | Throw e => Throw e
               | Normal time1 =>
                   match get_property meeting2 FieldTime with
                   | Throw e => Throw e
                   | Normal time2 => Normal (strict_eq time1 time2)
                   end
               end
          else Normal false
      end
  end.

Record ScheduleConflict := {
  sc_type : string;
  sc_meeting1 : JsValue;
  sc_meeting2 : JsValue;
  sc_severity : string
}.

Definition schedule_overlap (meeting1 meeting2 : JsValue) : ScheduleConflict :=
  {| sc_type := "schedule_overlap"; sc_meeting1 := meeting1;
     sc_meeting2 := meeting2; sc_severity := "medium" |}.

(** The inner loop of [detectScheduleConflicts]: [meeting1] against
    the meetings after it; [conflicts] is the array being filled. *)
Fixpoint detectScheduleConflicts_inner (meeting1 : JsValue)
    (later : list JsValue) (conflicts : list ScheduleConflict)
    : Completion (list ScheduleConflict) :=
  match later with
  | [] => Normal conflicts
  | meeting2 :: rest =>
      match isTimeOverlap meeting1 meeting2 with
      | Throw e => Throw e
      | Normal overlap =>
          detectScheduleConflicts_inner meeting1 rest
            (if overlap
             then conflicts ++ [schedule_overlap meeting1 meeting2]
             else conflicts)
      end
  end.

(** The outer loop, over the meetings in turn. *)
Fixpoint detectScheduleConflicts_from (meetings : list JsValue)
    (conflicts : list ScheduleConflict)
    : Completion (list ScheduleConflict) :=
  match meetings with
  | [] => Normal conflicts
  | meeting1 :: later =>
      match detectScheduleConflicts_inner meeting1 later conflicts with
      | Throw e => Throw e
      | Normal found => detectScheduleConflicts_from later found
      end
  end.

(** [MeetingAgent.detectScheduleConflicts]; [meetings] holds the
    [data] of each row. *)
Definition detectScheduleConflicts (meetings : list JsValue)
    : Completion (list ScheduleConflict) :=
  detectScheduleConflicts_from meetings [].

(** Whether a row's [data] is a value that properties can be read of. *)
Definition has_data (value : JsValue) : bool :=
  match value with
  | JsUndefined | JsNull => false
  | _ => true
  end.

(** Whether [isTimeOverlap] returns true. *)
Definition overlaps (meeting1 meeting2 : JsValue) : bool :=
  match isTimeOverlap meeting1 meeting2 with
  | Normal overlap => overlap
  | Throw _ => false
  end.

(** The pairs of an earlier and a later meeting that overlap, each
    pair once: for each meeting in turn, the overlapping ones among
    the meetings after it, in their order. *)
Fixpoint overlapping_pairs (meetings : list JsValue) : list ScheduleConflict :=
  match meetings with
  | [] => []
  | meeting1 :: later =>
      map (schedule_overlap meeting1) (filter (overlaps meeting1) later)
      ++ overlapping_pairs later
  end.

(** The template literal of [summarizeEmail], [text] followed by the
    string that [value] converts to. *)
Record Template := {
  template_text : string;
  template_value : JsValue
}.

(** What [MailSummarizerAgent.summarizeEmail] returns. *)
Record EmailSummary := {
  es_subject : JsValue;
  es_summary : Template;
  es_actionItems : list string;
  es_sentiment : string;
  es_priority : string
}.

(** [MailSummarizerAgent.summarizeEmail] *)
Definition summarizeEmail (emailData : JsValue) : Async EmailSummary :=
  match get_property emailData FieldSubject with
  | Throw e => throw e
  | Normal subject =>
      ret {| es_subject := subject;
             es_summary := {| template_text := "Summary of ";
                              template_value := subject |};
             es_actionItems := ["Follow up on proposal"; "Schedule meeting"];
             es_sentiment := "positive";
             es_priority := "medium" |}
  end.

Record MailResult := {
  emailsProcessed : nat;
  summariesGenerated : nat;
  actionItemsExtracted : nat
}.

(** The loop of [MailSummarizerAgent.execute] over the emails. *)
Fixpoint summarize_emails (emails : list JsValue)
    (summaries : list EmailSummary) : Async (list EmailSummary) :=
  match emails with
  | [] => ret summaries
  | email :: later =>
      summary <- await (summarizeEmail email) ;;
      summarize_emails later (summaries ++ [summary])
  end.

(** [MailSummarizerAgent.execute] from the answer of its query on;
    [emails] holds the [data] of each row selected. *)
Definition MailSummarizerAgent_execute_on (emails : list JsValue)
    : Async MailResult :=
  summaries <- summarize_emails emails [] ;;
  ret {| emailsProcessed := length emails;
         summariesGenerated := length summaries;
         actionItemsExtracted :=
           fold_left (fun count s => count + length (es_actionItems s))
             summaries 0 |}.

(** The state in which the constructor returns: [initializeAgents]
    has sent its query and waits for the answer, and the scheduler is
    on. *)
Definition constructor_returns (env : Env) : State :=
  match initializeAgents env empty_state with
  | Done s _ => with_isRunning true s
  | Yield s _ => with_isRunning true s
  end.

(** [initializeAgents] going on with the answer to its query, in the
    state [s] that it is resumed in. *)
Definition initializeAgents_settles (env : Env) (s : State) : State :=
  match initializeAgents env empty_state with
  | Done _ _ => s
  | Yield _ k => fst (run_seq (k s))
  end.

(** An environment whose database refuses every query. *)
Definition offline_env : Env :=
  {| uuidv4 := sample_uuid;
     db_reply := fun _ _ => DbError "connection refused";
     execute_reply := fun _ _ _ => Returns sample_result;
     Date_now := fun _ => 0%float |}.

(** An environment like [calm_env] whose execution units return at
    every other invocation and throw at the others. *)
Definition flaky_env : Env :=
  {| uuidv4 := sample_uuid;
     db_reply := db_reply calm_env;
     execute_reply := fun n _ _ =>
       if Nat.even n then Returns sample_result else Throws "boom";
     Date_now := fun _ => 0%float |}.

(** The [data] of a schedule row, as the object [ref]. *)
Definition sample_meeting (ref : nat) (d t : string) : JsValue :=
  JsObject ref [("title", JsString "Review"); ("date", JsString d);
                ("time", JsString t)].

(** * Facts *)

(** ** The map *)

Lemma get_set_same V (m : JsMap.t V) k v : JsMap.get (JsMap.set m k v) k = Some v.
Proof.
  induction m as [| [k' v'] m IH]; simpl.
  - rewrite String.eqb_refl. reflexivity.
  - destruct (String.eqb k' k) eqn:E; simpl.
    + rewrite String.eqb_refl. reflexivity.
    + rewrite E. exact IH.
Qed.

Lemma get_set_other V (m : JsMap.t V) k k' v :
  k <> k' -> JsMap.get (JsMap.set m k v) k' = JsMap.get m k'.
Proof.
  intros Hne.
  induction m as [| [k0 v0] m IH]; simpl.
  - destruct (String.eqb_spec k k'); [contradiction | reflexivity].
  - destruct (String.eqb_spec k0 k) as [-> | Hk]; simpl.
    + destruct (String.eqb_spec k k'); [contradiction | reflexivity].
    + destruct (String.eqb_spec k0 k'); [reflexivity | exact IH].
Qed.

Lemma get_In V (m : JsMap.t V) k v : JsMap.get m k = Some v -> In (k, v) m.
Proof.
  induction m as [| [k' v'] m IH]; simpl; [discriminate |].
  destruct (String.eqb_spec k' k) as [-> | Hk]; intros H.
  - injection H as ->. left. reflexivity.
  - right. auto.
Qed.

Lemma In_get V (m : JsMap.t V) k v :
  NoDup (JsMap.keys m) -> In (k, v) m -> JsMap.get m k = Some v.
Proof.
  unfold JsMap.keys.
  induction m as [| [k' v'] m IH]; simpl; [contradiction |].
  intros Hnd [Heq | Hin].
  - injection Heq as -> ->. rewrite String.eqb_refl. reflexivity.
  - inversion Hnd as [| ? ? Hnotin Hnd']; subst.
    destruct (String.eqb_spec k' k) as [-> | Hk].
    + exfalso. apply Hnotin. apply (in_map fst) in Hin. exact Hin.
    + auto.
Qed.

Lemma get_None_keys V (m : JsMap.t V) k :
  JsMap.get m k = None <-> ~ In k (JsMap.keys m).
Proof.
  unfold JsMap.keys.
  induction m as [| [k' v'] m IH]; simpl.
  - split; auto.
  - destruct (String.eqb_spec k' k) as [-> | Hk].
    + split; [discriminate | intros H; exfalso; auto].
    + rewrite IH. split; intros H; [intros [? | ?]; auto | auto].
Qed.

(** [set] on a key that is present replaces the value in place. *)
Lemma keys_set_present V (m : JsMap.t V) k v :
  JsMap.get m k <> None -> JsMap.keys (JsMap.set m k v) = JsMap.keys m.
Proof.
  unfold JsMap.keys.
  induction m as [| [k' v'] m IH]; simpl; intros H.
  - congruence.
  - destruct (String.eqb_spec k' k) as [-> | Hk]; simpl.
    + reflexivity.
    + f_equal. auto.
Qed.

(** [set] on a new key appends the entry. *)
Lemma set_absent V (m : JsMap.t V) k v :
  JsMap.get m k = None -> JsMap.set m k v = m ++ [(k, v)].
Proof.
  induction m as [| [k' v'] m IH]; simpl; intros H.
  - reflexivity.
  - destruct (String.eqb k' k); [discriminate |].
    f_equal. auto.
Qed.

Lemma In_set_inv V (m : JsMap.t V) k v x :
  In x (JsMap.set m k v) -> x = (k, v) \/ In x m.
Proof.
  induction m as [| [k0 v0] m IH]; simpl.
  - intros [H | []]. left. auto.
  - destruct (String.eqb k0 k); simpl.
    + intros [H | H]; auto.
    + intros [H | H]; auto.
      destruct (IH H); auto.
Qed.

Lemma keys_set_absent V (m : JsMap.t V) k v :
  JsMap.get m k = None -> JsMap.keys (JsMap.set m k v) = JsMap.keys m ++ [k].
Proof.
  intros H. rewrite set_absent by exact H.
  unfold JsMap.keys. rewrite map_app. reflexivity.
Qed.

Lemma NoDup_keys_set V (m : JsMap.t V) k v :
  NoDup (JsMap.keys m) -> NoDup (JsMap.keys (JsMap.set m k v)).
Proof.
  intros Hnd. destruct (JsMap.get m k) eqn:E.
  - rewrite keys_set_present by congruence. exact Hnd.
  - rewrite keys_set_absent by exact E.
    apply NoDup_app; [exact Hnd | constructor; [intros [] | constructor] |].
    intros x Hx [<- | []]. apply get_None_keys in E. contradiction.
Qed.

Lemma In_keys_set V (m : JsMap.t V) k v k' :
  In k' (JsMap.keys (JsMap.set m k v)) -> k' = k \/ In k' (JsMap.keys m).
Proof.
  unfold JsMap.keys. intros H. apply in_map_iff in H.
  destruct H as [[k0 v0] [<- Hin]]. simpl.
  destruct (In_set_inv _ _ _ _ Hin) as [Heq | Hin'].
  - injection Heq as -> ->. left. reflexivity.
  - right. apply (in_map fst) in Hin'. exact Hin'.
Qed.

(** ** A task run alone *)

Lemma run_seq_bind A B (r : Res A) (f : A -> Async B) :
  run_seq (bindR r f) =
  match snd (run_seq r) with
  | Normal a => run_seq (f a (fst (run_seq r)))
  | Throw e => (fst (run_seq r), Throw e)
  end.
Proof.
  induction r as [s c | s k IH]; simpl.
  - destruct c; reflexivity.
  - apply IH.
Qed.

Lemma run_seq_try_catch A (r : Res A) (h : Error -> Async A) :
  run_seq (try_catchR r h) =
  match snd (run_seq r) with
  | Normal a => (fst (run_seq r), Normal a)
  | Throw e => run_seq (h e (fst (run_seq r)))
  end.
Proof.
  induction r as [s c | s k IH]; simpl.
  - destruct c; reflexivity.
  - apply IH.
Qed.

Lemma run_seq_await A (r : Res A) : run_seq (awaitR r) = run_seq r.
Proof.
  induction r as [s c | s k IH]; simpl.
  - reflexivity.
  - apply IH.
Qed.

Lemma exec_bind A B (p : Async A) (f : A -> Async B) s :
  exec (bind p f) s =
  match snd (exec p s) with
  | Normal a => exec (f a) (fst (exec p s))
  | Throw e => (fst (exec p s), Throw e)
  end.
Proof. apply run_seq_bind. Qed.

Lemma exec_try_catch A (p : Async A) (h : Error -> Async A) s :
  exec (try_catch p h) s =
  match snd (exec p s) with
  | Normal a => (fst (exec p s), Normal a)
  | Throw e => exec (h e) (fst (exec p s))
  end.
Proof. apply run_seq_try_catch. Qed.

Lemma exec_await A (p : Async A) s : exec (await p) s = exec p s.
Proof. apply run_seq_await. Qed.

Lemma exec_for_each_app X (body : X -> Async unit) l1 l2 s :
  exec (for_each (l1 ++ l2) body) s =
  match snd (exec (for_each l1 body) s) with
  | Normal _ => exec (for_each l2 body) (fst (exec (for_each l1 body) s))
  | Throw e => (fst (exec (for_each l1 body) s), Throw e)
  end.
Proof.
  revert s. induction l1 as [| x l1 IH]; intros s; simpl.
  - reflexivity.
  - rewrite !exec_bind.
    destruct (snd (exec (body x) s)) as [[] | e]; [apply IH | reflexivity].
Qed.

(** ** The logic *)

Section LogicFacts.

Variable I : State -> Prop.
Variable rely : State -> State -> Prop.

Lemma wp_bind A B d (r : Res A) (f : A -> Async B) Q :
  wp I rely d r (fun n s c =>
            match c with
            | Normal a => wp I rely (n - ex s)%Z (f a s) Q
            | Throw e => Q n s (Throw e)
            end) ->
  wp I rely d (bindR r f) Q.
Proof.
  revert d.
  induction r as [s c | s k IH]; intros d H; simpl in *.
  - destruct c as [a | e]; simpl.
    + replace (d + ex s - ex s)%Z with d in H by lia. exact H.
    + exact H.
  - destruct H as [Hs Hk]. split; auto.
Qed.

Lemma wp_try_catch A d (r : Res A) (h : Error -> Async A) Q :
  wp I rely d r (fun n s c =>
            match c with
            | Normal a => Q n s (Normal a)
            | Throw e => wp I rely (n - ex s)%Z (h e s) Q
            end) ->
  wp I rely d (try_catchR r h) Q.
Proof.
  revert d.
  induction r as [s c | s k IH]; intros d H; simpl in *.
  - destruct c as [a | e]; simpl.
    + exact H.
    + replace (d + ex s - ex s)%Z with d in H by lia. exact H.
  - destruct H as [Hs Hk]. split; auto.
Qed.

Lemma wp_try_finally A d (r : Res A) (f : State -> State) Q :
  wp I rely d r (fun n s c => Q (n - ex s + ex (f s))%Z (f s) c) ->
  wp I rely d (try_finallyR r f) Q.
Proof.
  revert d.
  induction r as [s c | s k IH]; intros d H; simpl in *.
  - replace (d + ex s - ex s + ex (f s))%Z with (d + ex (f s))%Z in H by lia.
    exact H.
  - destruct H as [Hs Hk]. split; auto.
Qed.

Lemma wp_await A d (r : Res A) Q :
  wp I rely d r (fun n s c => I s /\ forall s', rely s s' -> Q n s' c) ->
  wp I rely d (awaitR r) Q.
Proof.
  revert d.
  induction r as [s c | s k IH]; intros d H; simpl in *.
  - destruct H as [Hs HQ]. split; [exact Hs |].
    intros s' Hs'.
    replace (d + ex s - ex s' + ex s')%Z with (d + ex s)%Z by lia.
    auto.
  - destruct H as [Hs Hk]. split; auto.
Qed.

(** What [wp] promises holds of the task run alone, when resuming in
    the very state of the suspension is within [rely]. *)
Lemma wp_run_seq A d (r : Res A) Q :
  (forall s, I s -> rely s s) ->
  wp I rely d r Q ->
  Q (d + ex (fst (run_seq r)))%Z (fst (run_seq r)) (snd (run_seq r)).
Proof.
  intros Hrefl. revert d.
  induction r as [s c | s k IH]; intros d H; simpl in *.
  - exact H.
  - destruct H as [Hs Hk].
    specialize (IH s _ (Hk s (Hrefl s Hs))).
    replace (d + ex s - ex s + ex (fst (run_seq (k s))))%Z
      with (d + ex (fst (run_seq (k s))))%Z in IH by lia.
    exact IH.
Qed.

Lemma performs_exec A (p : Async A) s R :
  (forall s, I s -> rely s s) ->
  performs I rely p s R ->
  R (ex (fst (exec p s)) - ex s)%Z (fst (exec p s)) (snd (exec p s)).
Proof.
  intros Hrefl Hp.
  assert (H : wp I rely (- ex s)%Z (p s)
                (fun n s' c => exists k, R k s' c /\ n = k)).
  { apply Hp. intros k s' c Hk. exists k. split; [exact Hk | lia]. }
  apply (wp_run_seq _ _ _ Hrefl) in H.
  destruct H as [k [Hk Heq]].
  unfold exec.
  replace (ex (fst (run_seq (p s))) - ex s)%Z with k by lia.
  exact Hk.
Qed.

Lemma performs_weaken A (p : Async A) s
    (R R' : Z -> State -> Completion A -> Prop) :
  performs I rely p s R -> (forall k s' c, R k s' c -> R' k s' c) ->
  performs I rely p s R'.
Proof.
  intros Hp HR d Q HQ. apply Hp. intros k s' c Hk. auto.
Qed.

(** A stretch without [await]. *)
Lemma performs_done A (p : Async A) s s' c
    (R : Z -> State -> Completion A -> Prop) :
  p s = Done s' c -> R (ex s' - ex s)%Z s' c -> performs I rely p s R.
Proof.
  intros Hp HR d Q HQ. rewrite Hp. simpl.
  replace (d + ex s')%Z with (d + ex s + (ex s' - ex s))%Z by lia. auto.
Qed.

Lemma performs_ret A (a : A) s (R : Z -> State -> Completion A -> Prop) :
  R 0%Z s (Normal a) -> performs I rely (ret a) s R.
Proof.
  intros HR. apply performs_done with (s' := s) (c := Normal a);
    [reflexivity |].
  replace (ex s - ex s)%Z with 0%Z by lia. exact HR.
Qed.

Lemma performs_throw A e s (R : Z -> State -> Completion A -> Prop) :
  R 0%Z s (Throw e) -> performs I rely (throw e) s R.
Proof.
  intros HR. apply performs_done with (s' := s) (c := Throw e);
    [reflexivity |].
  replace (ex s - ex s)%Z with 0%Z by lia. exact HR.
Qed.

Lemma performs_gets A (f : State -> A) s
    (R : Z -> State -> Completion A -> Prop) :
  R 0%Z s (Normal (f s)) -> performs I rely (gets f) s R.
Proof.
  intros HR. apply performs_done with (s' := s) (c := Normal (f s));
    [reflexivity |].
  replace (ex s - ex s)%Z with 0%Z by lia. exact HR.
Qed.

Lemma performs_modify (f : State -> State) s
    (R : Z -> State -> Completion unit -> Prop) :
  executions (f s) = executions s -> R 0%Z (f s) (Normal tt) ->
  performs I rely (modify f) s R.
Proof.
  intros He HR. apply performs_done with (s' := f s) (c := Normal tt);
    [reflexivity |].
  replace (ex (f s) - ex s)%Z with 0%Z by (unfold ex; rewrite He; lia).
  exact HR.
Qed.

Lemma performs_bind A B (p : Async A) (f : A -> Async B) s
    (R1 : Z -> State -> Completion A -> Prop)
    (R : Z -> State -> Completion B -> Prop) :
  performs I rely p s R1 ->
  (forall k1 s' a, R1 k1 s' (Normal a) ->
     performs I rely (f a) s' (fun k2 => R (k1 + k2)%Z)) ->
  (forall k s' e, R1 k s' (Throw e) -> R k s' (Throw e)) ->
  performs I rely (bind p f) s R.
Proof.
  intros Hp Hf He d Q HQ. unfold bind. apply wp_bind. apply Hp.
  intros k s' c Hk. destruct c as [a | e].
  - apply (Hf k s' a Hk). intros k2 s'' c' Hk2.
    replace (d + ex s + k - ex s' + ex s' + k2)%Z
      with (d + ex s + (k + k2))%Z by lia.
    auto.
  - auto.
Qed.

Lemma performs_try_catch A (p : Async A) (h : Error -> Async A) s
    (R1 R : Z -> State -> Completion A -> Prop) :
  performs I rely p s R1 ->
  (forall k s' a, R1 k s' (Normal a) -> R k s' (Normal a)) ->
  (forall k1 s' e, R1 k1 s' (Throw e) ->
     performs I rely (h e) s' (fun k2 => R (k1 + k2)%Z)) ->
  performs I rely (try_catch p h) s R.
Proof.
  intros Hp Hn Hh d Q HQ. unfold try_catch. apply wp_try_catch. apply Hp.
  intros k s' c Hk. destruct c as [a | e].
  - auto.
  - apply (Hh k s' e Hk). intros k2 s'' c' Hk2.
    replace (d + ex s + k - ex s' + ex s' + k2)%Z
      with (d + ex s + (k + k2))%Z by lia.
    auto.
Qed.

Lemma performs_try_finally A (p : Async A) (f : State -> State) s
    (R : Z -> State -> Completion A -> Prop) :
  (forall s', executions (f s') = executions s') ->
  performs I rely p s (fun k s' c => R k (f s') c) ->
  performs I rely (try_finally p f) s R.
Proof.
  intros He Hp d Q HQ. unfold try_finally. apply wp_try_finally.
  apply Hp. intros k s' c Hk.
  replace (d + ex s + k - ex s' + ex (f s'))%Z with (d + ex s + k)%Z
    by (unfold ex; rewrite He; lia).
  auto.
Qed.

Lemma performs_await A (p : Async A) s
    (R : Z -> State -> Completion A -> Prop) :
  performs I rely p s
    (fun k s' c => I s' /\ forall s'', rely s' s'' -> R k s'' c) ->
  performs I rely (await p) s R.
Proof.
  intros Hp d Q HQ. unfold await. apply wp_await. apply Hp.
  intros k s' c [Hs' Hk]. split; auto.
Qed.

End LogicFacts.

(** ** The operations under interference

    [I] is kept by the other tasks ([rely_keeps]) and by each of the
    state changes the operations are made of; [K] holds of the
    instance ids whose agent object the task at hand may write to. *)

Section Tasks.

Variable env : Env.
Variable I : State -> Prop.
Variable rely : State -> State -> Prop.
Variable K : InstanceId -> Prop.

Hypothesis rely_keeps : forall s s', I s -> rely s s' -> I s'.
Hypothesis I_set_status : forall s k st,
  K k -> I s -> I (modify_instance k (with_status st) s).
Hypothesis I_set_metrics : forall s k g,
  K k -> I s -> I (modify_instance k (fun i => with_metrics (g i) i) s).
Hypothesis I_push_query : forall s q, I s -> I (push_query q s).
Hypothesis I_push_event : forall s e, I s -> I (push_event e s).
Hypothesis I_bump_executions : forall s, I s -> I (bump_executions s).
Hypothesis I_bump_clock : forall s, I s -> I (bump_clock s).
Hypothesis I_tracker : forall s t, I s -> I (with_performanceTracker t s).

(** [does p s phi]: started in [s], [p] ends with [I] kept, after [k]
    invocations of its own and with a completion [c] such that
    [phi k c]. *)
Local Notation does p s phi :=
  (performs I rely p s (fun k s' c => I s' /\ phi k c)).

Lemma does_weaken A (p : Async A) s (phi psi : Z -> Completion A -> Prop) :
  does p s phi -> (forall k c, phi k c -> psi k c) -> does p s psi.
Proof.
  intros Hp H. eapply performs_weaken; [exact Hp |].
  simpl. intros k s' c [Hs' Hk]. auto.
Qed.

Lemma does_bind A B (p : Async A) (f : A -> Async B) s
    (phi1 : Z -> Completion A -> Prop) (phi : Z -> Completion B -> Prop) :
  does p s phi1 ->
  (forall k1 s' a, I s' -> phi1 k1 (Normal a) ->
     does (f a) s' (fun k2 c => phi (k1 + k2)%Z c)) ->
  (forall k e, phi1 k (Throw e) -> phi k (Throw e)) ->
  does (bind p f) s phi.
Proof.
  intros Hp Hf He. eapply performs_bind; [exact Hp | |]; simpl.
  - intros k1 s' a [Hs' Hk]. apply Hf; assumption.
  - intros k s' e [Hs' Hk]. auto.
Qed.

Lemma does_try_catch A (p : Async A) (h : Error -> Async A) s
    (phi1 phi : Z -> Completion A -> Prop) :
  does p s phi1 ->
  (forall k a, phi1 k (Normal a) -> phi k (Normal a)) ->
  (forall k1 s' e, I s' -> phi1 k1 (Throw e) ->
     does (h e) s' (fun k2 c => phi (k1 + k2)%Z c)) ->
  does (try_catch p h) s phi.
Proof.
  intros Hp Hn Hh. eapply performs_try_catch; [exact Hp | |]; simpl.
  - intros k s' a [Hs' Hk]. auto.
  - intros k1 s' e [Hs' Hk]. apply Hh; assumption.
Qed.

Lemma does_await A (p : Async A) s (phi : Z -> Completion A -> Prop) :
  does p s phi -> does (await p) s phi.
Proof.
  intros Hp. apply performs_await.
  eapply performs_weaken; [exact Hp |].
  simpl. intros k s' c [Hs' Hk]. split; [exact Hs' |].
  intros s'' Hr. split; [eapply rely_keeps; eassumption | exact Hk].
Qed.

Lemma does_done A (p : Async A) s s' c (phi : Z -> Completion A -> Prop) :
  p s = Done s' c -> I s' -> phi (ex s' - ex s)%Z c -> does p s phi.
Proof.
  intros Hp Hs' Hphi. eapply performs_done; [exact Hp |]. auto.
Qed.

Lemma does_ret A (a : A) s (phi : Z -> Completion A -> Prop) :
  I s -> phi 0%Z (Normal a) -> does (ret a) s phi.
Proof. intros. apply performs_ret. auto. Qed.

Lemma does_throw A e s (phi : Z -> Completion A -> Prop) :
  I s -> phi 0%Z (Throw e) -> does (throw e) s phi.
Proof. intros. apply performs_throw. auto. Qed.

Lemma does_modify (f : State -> State) s
    (phi : Z -> Completion unit -> Prop) :
  executions (f s) = executions s -> I (f s) -> phi 0%Z (Normal tt) ->
  does (modify f) s phi.
Proof. intros. apply performs_modify; auto. Qed.

Lemma executions_modify_instance k f s :
  executions (modify_instance k f s) = executions s.
Proof.
  unfold modify_instance. destruct (JsMap.get (agentInstances s) k); reflexivity.
Qed.

Lemma does_now s :
  I s -> does (now env) s (fun k c => k = 0%Z /\ exists t, c = Normal t).
Proof.
  intros Hs. eapply does_done; [reflexivity | auto |].
  simpl. unfold ex. simpl. split; [lia | eauto].
Qed.

Lemma does_emit ch name fields s :
  I s -> does (emit ch name fields) s (fun k c => k = 0%Z /\ c = Normal tt).
Proof.
  intros Hs. apply does_modify; auto.
Qed.

Lemma does_db_query q s :
  I s -> does (db_query env q) s (fun k c => k = 0%Z).
Proof.
  intros Hs. unfold db_query.
  destruct (db_reply env (length (queries s)) q) eqn:E.
  - eapply does_done.
    + unfold db_query. rewrite E. reflexivity.
    + auto.
    + unfold ex. simpl. lia.
  - eapply does_done.
    + unfold db_query. rewrite E. reflexivity.
    + auto.
    + unfold ex. simpl. lia.
Qed.

Lemma ex_bump_executions s : ex (bump_executions s) = (ex s + 1)%Z.
Proof. unfold ex, bump_executions. cbn [executions]. lia. Qed.

Lemma does_execute this params s :
  I s -> does (execute env this params) s (fun k c => k = 1%Z).
Proof.
  intros Hs.
  destruct (execute_reply env (executions s) this params) eqn:E.
  - eapply does_done.
    + unfold execute. rewrite E. reflexivity.
    + auto.
    + rewrite ex_bump_executions. lia.
  - eapply does_done.
    + unfold execute. rewrite E. reflexivity.
    + auto.
    + rewrite ex_bump_executions. lia.
Qed.

Lemma does_updateAgentStatus instanceId st s :
  K instanceId -> I s ->
  does (updateAgentStatus env instanceId st) s
    (fun k c => k = 0%Z /\ c = Normal tt).
Proof.
  intros HK Hs. unfold updateAgentStatus, lookup_instance.
  eapply does_try_catch with (phi1 := fun k c => k = 0%Z).
  - eapply does_bind with (phi1 := fun k c => k = 0%Z).
    + apply performs_gets. auto.
    + intros k1 s' [instance |] Hs' ->.
      * eapply does_bind with (phi1 := fun k c => k = 0%Z).
        -- apply does_modify; auto using executions_modify_instance.
        -- intros k1 s1 _ Hs1 ->.
           eapply does_bind with (phi1 := fun k c => k = 0%Z).
           ++ apply does_await. apply does_db_query. exact Hs1.
           ++ intros k1 s2 _ Hs2 ->.
              eapply does_weaken; [apply does_emit; exact Hs2 |].
              simpl. intros k c [-> _]. reflexivity.
           ++ auto.
        -- auto.
      * apply does_ret; auto.
    + auto.
  - intros k a ->. destruct a. auto.
  - intros k1 s' e Hs' ->.
    eapply does_weaken; [apply does_emit; exact Hs' |].
    simpl. intros k c [-> ->]. auto.
Qed.

(** No class has a [pause] method, so [pauseAgent] returns at once. *)
Lemma pauseAgent_done instanceId s :
  pauseAgent env instanceId s = Done s (Normal tt).
Proof.
  unfold pauseAgent, lookup_instance, bind, gets. simpl.
  destruct (JsMap.get (agentInstances s) instanceId) as [instance |];
    [| reflexivity].
  destruct (cls instance); reflexivity.
Qed.

Lemma does_pauseAgent instanceId s :
  I s -> does (pauseAgent env instanceId) s
           (fun k c => k = 0%Z /\ c = Normal tt).
Proof.
  intros Hs. eapply does_done; [apply pauseAgent_done | exact Hs |].
  split; [lia | reflexivity].
Qed.

Lemma checkConflicts_done instance s :
  exists found, checkConflicts instance s = Done s (Normal found).
Proof.
  unfold checkConflicts.
  destruct (JsMap.get coordinationRules (agentId instance)); eexists; reflexivity.
Qed.

Lemma does_checkConflicts instance s :
  I s -> does (checkConflicts instance) s
           (fun k c => k = 0%Z /\ exists found, c = Normal found).
Proof.
  intros Hs. destruct (checkConflicts_done instance s) as [found H].
  eapply does_done; [exact H | exact Hs |].
  split; [lia | eauto].
Qed.

Lemma does_resolveConflicts found instance s :
  I s -> does (resolveConflicts env found instance) s
           (fun k c => k = 0%Z /\ c = Normal tt).
Proof.
  revert s. induction found as [| conflict rest IH]; intros s Hs; simpl.
  - apply does_ret; auto.
  - eapply does_bind
      with (phi1 := fun k c => k = 0%Z /\ exists x, c = Normal x).
    + apply does_await. unfold ConflictResolver_resolve.
      destruct (String.eqb (conflict_type conflict) "agent-conflict");
        apply does_ret; eauto.
    + intros k1 s1 resolution Hs1 [-> _].
      eapply does_bind with (phi1 := fun k c => k = 0%Z /\ c = Normal tt).
      * destruct (String.eqb (action resolution) "pause").
        -- apply does_await. apply does_pauseAgent. exact Hs1.
        -- destruct (String.eqb (action resolution) "queue").
           ++ apply does_await. apply does_emit. exact Hs1.
           ++ apply does_ret; auto.
      * intros k1 s2 _ Hs2 [-> _]. apply IH. exact Hs2.
      * intros k e [_ H]. discriminate H.
    + intros k e [_ [x H]]. discriminate H.
Qed.

Lemma does_BaseAgent_run this params s :
  K this -> I s ->
  does (BaseAgent_run env this params) s (fun k c => k = 1%Z).
Proof.
  intros HK Hs. unfold BaseAgent_run.
  assert (Hmet : forall s1 b dt date, I s1 ->
    does (modify (modify_instance this (fun i =>
            with_metrics (updateMetrics (metrics i) b dt date) i))) s1
      (fun k c => k = 0%Z)).
  { intros s1 b dt date Hs1.
    apply does_modify; auto using executions_modify_instance. }
  eapply does_bind with (phi1 := fun k c => k = 0%Z /\ exists t, c = Normal t).
  - apply does_now. exact Hs.
  - intros k1 s1 startTime Hs1 [-> _].
    eapply does_bind with (phi1 := fun k c => k = 0%Z /\ c = Normal tt).
    + apply does_modify; auto using executions_modify_instance.
    + intros k1 s2 _ Hs2 [-> _].
      apply performs_try_finally; [apply executions_modify_instance |].
      eapply performs_weaken.
      * eapply does_try_catch with (phi1 := fun k c => k = 1%Z)
                                   (phi := fun k c => k = 1%Z).
        -- eapply does_bind with (phi1 := fun k c => k = 1%Z).
           ++ apply does_await. apply does_execute. exact Hs2.
           ++ intros k1 s3 result Hs3 ->.
              eapply does_bind with (phi1 := fun k c => k = 0%Z /\ exists t, c = Normal t).
              ** apply does_now. exact Hs3.
              ** intros k1 s4 t Hs4 [-> _].
                 eapply does_bind with (phi1 := fun k c => k = 0%Z /\ exists t, c = Normal t).
                 --- apply does_now. exact Hs4.
                 --- intros k1 s5 date Hs5 [-> _].
                     eapply does_bind with (phi1 := fun k c => k = 0%Z).
                     +++ apply Hmet. exact Hs5.
                     +++ intros k1 s6 _ Hs6 ->. apply does_ret; [exact Hs6 | lia].
                     +++ intros k e ->. lia.
                 --- intros k e [-> _]. lia.
              ** intros k e [-> _]. lia.
           ++ auto.
        -- auto.
        -- intros k1 s3 e Hs3 ->.
           eapply does_bind with (phi1 := fun k c => k = 0%Z /\ exists t, c = Normal t).
           ++ apply does_now. exact Hs3.
           ++ intros k1 s4 t Hs4 [-> _].
              eapply does_bind with (phi1 := fun k c => k = 0%Z /\ exists t, c = Normal t).
              ** apply does_now. exact Hs4.
              ** intros k1 s5 date Hs5 [-> _].
                 eapply does_bind with (phi1 := fun k c => k = 0%Z).
                 --- apply Hmet. exact Hs5.
                 --- intros k1 s6 _ Hs6 ->. apply does_throw; [exact Hs6 | lia].
                 --- intros k e' ->. lia.
              ** intros k e' [-> _]. lia.
           ++ intros k e' [-> _]. lia.
      * simpl. intros k s' c [Hs' ->]. split; [| lia].
        apply I_set_status; auto.
    + intros k e [_ H]. discriminate H.
  - intros k e [-> [t H]]. discriminate H.
Qed.

Lemma does_recordExecution instanceId result s :
  I s ->
  does (PerformanceTracker_recordExecution env instanceId result) s
    (fun k c => k = 0%Z).
Proof.
  intros Hs. unfold PerformanceTracker_recordExecution.
  eapply does_bind with (phi1 := fun k c => k = 0%Z).
  - apply performs_gets. auto.
  - intros k1 s1 found Hs1 ->.
    destruct result as [r |].
    + eapply does_bind with (phi1 := fun k c => k = 0%Z /\ exists t, c = Normal t).
      * apply does_now. exact Hs1.
      * intros k1 s2 date Hs2 [-> _]. apply does_modify; auto.
      * intros k e [-> _]. lia.
    + eapply does_bind with (phi1 := fun k c => k = 0%Z).
      * destruct found; [apply does_modify | apply does_ret]; auto.
      * intros k1 s2 _ Hs2 ->. apply does_throw; [exact Hs2 | lia].
      * auto.
  - auto.
Qed.

Lemma does_runAgent instanceId params s :
  K instanceId -> I s ->
  does (runAgent env instanceId params) s
    (fun k c => k = 1%Z \/
                (k = 0%Z /\ JsMap.get (agentInstances s) instanceId = None)).
Proof.
  intros HK Hs. unfold runAgent, lookup_instance.
  set (post := fun (k : Z) (c : Completion JsResult) =>
                 k = 1%Z \/
                 (k = 0%Z /\ JsMap.get (agentInstances s) instanceId = None)).
  eapply does_try_catch with (phi1 := post).
  - eapply does_bind with
      (phi1 := fun k c => k = 0%Z /\
                 c = Normal (JsMap.get (agentInstances s) instanceId)).
    + apply performs_gets. auto.
    + intros k1 s1 found Hs1 [-> Hfound]. injection Hfound as ->.
      destruct (JsMap.get (agentInstances s) instanceId) as [instance |] eqn:E.
      * eapply does_bind; [apply does_await, does_checkConflicts, Hs1 | |].
        2: { intros k e [_ [x H]]. discriminate H. }
        intros k1 s2 found Hs2 [-> _].
        eapply does_bind with (phi1 := fun k c => k = 0%Z /\ c = Normal tt).
        { destruct (0 <? length found)%nat.
          - apply does_await, does_resolveConflicts, Hs2.
          - apply does_ret; auto. }
        2: { intros k e [_ H]. discriminate H. }
        intros k1 s3 _ Hs3 [-> _].
        eapply does_bind;
          [apply does_await, does_updateAgentStatus; assumption | |].
        2: { intros k e [_ H]. discriminate H. }
        intros k1 s4 _ Hs4 [-> _].
        eapply does_bind;
          [apply does_await, does_BaseAgent_run; assumption | |].
        2: { intros k e ->. left. reflexivity. }
        intros k1 s5 result Hs5 ->.
        eapply does_bind;
          [apply does_await, does_recordExecution; assumption | |].
        2: { intros k e ->. left. reflexivity. }
        intros k1 s6 _ Hs6 ->.
        eapply does_bind;
          [apply does_await, does_updateAgentStatus; assumption | |].
        2: { intros k e [_ H]. discriminate H. }
        intros k1 s7 _ Hs7 [-> _].
        eapply does_bind; [apply does_emit, Hs7 | |].
        2: { intros k e [_ H]. discriminate H. }
        intros k1 s8 _ Hs8 [-> _].
        eapply does_bind; [apply does_emit, Hs8 | |].
        2: { intros k e [_ H]. discriminate H. }
        intros k1 s9 _ Hs9 [-> _].
        apply does_ret; [exact Hs9 |]. left. reflexivity.
      * apply does_throw; [exact Hs1 |]. right. auto.
    + intros k e [_ H]. discriminate H.
  - auto.
  - intros k1 s' e Hs' Hpost.
    eapply does_bind; [apply does_emit, Hs' | |].
    2: { intros k e' [_ H]. discriminate H. }
    intros k2 s1 _ Hs1 [-> _].
    eapply does_bind;
      [apply does_await, does_updateAgentStatus; assumption | |].
    2: { intros k e' [_ H]. discriminate H. }
    intros k2 s2 _ Hs2 [-> _].
    apply does_throw; [exact Hs2 |].
    unfold post in *. destruct Hpost as [-> | [-> H]]; [left | right]; auto.
Qed.

(** The operations that add to the registry or to the catalogue. *)

Hypothesis I_with_agents : forall s v, I s -> I (with_agents v s).
Hypothesis I_new_instance : forall s v c u a cfg,
  I s ->
  I (with_agentInstances
       (JsMap.set (agentInstances s) (uuidv4 env (uuids s))
          (new_agent c (uuidv4 env (uuids s)) u a cfg))
       (with_agents v (bump_uuids s))).

Lemma does_createAgentInstance u a cfg s :
  I s -> does (createAgentInstance env u a cfg) s (fun k c => k = 0%Z).
Proof.
  intros Hs. unfold createAgentInstance.
  eapply does_try_catch with (phi1 := fun k c => k = 0%Z).
  - eapply does_bind with (phi1 := fun k c => k = 0%Z).
    + apply performs_gets. auto.
    + intros k1 s1 [agentDef |] Hs1 ->.
      * eapply performs_bind
          with (R1 := fun k s' c =>
                  k = 0%Z /\ s' = bump_uuids s1 /\
                  c = Normal (uuidv4 env (uuids s1))).
        -- eapply performs_done; [reflexivity |].
           split; [unfold ex; simpl; lia | auto].
        -- intros k1 s2 instanceId [-> [-> Hid]]. injection Hid as ->.
           eapply performs_bind
             with (R1 := fun k s' c =>
                     k = 0%Z /\ c = Normal tt /\
                     exists v, s' = with_agents v (bump_uuids s1)).
           ++ apply performs_modify; [reflexivity |]. eauto.
           ++ intros k1 s3 _ [-> [_ [v ->]]].
              eapply does_bind
                with (phi1 := fun k c => k = 0%Z /\ c = Normal tt).
              ** apply does_modify; [reflexivity | | auto].
                 exact (@I_new_instance s1 v _ _ _ _ Hs1).
              ** intros k1 s4 _ Hs4 [-> _].
                 eapply does_bind with (phi1 := fun k c => k = 0%Z).
                 --- apply does_await, does_db_query, Hs4.
                 --- intros k1 s5 _ Hs5 ->.
                     eapply does_bind; [apply does_emit, Hs5 | |].
                     2: { intros k e [-> _]. reflexivity. }
                     intros k1 s6 _ Hs6 [-> _].
                     eapply does_bind; [apply does_emit, Hs6 | |].
                     2: { intros k e [-> _]. reflexivity. }
                     intros k1 s7 _ Hs7 [-> _].
                     apply does_ret; [exact Hs7 | reflexivity].
                 --- auto.
              ** intros k e [-> _]. reflexivity.
           ++ intros k s' e [_ [H _]]. discriminate H.
        -- intros k s' e [_ [_ H]]. discriminate H.
      * apply does_throw; auto.
    + auto.
  - auto.
  - intros k1 s' e Hs' ->.
    eapply does_bind; [apply does_emit, Hs' | |].
    2: { intros k e' [-> _]. reflexivity. }
    intros k1 s1 _ Hs1 [-> _]. apply does_throw; auto.
Qed.

Lemma does_for_each X (body : X -> Async unit) l s :
  I s ->
  (forall s' x, I s' -> does (body x) s' (fun _ _ => True)) ->
  does (for_each l body) s (fun _ _ => True).
Proof.
  intros Hs Hbody. revert s Hs.
  induction l as [| x l IH]; intros s Hs; simpl.
  - apply does_ret; auto.
  - eapply does_bind; [apply Hbody, Hs | |]; simpl; auto.
Qed.

Hypothesis K_all : forall k, K k.

Lemma does_runAutoRunAgents rows s :
  I s -> does (runAutoRunAgents env rows) s (fun _ _ => True).
Proof.
  intros Hs. unfold runAutoRunAgents. apply does_for_each; [exact Hs |].
  intros s' agent Hs'.
  eapply does_bind;
    [apply does_await, does_createAgentInstance, Hs' | | auto].
  intros k1 s1 instanceId Hs1 _.
  eapply does_bind;
    [apply does_await, does_runAgent; [apply K_all | exact Hs1] | | auto].
  intros k2 s2 _ Hs2 _. apply does_ret; auto.
Qed.

Lemma does_schedulerTick s :
  I s -> does (schedulerTick env) s (fun _ _ => True).
Proof.
  intros Hs. unfold schedulerTick.
  eapply does_bind with (phi1 := fun _ _ => True);
    [apply performs_gets; auto | | auto].
  intros k1 s1 running Hs1 _.
  destruct running; simpl; [| apply does_ret; auto].
  eapply does_try_catch with (phi1 := fun _ _ => True); [| auto |].
  - eapply does_bind;
      [apply does_await, does_db_query, Hs1 | | auto].
    intros k2 s2 rows Hs2 _. apply does_runAutoRunAgents. exact Hs2.
  - intros k2 s2 e Hs2 _.
    eapply does_weaken; [apply does_emit, Hs2 | auto].
Qed.

Lemma does_initializeAgents s :
  I s -> does (initializeAgents env) s (fun _ _ => True).
Proof.
  intros Hs. unfold initializeAgents.
  eapply does_try_catch with (phi1 := fun _ _ => True); [| auto |].
  - eapply does_bind;
      [apply does_await, does_db_query, Hs | | auto].
    intros k2 s2 rows Hs2 _. apply does_for_each; [exact Hs2 |].
    intros s' agentDef Hs'.
    destruct (getAgentClass (row_type agentDef));
      [apply does_modify | apply does_ret]; auto.
  - intros k2 s2 e Hs2 _.
    eapply does_weaken; [apply does_emit, Hs2 | auto].
Qed.

End Tasks.

(** ** Lists with one element replaced *)

Lemma length_replace_nth X i (x : X) l :
  length (replace_nth i x l) = length l.
Proof.
  revert i. induction l as [| y l IH]; intros [| i]; simpl; auto.
Qed.

Lemma nth_error_replace_nth_same X i (x : X) l :
  i < length l -> nth_error (replace_nth i x l) i = Some x.
Proof.
  revert i. induction l as [| y l IH]; intros [| i]; simpl; intros H;
    try lia; auto.
  apply IH. lia.
Qed.

Lemma Forall2_replace_nth X Y (P : X -> Y -> Prop) i x y l1 l2 :
  Forall2 P l1 l2 -> P x y ->
  Forall2 P (replace_nth i x l1) (replace_nth i y l2).
Proof.
  intros H Hxy. revert i.
  induction H as [| a b l1 l2 Hab H IH]; intros [| i]; simpl;
    constructor; auto.
Qed.

Lemma Forall2_nth_error X Y (P : X -> Y -> Prop) i x l1 l2 :
  Forall2 P l1 l2 -> nth_error l1 i = Some x ->
  exists y, nth_error l2 i = Some y /\ P x y.
Proof.
  intros H. revert i.
  induction H as [| a b l1 l2 Hab H IH]; intros [| i]; simpl; intros E;
    try discriminate.
  - injection E as ->. eauto.
  - auto.
Qed.

Lemma zsum_app l1 l2 : zsum (l1 ++ l2) = (zsum l1 + zsum l2)%Z.
Proof.
  induction l1 as [| x l1 IH]; cbn [zsum app]; lia.
Qed.

Lemma zsum_replace_nth i n n' l :
  nth_error l i = Some n ->
  zsum (replace_nth i n' l) = (zsum l - n + n')%Z.
Proof.
  revert i. induction l as [| x l IH]; intros [| i]; simpl; intros E;
    try discriminate.
  - injection E as ->. lia.
  - specialize (IH _ E). lia.
Qed.

Lemma zsum_all_one l :
  Forall (fun n => n = 1%Z) l -> zsum l = Z.of_nat (length l).
Proof.
  induction 1 as [| x l Hx H IH]; [reflexivity |].
  subst x. cbn [zsum length]. rewrite Nat2Z.inj_succ. lia.
Qed.

(** ** Concurrent calls of [runAgent] on one instance *)

Section ConcurrentRuns.

Variable env : Env.
Variable this : InstanceId.

Local Notation I := (has_instance this).
Local Notation rely := (keeping (has_instance this)).

Lemma has_instance_modify_instance s k f :
  I s -> I (modify_instance k f s).
Proof.
  unfold has_instance, modify_instance. intros H.
  destruct (JsMap.get (agentInstances s) k) as [i |] eqn:E; [| exact H].
  simpl. destruct (String.eqb_spec k this) as [-> | Hne].
  - rewrite get_set_same. discriminate.
  - rewrite get_set_other by exact Hne. exact H.
Qed.

(** A call of [runAgent] on an instance of the registry invokes the
    execution unit exactly once, whatever the other tasks do meanwhile
    short of removing the instance. *)
Lemma runAgent_invokes_once params s :
  I s ->
  performs I rely (runAgent env this params) s
    (fun k s' c => I s' /\ k = 1%Z).
Proof.
  intros Hs.
  eapply performs_weaken.
  - apply does_runAgent with (K := fun _ => True); auto;
      intros; apply has_instance_modify_instance; assumption.
  - simpl. intros k s' c [Hs' [-> | [_ Hnone]]]; [auto |].
    exfalso. apply Hs. exact Hnone.
Qed.

Lemma settle_ok (r : Res JsResult) s n :
  wp I rely (n - ex s)%Z r (fun n' s' _ => I s' /\ n' = 1%Z) ->
  I (fst (settle r)) /\
  exists n', task_ok this (snd (settle r)) n' /\
             (ex (fst (settle r)) - ex s = n' - n)%Z.
Proof.
  destruct r as [s' c | s' k]; simpl.
  - intros [Hs' Hn]. split; [exact Hs' |].
    exists 1%Z. split; [reflexivity | lia].
  - intros [Hs' Hk]. split; [exact Hs' |].
    exists (n - ex s + ex s')%Z. split; [| lia].
    intros s'' Hs''. apply Hk. exact Hs''.
Qed.

Lemma act_ok base cfg (a : RunAction) :
  pool_ok this base cfg ->
  pool_ok this base
    (act cfg match a with
             | CallRun params => Call (runAgent env this params)
             | ResumeRun i => Resume i
             end).
Proof.
  destruct cfg as [s pool]. intros [Hs [counts [Hall Hsum]]]. cbn [fst snd] in *.
  destruct a as [params | i]; simpl.
  - pose proof (runAgent_invokes_once params Hs) as Hrun.
    assert (Hwp : wp I rely (0 - ex s)%Z (runAgent env this params s)
                    (fun n' s' _ => I s' /\ n' = 1%Z)).
    { apply Hrun. intros k s' c [Hs' ->]. split; [exact Hs' | lia]. }
    apply settle_ok in Hwp. destruct Hwp as [Hs' [n' [Hok Hex]]].
    destruct (settle (runAgent env this params s)) as [s' t]. cbn [fst snd] in *.
    split; [exact Hs' |].
    exists (counts ++ [n']). split.
    + apply Forall2_app; [exact Hall | constructor; [exact Hok | constructor]].
    + cbn [fst snd]. rewrite zsum_app. cbn [zsum]. lia.
  - destruct (nth_error pool i) as [[k | c] |] eqn:E; simpl.
    + destruct (Forall2_nth_error _ Hall E) as [n [En Hok]].
      cbn [task_ok] in Hok. specialize (Hok s Hs).
      apply settle_ok in Hok. destruct Hok as [Hs' [n' [Hok Hex]]].
      destruct (settle (k s)) as [s' t]. cbn [fst snd] in *.
      split; [exact Hs' |].
      exists (replace_nth i n' counts). split.
      * apply Forall2_replace_nth; assumption.
      * cbn [fst snd]. rewrite zsum_replace_nth with (n := n) by exact En. lia.
    + split; [exact Hs | eauto].
    + split; [exact Hs | eauto].
Qed.

Lemma run_schedule_ok base sched cfg :
  pool_ok this base cfg ->
  pool_ok this base (fold_left act (run_actions env this sched) cfg).
Proof.
  revert cfg. induction sched as [| a sched IH]; intros cfg H; simpl.
  - exact H.
  - apply IH. apply act_ok with (a := a). exact H.
Qed.

Lemma length_act_pool cfg (a : RunAction) :
  length (snd (act cfg match a with
                       | CallRun params => Call (runAgent env this params)
                       | ResumeRun i => Resume i
                       end)) =
  length (snd cfg) + (if is_call a then 1 else 0).
Proof.
  destruct cfg as [s pool]. destruct a as [params | i]; simpl.
  - destruct (settle (runAgent env this params s)) as [s' t]. simpl.
    rewrite length_app. reflexivity.
  - destruct (nth_error pool i) as [[k | c] |]; simpl; try lia.
    destruct (settle (k s)) as [s' t]. simpl.
    rewrite length_replace_nth. lia.
Qed.

Lemma length_run_schedule sched cfg :
  length (snd (fold_left act (run_actions env this sched) cfg)) =
  length (snd cfg) + calls sched.
Proof.
  revert cfg. induction sched as [| a sched IH]; intros cfg; simpl.
  - unfold calls. simpl. lia.
  - rewrite IH. rewrite length_act_pool. unfold calls. simpl.
    destruct (is_call a); simpl; lia.
Qed.

Lemma finished_pool_counts pool counts :
  Forall2 (task_ok this) pool counts -> forallb (@finished _) pool = true ->
  Forall (fun n => n = 1%Z) counts.
Proof.
  induction 1 as [| t n pool counts Hok H IH]; simpl; intros Hfin.
  - constructor.
  - apply andb_prop in Hfin. destruct Hfin as [Ht Hfin].
    constructor; [| auto].
    destruct t; [discriminate | exact Hok].
Qed.

End ConcurrentRuns.

(** ** Every pool can be driven to its end *)

Lemma replace_nth_twice X i (x y : X) l :
  replace_nth i x (replace_nth i y l) = replace_nth i x l.
Proof.
  revert i. induction l as [| z l IH]; intros [| i]; simpl; auto.
  f_equal. apply IH.
Qed.

Lemma replace_nth_middle X (x y : X) pre post :
  replace_nth (length pre) x (pre ++ y :: post) = pre ++ x :: post.
Proof.
  induction pre as [| z pre IH]; simpl; [reflexivity |].
  f_equal. exact IH.
Qed.

Lemma nth_error_middle X (y : X) pre post :
  nth_error (pre ++ y :: post) (length pre) = Some y.
Proof.
  induction pre as [| z pre IH]; simpl; auto.
Qed.

(** Resuming one task again and again finishes it. *)
Lemma drive_task A (r : Res A) :
  forall k s pool i,
    nth_error pool i = Some (Running k) -> k s = r ->
    exists m s' c,
      fold_left act (repeat (Resume i) m) (s, pool) =
      (s', replace_nth i (Finished c) pool).
Proof.
  induction r as [s1 c | s1 k1 IH]; intros k s pool i Hi Hk.
  - exists 1, s1, c. simpl. rewrite Hi, Hk. reflexivity.
  - assert (Hlen : i < length pool).
    { apply nth_error_Some. rewrite Hi. discriminate. }
    destruct (IH s1 k1 s1 (replace_nth i (Running k1) pool) i) as [m [s' [c H]]].
    + apply nth_error_replace_nth_same. exact Hlen.
    + reflexivity.
    + exists (S m), s', c. simpl. rewrite Hi, Hk. simpl.
      rewrite H. rewrite replace_nth_twice. reflexivity.
Qed.

Lemma drive_pool A (post : list (Task A)) :
  forall pre s,
    forallb (@finished A) pre = true ->
    exists more s' pool',
      fold_left act (map (@Resume A) more) (s, pre ++ post) = (s', pool') /\
      forallb (@finished A) pool' = true.
Proof.
  induction post as [| t post IH]; intros pre s Hpre.
  - exists [], s, (pre ++ []). simpl. split; [reflexivity |].
    rewrite app_nil_r. exact Hpre.
  - destruct t as [k | c].
    + destruct (@drive_task A (k s) k s (pre ++ Running k :: post)
                  (length pre)) as [m [s1 [c H]]].
      * apply nth_error_middle.
      * reflexivity.
      * rewrite replace_nth_middle in H.
        destruct (IH (pre ++ [Finished c]) s1) as [more [s' [pool' [Hrun Hfin]]]].
        { rewrite forallb_app, Hpre. reflexivity. }
        rewrite <- app_assoc in Hrun. simpl in Hrun.
        exists (repeat (length pre) m ++ more), s', pool'.
        split; [| exact Hfin].
        rewrite map_app, fold_left_app.
        replace (map (@Resume A) (repeat (length pre) m))
          with (repeat (@Resume A (length pre)) m)
          by (clear; induction m; simpl; congruence).
        rewrite H. exact Hrun.
    + destruct (IH (pre ++ [Finished c]) s) as [more [s' [pool' [Hrun Hfin]]]].
      { rewrite forallb_app, Hpre. reflexivity. }
      rewrite <- app_assoc in Hrun. simpl in Hrun.
      exists more, s', pool'. auto.
Qed.

(** C1, as the code has it: [runAgent] makes no status check before it
    sets the status to running.  So when calls of run on one instance
    id of the registry arrive in any number and at any moments,
    interleaved in any way at their awaits, every one of them invokes
    the execution unit: once all calls have completed, there have been
    as many executions as calls.  And the calls under way can always
    be brought to completion. *)
Theorem concurrent_runs_all_execute env this sched s :
  has_instance this s ->
  (forall s' pool,
     run_schedule (run_actions env this sched) s = (s', pool) ->
     forallb (@finished JsResult) pool = true ->
     length pool = calls sched /\
     executions s' = executions s + calls sched) /\
  (exists more,
     forallb (@finished JsResult)
       (snd (run_schedule
               (run_actions env this (sched ++ map ResumeRun more)) s))
     = true).
Proof.
  intros Hs. split.
  - intros s' pool Hrun Hfin.
    assert (Hok : pool_ok this (ex s) (s, [])).
    { split; [exact Hs |]. exists []. split; [constructor | simpl; lia]. }
    apply (run_schedule_ok env sched) in Hok.
    pose proof (length_run_schedule env this sched (s, [])) as Hlen.
    unfold run_schedule in Hrun. rewrite Hrun in Hok, Hlen.
    simpl in Hlen. split; [exact Hlen |].
    destruct Hok as [_ [counts [Hall Hsum]]]. cbn [fst snd] in *.
    pose proof (finished_pool_counts Hall Hfin) as Hone.
    apply zsum_all_one in Hone.
    pose proof (Forall2_length Hall) as Hl.
    unfold ex in Hsum. lia.
  - destruct (run_schedule (run_actions env this sched) s) as [s1 pool1] eqn:E.
    destruct (@drive_pool JsResult pool1 [] s1 eq_refl)
      as [more [s' [pool' [Hrun Hfin]]]].
    exists more.
    assert (Hmore : run_actions env this (sched ++ map ResumeRun more) =
                    run_actions env this sched ++ map (@Resume JsResult) more).
    { unfold run_actions. rewrite map_app, map_map. reflexivity. }
    unfold run_schedule in *. rewrite Hmore, fold_left_app, E.
    simpl in Hrun. rewrite Hrun. exact Hfin.
Qed.

(** Two calls on the sample instance, both run to their end. *)
Lemma concurrent_runs_all_execute_witness :
  has_instance "i" one_agent /\
  executions
    (fst (run_schedule
            (run_actions calm_env "i"
               ([CallRun []; CallRun []]
                ++ map ResumeRun (repeat 0 9 ++ repeat 1 9)))
            one_agent)) = 2.
Proof.
  split; [discriminate |].
  destruct (@concurrent_runs_all_execute calm_env "i"
              ([CallRun []; CallRun []]
               ++ map ResumeRun (repeat 0 9 ++ repeat 1 9))
              one_agent) as [H _]; [discriminate |].
  destruct (run_schedule _ one_agent) as [s' pool] eqn:E.
  destruct (H s' pool eq_refl) as [_ Hex].
  - apply (f_equal snd) in E. simpl in E. rewrite <- E. vm_compute. reflexivity.
  - simpl. exact Hex.
Defined.

(** The counterexample to C1: a second call arrives while the
    first one is suspended in its execution unit, with the status at
    running; it invokes the execution unit as well, and both calls
    return their unit's result. *)
Lemma second_run_executes_too :
  let first := CallRun [] :: map ResumeRun [0; 0; 0] in
  let second := CallRun [] :: map ResumeRun [1; 1; 1] in
  let rest := map ResumeRun [0; 1; 0; 1; 0; 1; 0; 1; 0; 1; 0; 1] in
  let before := run_schedule (run_actions calm_env "i" first) one_agent in
  let during :=
    run_schedule (run_actions calm_env "i" (first ++ second)) one_agent in
  let after :=
    run_schedule (run_actions calm_env "i" (first ++ second ++ rest))
      one_agent in
  (status_of "i" (fst before) = Some "running" /\
   executions (fst before) = 1 /\
   map (@finished _) (snd before) = [false]) /\
  (executions (fst during) = 2 /\
   map (@finished _) (snd during) = [false; false]) /\
  (executions (fst after) = 2 /\
   snd after = [Finished (Normal sample_result);
                Finished (Normal sample_result)]).
Proof. vm_compute. repeat split. Qed.


(** ** The registry at the reachable states *)

Section Registry.

Variable env : Env.

Local Notation I := (registry_ok env).

Lemma registry_ok_frame s s' :
  agentInstances s' = agentInstances s -> uuids s' = uuids s ->
  I s -> I s'.
Proof.
  unfold registry_ok. intros -> ->. auto.
Qed.

Lemma registry_ok_modify_instance s k f :
  (forall i, id (f i) = id i) -> I s -> I (modify_instance k f s).
Proof.
  intros Hid Hs. unfold modify_instance.
  destruct (JsMap.get (agentInstances s) k) as [i |] eqn:E; [| exact Hs].
  destruct Hs as [[Hnd Hkey] Huuid].
  unfold registry_ok, registry_wf. simpl.
  rewrite keys_set_present by congruence.
  repeat split; auto.
  intros k' i' Hin. apply In_set_inv in Hin. destruct Hin as [Heq | Hin].
  - injection Heq as -> ->. rewrite Hid. apply Hkey. apply get_In. exact E.
  - auto.
Qed.

Lemma registry_ok_new_instance s v c u a cfg :
  I s ->
  I (with_agentInstances
       (JsMap.set (agentInstances s) (uuidv4 env (uuids s))
          (new_agent c (uuidv4 env (uuids s)) u a cfg))
       (with_agents v (bump_uuids s))).
Proof.
  intros [[Hnd Hkey] Huuid]. unfold registry_ok, registry_wf. simpl.
  repeat split.
  - apply NoDup_keys_set. exact Hnd.
  - intros k' i' Hin. apply In_set_inv in Hin. destruct Hin as [Heq | Hin].
    + injection Heq as -> ->. reflexivity.
    + auto.
  - intros k' Hin. apply In_keys_set in Hin. destruct Hin as [-> | Hin].
    + exists (uuids s). split; [lia | reflexivity].
    + destruct (Huuid _ Hin) as [j [Hj ->]]. exists j. split; [lia | reflexivity].
Qed.

Lemma registry_ok_exec A (p : Async A) s :
  performs I (keeping I) p s (fun _ s' _ => I s' /\ True) ->
  I (fst (exec p s)).
Proof.
  intros Hp. apply performs_exec in Hp; [apply Hp |].
  intros s0 Hs0. exact Hs0.
Qed.

Lemma registry_ok_constructor : I (constructor env).
Proof.
  assert (H0 : I empty_state).
  { unfold registry_ok, registry_wf. simpl.
    repeat split; [constructor | intros ? ? [] | intros ? []]. }
  assert (Hp : performs I (keeping I) (initializeAgents env) empty_state
                 (fun _ s' _ => I s' /\ True)).
  { apply does_initializeAgents; auto. }
  assert (Hrun : wp I (keeping I) 0%Z (initializeAgents env empty_state)
                   (fun _ s' _ => I s')).
  { apply Hp. intros k s' c [Hs' _]. exact Hs'. }
  unfold constructor.
  destruct (initializeAgents env empty_state) as [s c | s k]; simpl in Hrun.
  - revert Hrun. apply registry_ok_frame; reflexivity.
  - destruct Hrun as [Hs Hk].
    assert (Hs' : I (with_isRunning true s)).
    { revert Hs. apply registry_ok_frame; reflexivity. }
    specialize (Hk _ Hs').
    apply wp_run_seq in Hk; [exact Hk | auto].
Qed.

Lemma registry_ok_op_step op s : I s -> I (op_step env op s).
Proof.
  intros Hs.
  assert (Hst : forall s k st, True -> I s ->
                  I (modify_instance k (with_status st) s))
    by (intros s0 k st _; apply registry_ok_modify_instance; reflexivity).
  assert (Hmt : forall s k g, True -> I s ->
                  I (modify_instance k (fun i => with_metrics (g i) i) s))
    by (intros s0 k g _; apply registry_ok_modify_instance; reflexivity).
  destruct op as [u a cfg | k params | k | k st |]; simpl;
    apply registry_ok_exec.
  - eapply performs_weaken;
      [apply does_createAgentInstance with (I := I); auto |].
    + apply registry_ok_new_instance.
    + simpl. tauto.
  - eapply performs_weaken;
      [apply does_runAgent with (I := I) (K := fun _ => True); auto |].
    simpl. tauto.
  - eapply performs_weaken;
      [apply does_pauseAgent with (I := I); auto |].
    simpl. tauto.
  - eapply performs_weaken;
      [apply does_updateAgentStatus with (I := I) (K := fun _ => True); auto |].
    simpl. tauto.
  - eapply performs_weaken;
      [apply does_schedulerTick with (I := I) (K := fun _ => True); auto |].
    + apply registry_ok_new_instance.
    + simpl. tauto.
Qed.

Lemma reachable_registry_ok s : reachable env s -> I s.
Proof.
  induction 1 as [| s op H IH].
  - apply registry_ok_constructor.
  - apply registry_ok_op_step. exact IH.
Qed.

End Registry.

Lemma map_id_values (registry : JsMap.t Instance) :
  (forall k i, In (k, i) registry -> id i = k) ->
  map id (JsMap.values registry) = JsMap.keys registry.
Proof.
  unfold JsMap.values, JsMap.keys.
  induction registry as [| [k i] m IH]; simpl; intros H; [reflexivity |].
  f_equal.
  - apply H. left. reflexivity.
  - apply IH. intros k' i' Hin. apply H. right. exact Hin.
Qed.

(** C2, as the code has it: at every reachable state the registry
    holds at most one instance per instance id.  (It may hold several
    for one pair of user id and unit-type.) *)
Theorem registry_one_instance_per_id env s :
  reachable env s ->
  NoDup (map id (JsMap.values (agentInstances s))).
Proof.
  intros H. apply reachable_registry_ok in H.
  destruct H as [[Hnd Hkey] _].
  rewrite map_id_values by exact Hkey. exact Hnd.
Qed.

(** The counterexample to C2: two ticks of the scheduler, each
    finding the same row selected for auto-run, leave two instances
    for the one pair of user and unit-type. *)
Lemma two_ticks_two_instances :
  let s := op_step calm_env OpTick (op_step calm_env OpTick started) in
  reachable calm_env s /\ instances_of "u1" "mail-summarizer" s = 2.
Proof.
  split.
  - apply reachable_step. apply reachable_step.
    exact (reachable_constructor calm_env).
  - vm_compute. reflexivity.
Qed.

Lemma registry_one_instance_per_id_witness :
  let s := op_step calm_env OpTick (op_step calm_env OpTick started) in
  reachable calm_env s /\
  NoDup (map id (JsMap.values (agentInstances s))).
Proof.
  assert (H : reachable calm_env
                (op_step calm_env OpTick (op_step calm_env OpTick started))).
  { apply reachable_step. apply reachable_step.
    exact (reachable_constructor calm_env). }
  split; [exact H |].
  exact (registry_one_instance_per_id H).
Defined.


(** C4, as the code has it: [createAgentInstance] makes no check for
    an existing instance of the pair (user id, unit-type) and never
    fails with AlreadyExists.  For a registered unit-type it always
    adds a new instance under a new id and leaves the instances
    already there as they are; its only failure is the database's
    error on the upsert, raised after the instance was added. *)
Theorem createAgentInstance_always_adds env s u a cfg entry :
  (forall i j, uuidv4 env i = uuidv4 env j -> i = j) ->
  reachable env s ->
  JsMap.get (agents s) a = Some entry ->
  let instanceId := uuidv4 env (uuids s) in
  let s' := fst (exec (createAgentInstance env u a cfg) s) in
  let c := snd (exec (createAgentInstance env u a cfg) s) in
  JsMap.get (agentInstances s) instanceId = None /\
  agentInstances s' =
    agentInstances s ++
    [(instanceId,
      new_agent (agent_class entry) instanceId u a
        (spread (row_configuration (definition entry)) cfg))] /\
  instances_of u a s' = S (instances_of u a s) /\
  (c = Normal instanceId \/
   exists e, c = Throw e /\
             db_reply env (length (queries s)) (UpsertUserAgent u a cfg)
             = DbError e).
Proof.
  intros Hinj Hreach Hentry instanceId s' c.
  assert (Hfresh : JsMap.get (agentInstances s) instanceId = None).
  { apply reachable_registry_ok in Hreach.
    destruct Hreach as [_ Huuid].
    apply get_None_keys. intros Hin.
    destruct (Huuid _ Hin) as [j [Hj Heq]].
    apply Hinj in Heq. lia. }
  assert (Hrun :
    agentInstances s' =
      JsMap.set (agentInstances s) instanceId
        (new_agent (agent_class entry) instanceId u a
           (spread (row_configuration (definition entry)) cfg)) /\
    (c = Normal instanceId \/
     exists e, c = Throw e /\
               db_reply env (length (queries s)) (UpsertUserAgent u a cfg)
               = DbError e)).
  { subst s' c.
    unfold exec, createAgentInstance, try_catch, bind, gets, await, db_query.
    simpl. rewrite Hentry. simpl.
    destruct (db_reply env (length (queries s)) (UpsertUserAgent u a cfg))
      as [rows | e] eqn:E; simpl.
    - split; [reflexivity | left; reflexivity].
    - split; [reflexivity | right; exists e; auto]. }
  destruct Hrun as [Hreg Hc].
  rewrite set_absent in Hreg by exact Hfresh.
  repeat split; auto.
  unfold instances_of. rewrite Hreg. unfold JsMap.values.
  rewrite map_app, filter_app, length_app. simpl.
  rewrite !String.eqb_refl. simpl. lia.
Qed.

Lemma sample_uuid_length n : String.length (sample_uuid n) = S n.
Proof.
  induction n as [| n IH]; simpl; [reflexivity |]. rewrite IH. reflexivity.
Qed.

Lemma sample_uuid_injective i j : sample_uuid i = sample_uuid j -> i = j.
Proof.
  intros H. apply (f_equal String.length) in H.
  rewrite !sample_uuid_length in H. lia.
Qed.

(** The counterexample to C4: user u1 has a mail-summarizer instance,
    and creating one more for the same pair succeeds, with a new id. *)
Lemma second_create_succeeds :
  instances_of "u1" "mail-summarizer" one_agent = 1 /\
  JsMap.keys (agentInstances one_agent) = ["i"] /\
  let r := exec (createAgentInstance calm_env "u1" "mail-summarizer" [])
             one_agent in
  snd r = Normal "xi" /\
  JsMap.keys (agentInstances (fst r)) = ["i"; "xi"] /\
  instances_of "u1" "mail-summarizer" (fst r) = 2.
Proof. vm_compute. repeat split. Qed.

Lemma createAgentInstance_always_adds_witness :
  let r := exec (createAgentInstance calm_env "u1" "mail-summarizer" [])
             one_agent in
  reachable calm_env one_agent /\
  JsMap.get (agents one_agent) "mail-summarizer" <> None /\
  instances_of "u1" "mail-summarizer" (fst r) =
  S (instances_of "u1" "mail-summarizer" one_agent).
Proof.
  assert (H : reachable calm_env one_agent).
  { exact (reachable_step (OpCreate "u1" "mail-summarizer" [])
             (reachable_constructor calm_env)). }
  split; [exact H |]. split; [discriminate |].
  destruct (@createAgentInstance_always_adds calm_env one_agent
              "u1" "mail-summarizer" [] _ sample_uuid_injective H eq_refl)
    as [_ [_ [Hn _]]].
  exact Hn.
Defined.


(** ** Conflict detection *)

Lemma fold_left_push X Y (P : X -> bool) (g : X -> Y) (l : list X) acc :
  fold_left (fun found x => if P x then found ++ [g x] else found) l acc =
  acc ++ map g (filter P l).
Proof.
  revert acc. induction l as [| x l IH]; intros acc; simpl.
  - rewrite app_nil_r. reflexivity.
  - rewrite IH. destruct (P x); simpl; [| reflexivity].
    rewrite <- app_assoc. reflexivity.
Qed.

Lemma fold_left_entries X Y Z (f : Z -> Y -> Z) (l : list (X * Y)) acc :
  fold_left (fun a entry => f a (snd entry)) l acc =
  fold_left f (map snd l) acc.
Proof.
  revert acc. induction l as [| e l IH]; intros acc; simpl; auto.
Qed.

(** What the loop of [checkConflicts] collects: it goes through every
    entry of the registry, the candidate's own included. *)
Lemma checkConflicts_scan instance s :
  checkConflicts instance s =
  Done s (Normal
    (map (fun other => {| conflict_type := "agent-conflict";
                          instance1 := instance;
                          instance2 := other;
                          severity := "medium" |})
       (filter (fun other =>
                  String.eqb (userId other) (userId instance)
                  && String.eqb (status other) "running"
                  && includes (conflict_set (agentId instance))
                       (agentId other))
          (JsMap.values (agentInstances s))))).
Proof.
  unfold checkConflicts, conflict_set.
  destruct (JsMap.get coordinationRules (agentId instance)) as [rules |].
  - unfold bind, gets, ret. simpl. do 2 f_equal.
    rewrite (fold_left_entries
               (fun found other =>
                  if (String.eqb (userId other) (userId instance)
                      && String.eqb (status other) "running"
                      && includes (conflicts rules) (agentId other))%bool
                  then found ++ [{| conflict_type := "agent-conflict";
                                    instance1 := instance;
                                    instance2 := other;
                                    severity := "medium" |}]
                  else found)).
    rewrite fold_left_push. reflexivity.
  - unfold ret. do 2 f_equal.
    induction (JsMap.values (agentInstances s)) as [| o l IH]; simpl;
      [reflexivity |].
    rewrite andb_false_r. exact IH.
Qed.

(** The conflict sets of the rule table, unit-type by unit-type. *)
Lemma conflict_set_cases unitType :
  (unitType = "meeting-agent" /\ conflict_set unitType = ["task-router"]) \/
  (unitType = "task-router" /\ conflict_set unitType = ["meeting-agent"]) \/
  (unitType <> "meeting-agent" /\ unitType <> "task-router" /\
   conflict_set unitType = []).
Proof.
  unfold conflict_set, coordinationRules. cbn [JsMap.get].
  destruct (String.eqb_spec "meeting-agent" unitType) as [<- | H1];
    [left; split; reflexivity |].
  destruct (String.eqb_spec "mail-summarizer" unitType) as [<- | H2];
    [right; right; repeat split; discriminate |].
  destruct (String.eqb_spec "report-generator" unitType) as [<- | H3];
    [right; right; repeat split; discriminate |].
  destruct (String.eqb_spec "task-router" unitType) as [<- | H4];
    [right; left; split; reflexivity |].
  right; right. repeat split; congruence.
Qed.

(** No unit-type of the rule table conflicts with itself. *)
Lemma no_self_conflict unitType :
  includes (conflict_set unitType) unitType = false.
Proof.
  destruct (conflict_set_cases unitType)
    as [[-> ->] | [[-> ->] | [_ [_ ->]]]]; reflexivity.
Qed.

(** The rule table's conflicts go both ways. *)
Lemma conflict_set_symmetric x y :
  includes (conflict_set x) y = includes (conflict_set y) x.
Proof.
  destruct (conflict_set_cases x) as [[-> ->] | [[-> ->] | [Hx1 [Hx2 ->]]]];
  destruct (conflict_set_cases y) as [[-> ->] | [[-> ->] | [Hy1 [Hy2 ->]]]];
    try reflexivity; cbn [includes]; rewrite orb_false_r.
  - apply String.eqb_neq. congruence.
  - apply String.eqb_neq. congruence.
  - symmetry. apply String.eqb_neq. congruence.
  - symmetry. apply String.eqb_neq. congruence.
Qed.

(** C7: [checkConflicts] returns one record of type agent-conflict and
    severity medium for each other instance of the registry that
    belongs to the candidate's user, is running, and has its unit-type
    in the candidate's conflict set, and nothing else; in particular
    nothing when the rule table has no entry for the candidate's
    unit-type.  It does so at once and leaves the state as it is. *)
Theorem checkConflicts_finds_the_conflicts s instanceId candidate :
  registry_wf (agentInstances s) ->
  JsMap.get (agentInstances s) instanceId = Some candidate ->
  checkConflicts candidate s =
    Done s (Normal (findConflicts (agentInstances s) candidate)) /\
  (JsMap.get coordinationRules (agentId candidate) = None ->
   findConflicts (agentInstances s) candidate = []).
Proof.
  intros [Hnd Hkey] Hget. split.
  - rewrite checkConflicts_scan. unfold findConflicts. do 3 f_equal.
    apply filter_ext_in. intros other Hin.
    destruct (String.eqb_spec (id other) (id candidate)) as [Heq | Hne];
      [| reflexivity].
    simpl.
    assert (Hother : other = candidate).
    { unfold JsMap.values in Hin. apply in_map_iff in Hin.
      destruct Hin as [[k o] [Ho Hin]]. simpl in Ho. subst o.
      pose proof (Hkey _ _ Hin) as Hk.
      pose proof (Hkey _ _ (get_In _ _ Hget)) as Hc.
      apply In_get in Hin; [| exact Hnd].
      assert (k = instanceId) by congruence. subst k.
      congruence. }
    subst other. rewrite no_self_conflict. apply andb_false_r.
  - intros Hnone. unfold findConflicts, conflict_set. rewrite Hnone.
    simpl.
    induction (JsMap.values (agentInstances s)) as [| o l IH]; simpl;
      [reflexivity |].
    rewrite andb_false_r. exact IH.
Qed.

Lemma router_running_wf : registry_wf (agentInstances router_running).
Proof.
  split.
  - simpl. repeat constructor; simpl; intuition discriminate.
  - simpl. intros k i [H | [H | []]]; injection H as <- <-; reflexivity.
Qed.

(** The meeting-agent instance of the sample as candidate, while the
    task-router instance of the same user is running: one record. *)
Lemma checkConflicts_finds_the_conflicts_witness :
  exists candidate other,
    JsMap.get (agentInstances router_running) "xi" = Some candidate /\
    JsMap.get (agentInstances router_running) "i" = Some other /\
    checkConflicts candidate router_running =
      Done router_running
        (Normal [{| conflict_type := "agent-conflict";
                    instance1 := candidate;
                    instance2 := other;
                    severity := "medium" |}]).
Proof.
  eexists. eexists. split; [reflexivity |]. split; [reflexivity |].
  destruct (@checkConflicts_finds_the_conflicts router_running "xi" _
              router_running_wf eq_refl) as [H _].
  rewrite H. reflexivity.
Defined.


(** ** The status update *)

(** C10: on an instance id that is not in the registry,
    [updateAgentStatus] returns at once and normally, with the state
    (registry, queries sent, events emitted) as it was. *)
Theorem updateAgentStatus_unknown_is_noop env s instanceId st :
  JsMap.get (agentInstances s) instanceId = None ->
  updateAgentStatus env instanceId st s = Done s (Normal tt).
Proof.
  intros H.
  unfold updateAgentStatus, try_catch, bind, lookup_instance, gets.
  simpl. rewrite H. reflexivity.
Qed.

Lemma updateAgentStatus_unknown_is_noop_witness :
  JsMap.get (agentInstances one_agent) "nobody" = None /\
  exec (updateAgentStatus calm_env "nobody" "running") one_agent =
  (one_agent, Normal tt).
Proof.
  split; [reflexivity |].
  unfold exec.
  rewrite (@updateAgentStatus_unknown_is_noop calm_env one_agent "nobody"
             "running" eq_refl).
  reflexivity.
Defined.

(** ** The performance records *)

(** C9: [getAgentPerformance] answers with the same fixed record for
    every user id and in every state, whatever has been recorded, and
    changes nothing. *)
Theorem getAgentPerformance_is_constant s userId :
  exec (getAgentPerformance userId) s =
  (s, Normal {| totalAgents := 4;
                activeAgents := 3;
                averagePerformance := 0.92;
                up_totalExecutions := 156;
                up_successRate := 0.94 |}).
Proof. reflexivity. Qed.

Lemma set_replaces_last V (m : JsMap.t V) k v v' :
  JsMap.get m k = None ->
  JsMap.set (m ++ [(k, v)]) k v' = m ++ [(k, v')].
Proof.
  induction m as [| [k0 v0] m IH]; simpl; intros H.
  - rewrite String.eqb_refl. reflexivity.
  - destruct (String.eqb k0 k); [discriminate |].
    f_equal. apply IH. exact H.
Qed.

(** C8: starting from no recorded run, after one successful and one
    failed execution, in either order, [successRate] is 0.5 and
    [totalRuns] is 2.  The record keeps the running means and no
    history: [updateMetrics] computes the new count and the new means
    from the old ones and the one sample, as (old * (n - 1) + sample)
    / n, and at both steps of the two runs that value is the one of
    the specification's incremental mean.  The tracker's
    [recordExecution] keeps running totals in the same way: after one
    result without and one with an error, in either order, its entry
    for the instance counts 2 executions and 1 success. *)
Theorem updateMetrics_one_success_one_failure m first second t1 t2 d1 d2 :
  totalRuns m = 0%float -> successRate m = 0%float ->
  first = negb second ->
  let m1 := updateMetrics m first t1 d1 in
  let m2 := updateMetrics m1 second t2 d2 in
  (successRate m2 = 0.5%float /\ totalRuns m2 = 2%float) /\
  (totalRuns m1 = 1%float /\
   successRate m1 =
     spec_incremental_mean (successRate m) (success_sample first)
       (totalRuns m1) /\
   successRate m2 =
     spec_incremental_mean (successRate m1) (success_sample second)
       (totalRuns m2)) /\
  (forall (m0 : Metrics) success t d,
     let n := (totalRuns m0 + 1)%float in
     updateMetrics m0 success t d =
     {| totalRuns := n;
        successRate :=
          ((successRate m0 * (n - 1) + success_sample success) / n)%float;
        averageExecutionTime :=
          ((averageExecutionTime m0 * (n - 1) + t) / n)%float;
        lastRun := Some d |}) /\
  (forall env k r1 r2 s,
     JsMap.get (performanceTracker s) k = None ->
     error r1 = negb (error r2) ->
     let s1 :=
       fst (exec (PerformanceTracker_recordExecution env k (Some r1)) s) in
     let s2 :=
       fst (exec (PerformanceTracker_recordExecution env k (Some r2)) s1) in
     exists entry,
       performanceTracker s2 = performanceTracker s ++ [(k, entry)] /\
       totalExecutions entry = 2%float /\
       successfulExecutions entry = 1%float).
Proof.
  intros Hruns Hrate Hord m1 m2. subst first m1 m2.
  split; [| split; [| split]].
  - unfold updateMetrics. simpl. rewrite Hruns, Hrate.
    destruct second; split; reflexivity.
  - unfold updateMetrics, spec_incremental_mean, success_sample. simpl.
    rewrite Hruns, Hrate. destruct second; repeat split; reflexivity.
  - intros m0 success t d. reflexivity.
  - intros env k r1 r2 s Hnone Herr.
    unfold exec, PerformanceTracker_recordExecution, bind, gets, now, modify.
    simpl. rewrite Hnone. simpl.
    rewrite get_set_same. simpl.
    rewrite (set_absent _ _ _ Hnone).
    rewrite set_replaces_last by exact Hnone.
    eexists. split; [reflexivity |]. simpl. rewrite Herr.
    destruct (error r2); split; reflexivity.
Qed.

Lemma updateMetrics_one_success_one_failure_witness :
  let m := metrics (new_agent MailSummarizerAgent "i" "u1"
                      "mail-summarizer" []) in
  successRate (updateMetrics (updateMetrics m true 12 0) false 7 0)
    = 0.5%float /\
  totalRuns (updateMetrics (updateMetrics m true 12 0) false 7 0)
    = 2%float.
Proof.
  exact (proj1 (@updateMetrics_one_success_one_failure
                  (metrics (new_agent MailSummarizerAgent "i" "u1"
                              "mail-summarizer" []))
                  true false
                  12%float 7%float 0%float 0%float eq_refl eq_refl eq_refl)).
Defined.

(** ** The scheduler tick *)

Lemma exec_gets A (f : State -> A) s : exec (gets f) s = (s, Normal (f s)).
Proof. reflexivity. Qed.

Lemma exec_db_query env q s :
  exec (db_query env q) s =
  (push_query q s,
   match db_reply env (length (queries s)) q with
   | DbRows rows => Normal rows
   | DbError e => Throw e
   end).
Proof.
  unfold exec, db_query.
  destruct (db_reply env (length (queries s)) q); reflexivity.
Qed.

Lemma exec_schedulerTick env s rows :
  isRunning s = true ->
  db_reply env (length (queries s)) SelectAutoRunAgents = DbRows rows ->
  exec (schedulerTick env) s =
  match snd (exec (runAutoRunAgents env rows)
               (push_query SelectAutoRunAgents s)) with
  | Normal _ =>
      (fst (exec (runAutoRunAgents env rows)
              (push_query SelectAutoRunAgents s)), Normal tt)
  | Throw e =>
      (push_event {| ev_channel := Console; ev_name := "Scheduler error:";
                     ev_payload := [("error", PStr e)] |}
         (fst (exec (runAutoRunAgents env rows)
                 (push_query SelectAutoRunAgents s))), Normal tt)
  end.
Proof.
  intros Hrun Hrows. unfold schedulerTick.
  rewrite exec_bind, exec_gets. cbn [fst snd]. rewrite Hrun. cbn [negb].
  rewrite exec_try_catch, exec_bind, exec_await, exec_db_query.
  cbn [fst snd]. rewrite Hrows.
  destruct (snd (exec (runAutoRunAgents env rows)
                   (push_query SelectAutoRunAgents s))) as [[] | e];
    reflexivity.
Qed.

(** The scheduler's callback never throws: whatever the database
    answers and whatever the instances do, a tick ends normally;
    every error of the tick ends in the callback's own catch. *)
Lemma schedulerTick_returns env s :
  snd (exec (schedulerTick env) s) = Normal tt.
Proof.
  unfold schedulerTick. rewrite exec_bind, exec_gets. cbn [fst snd].
  destruct (isRunning s); cbn [negb]; [| reflexivity].
  rewrite exec_try_catch.
  match goal with
  | |- snd match snd ?r with _ => _ end = _ =>
      destruct (snd r) as [[] | e]; reflexivity
  end.
Qed.

(** C6, as the code has it: the one try/catch of the tick is around
    the whole loop.  An error from an instance's creation or run is
    caught and logged there, and the tick completes normally; but it
    ends the loop: the tick stops at the first row that fails, and
    the rows after it are not looked at in that tick. *)
Theorem tick_stops_at_first_failure env s rows1 row rows2 s1 e :
  isRunning s = true ->
  db_reply env (length (queries s)) SelectAutoRunAgents =
    DbRows (rows1 ++ row :: rows2) ->
  exec (runAutoRunAgents env (rows1 ++ [row]))
    (push_query SelectAutoRunAgents s) = (s1, Throw e) ->
  exec (schedulerTick env) s =
  (push_event {| ev_channel := Console; ev_name := "Scheduler error:";
                 ev_payload := [("error", PStr e)] |} s1,
   Normal tt).
Proof.
  intros Hrun Hrows Hfail.
  rewrite (exec_schedulerTick env s Hrun Hrows).
  assert (H : exec (runAutoRunAgents env (rows1 ++ row :: rows2))
                (push_query SelectAutoRunAgents s) = (s1, Throw e)).
  { replace (rows1 ++ row :: rows2) with ((rows1 ++ [row]) ++ rows2)
      by (rewrite <- app_assoc; reflexivity).
    unfold runAutoRunAgents in *. rewrite exec_for_each_app.
    rewrite Hfail. reflexivity. }
  rewrite H. reflexivity.
Qed.

(** The counterexample to C6: two rows are selected and the run of the
    first one's instance fails; the tick ends there, and no instance
    is created or run for the second row. *)
Lemma failed_run_ends_the_tick :
  db_reply failing_env (length (queries started)) SelectAutoRunAgents =
    DbRows [sample_row "u1" "mail-summarizer";
            sample_row "u2" "mail-summarizer"] /\
  let r := exec (schedulerTick failing_env) started in
  snd r = Normal tt /\
  status_of "i" (fst r) = Some "error" /\
  instances_of "u1" "mail-summarizer" (fst r) = 1 /\
  instances_of "u2" "mail-summarizer" (fst r) = 0 /\
  executions (fst r) = 1.
Proof. vm_compute. repeat split. Qed.

Lemma tick_stops_at_first_failure_witness :
  exists s1,
    exec (runAutoRunAgents failing_env [sample_row "u1" "mail-summarizer"])
      (push_query SelectAutoRunAgents started) = (s1, Throw "boom") /\
    exec (schedulerTick failing_env) started =
    (push_event {| ev_channel := Console; ev_name := "Scheduler error:";
                   ev_payload := [("error", PStr "boom")] |} s1,
     Normal tt).
Proof.
  eexists. split.
  - vm_compute. reflexivity.
  - apply (@tick_stops_at_first_failure failing_env started []
             (sample_row "u1" "mail-summarizer")
             [sample_row "u2" "mail-summarizer"]).
    + reflexivity.
    + reflexivity.
    + vm_compute. reflexivity.
Defined.

(** ** Conflict resolution *)

(** A run of one instance does not touch the agent object of any
    other instance. *)
Lemma runAgent_leaves_others env s idA idB a params :
  idA <> idB ->
  JsMap.get (agentInstances s) idA = Some a ->
  JsMap.get (agentInstances (fst (exec (runAgent env idB params) s))) idA
  = Some a.
Proof.
  intros Hne Ha.
  pose (I := fun s0 : State => JsMap.get (agentInstances s0) idA = Some a).
  assert (Hp : performs I (keeping I) (runAgent env idB params) s
                 (fun _ s' _ => I s' /\ True)).
  { eapply performs_weaken.
    - assert (Hmod : forall s0 k f, k <> idA -> I s0 ->
                       I (modify_instance k f s0)).
      { intros s0 k f Hk H0. unfold I, modify_instance in *.
        destruct (JsMap.get (agentInstances s0) k); [| exact H0].
        simpl. rewrite get_set_other by exact Hk. exact H0. }
      apply does_runAgent with (I := I) (K := fun k => k <> idA); auto.
    - simpl. tauto. }
  apply performs_exec in Hp; [apply Hp | auto].
Qed.

(** C3 on the code: instance A is running, the rule table has A's
    unit-type in conflict with B's, and run is invoked on B, of the
    same user.  The conflict is detected and resolved to pausing A,
    but [pauseAgent] does nothing, no agent class having a [pause]
    method: after B's run A's status is still running, not paused. *)
Theorem conflicting_run_does_not_pause env s idA idB a b params :
  JsMap.get (agentInstances s) idA = Some a ->
  status a = "running" ->
  JsMap.get (agentInstances s) idB = Some b ->
  idA <> idB ->
  userId a = userId b ->
  includes (conflict_set (agentId a)) (agentId b) = true ->
  let conflict := {| conflict_type := "agent-conflict"; instance1 := b;
                     instance2 := a; severity := "medium" |} in
  (exists found, checkConflicts b s = Done s (Normal found) /\
                 In conflict found) /\
  ConflictResolver_resolve conflict s =
    Done s (Normal {| action := "pause"; target := Some (id a) |}) /\
  pauseAgent env (id a) s = Done s (Normal tt) /\
  status_of idA (fst (exec (runAgent env idB params) s)) = Some "running".
Proof.
  intros Ha Hrun Hb Hne Huser Hrule conflict. repeat split.
  - eexists. split; [apply checkConflicts_scan |].
    apply in_map_iff. exists a. split; [reflexivity |].
    apply filter_In. split.
    + apply get_In in Ha. apply (in_map snd) in Ha. exact Ha.
    + rewrite Huser, Hrun, String.eqb_refl.
      rewrite conflict_set_symmetric, Hrule. reflexivity.
  - apply pauseAgent_done.
  - unfold status_of.
    rewrite (runAgent_leaves_others env s params Hne Ha).
    simpl. rewrite Hrun. reflexivity.
Qed.

Lemma conflicting_run_does_not_pause_witness :
  status_of "i" router_running = Some "running" /\
  status_of "i" (fst (exec (runAgent calm_env "xi" []) router_running))
  = Some "running".
Proof.
  split; [reflexivity |].
  refine (proj2 (proj2 (proj2
    (@conflicting_run_does_not_pause calm_env router_running "i" "xi"
       _ _ [] eq_refl eq_refl eq_refl _ eq_refl eq_refl)))).
  discriminate.
Defined.

(** ** A failing run, step by step

    The run is followed alone: nothing is owed at an [await] and the
    state comes back as it was left. *)

Lemma wp_owing_less A (I I' : State -> Prop) rely d (r : Res A) Q :
  (forall s, I s -> I' s) -> wp I rely d r Q -> wp I' rely d r Q.
Proof.
  intros HI. revert d.
  induction r as [s c | s k IH]; intros d H; simpl in *.
  - exact H.
  - destruct H as [Hs Hk]. split; auto.
Qed.

Section Alone.

Variable env : Env.

Local Notation alone p s R :=
  (performs (fun _ => True) eq p s (fun _ s' c => R s' c)).

Lemma alone_exec A (p : Async A) s (R : State -> Completion A -> Prop) :
  alone p s R -> R (fst (exec p s)) (snd (exec p s)).
Proof.
  intros Hp. apply performs_exec in Hp; auto.
Qed.

Lemma alone_done A (p : Async A) s s' c
    (R : State -> Completion A -> Prop) :
  p s = Done s' c -> R s' c -> alone p s R.
Proof.
  intros Hp HR. eapply performs_done; [exact Hp | exact HR].
Qed.

Lemma alone_bind A B (p : Async A) (f : A -> Async B) s
    (R1 : State -> Completion A -> Prop)
    (R : State -> Completion B -> Prop) :
  alone p s R1 ->
  (forall s' a, R1 s' (Normal a) -> alone (f a) s' R) ->
  (forall s' e, R1 s' (Throw e) -> R s' (Throw e)) ->
  alone (bind p f) s R.
Proof.
  intros Hp Hf He. eapply performs_bind; [exact Hp | |]; simpl; auto.
Qed.

Lemma alone_try_catch A (p : Async A) (h : Error -> Async A) s
    (R1 R : State -> Completion A -> Prop) :
  alone p s R1 ->
  (forall s' a, R1 s' (Normal a) -> R s' (Normal a)) ->
  (forall s' e, R1 s' (Throw e) -> alone (h e) s' R) ->
  alone (try_catch p h) s R.
Proof.
  intros Hp Hn Hh. eapply performs_try_catch; [exact Hp | |]; simpl; auto.
Qed.

Lemma alone_await A (p : Async A) s (R : State -> Completion A -> Prop) :
  alone p s R -> alone (await p) s R.
Proof.
  intros Hp. apply performs_await.
  eapply performs_weaken; [exact Hp |]. simpl.
  intros _ s' c HR. split; [exact Logic.I |]. intros s'' <-. exact HR.
Qed.

(** A step that keeps an invariant [P] of the lone run, by the lemmas
    on tasks. *)
Lemma alone_of_does A (p : Async A) s (P : State -> Prop)
    (phi : Z -> Completion A -> Prop) :
  performs P eq p s (fun k s' c => P s' /\ phi k c) ->
  alone p s (fun s' c => P s' /\ exists k, phi k c).
Proof.
  intros Hp d Q HQ.
  apply wp_owing_less with (I := P); [auto |].
  apply Hp. intros k s' c [Hs' Hk]. apply HQ. eauto.
Qed.

Lemma untracked_modify_instance this T s k f :
  untracked this T s -> untracked this T (modify_instance k f s).
Proof.
  intros [Ht Hi]. unfold untracked. split.
  - unfold modify_instance.
    destruct (JsMap.get (agentInstances s) k); exact Ht.
  - apply has_instance_modify_instance. exact Hi.
Qed.

Lemma status_of_modify_instance this st s :
  has_instance this s ->
  status_of this (modify_instance this (with_status st) s) = Some st.
Proof.
  unfold has_instance, status_of, modify_instance. intros H.
  destruct (JsMap.get (agentInstances s) this) as [i |]; [| congruence].
  simpl. rewrite get_set_same. reflexivity.
Qed.

(** [updateAgentStatus] on an instance of the registry, run alone. *)
Lemma alone_updateAgentStatus this st T s :
  untracked this T s ->
  alone (updateAgentStatus env this st) s
    (fun s' c => c = Normal tt /\ untracked this T s' /\
                 status_of this s' = Some st).
Proof.
  intros [Ht Hi].
  pose (R := fun (A : Type) (s' : State) (c : Completion A) =>
               untracked this T s' /\ status_of this s' = Some st).
  unfold updateAgentStatus, lookup_instance.
  eapply alone_try_catch with (R1 := @R unit).
  - eapply alone_bind
      with (R1 := fun s' c => s' = s /\
                    c = Normal (JsMap.get (agentInstances s) this)).
    + eapply alone_done; [reflexivity | auto].
    + intros s' found [-> Hfound]. injection Hfound as ->.
      destruct (JsMap.get (agentInstances s) this) as [instance |] eqn:E;
        [| exfalso; apply Hi; exact E].
      eapply alone_bind with (R1 := fun s' c => R unit s' c /\ c = Normal tt).
      * eapply alone_done; [reflexivity |]. split; [| reflexivity].
        split.
        -- apply untracked_modify_instance. split; assumption.
        -- apply status_of_modify_instance. exact Hi.
      * intros s1 _ [[Hu Hst] _].
        eapply alone_bind with (R1 := @R (list DbRow)).
        -- apply alone_await.
           destruct (db_reply env (length (queries s1))
                       (UpdateUserAgentStatus st (userId instance)
                          (agentId instance))) eqn:Ereply.
           ++ eapply alone_done;
                [unfold db_query; rewrite Ereply; reflexivity |].
              split; assumption.
           ++ eapply alone_done;
                [unfold db_query; rewrite Ereply; reflexivity |].
              split; assumption.
        -- intros s2 _ [Hu2 Hst2].
           eapply alone_done; [reflexivity |]. split; assumption.
        -- auto.
      * intros s' e [_ H]. discriminate H.
    + intros s' e [_ H]. discriminate H.
  - intros s' [] [Hu Hst]. auto.
  - intros s' e [Hu Hst].
    eapply alone_done; [reflexivity |]. auto.
Qed.

(** [BaseAgent.run] when the execution unit throws. *)
Lemma alone_BaseAgent_run_failing this params T s e :
  untracked this T s ->
  execute_reply env (executions s) this params = Throws e ->
  alone (BaseAgent_run env this params) s
    (fun s' c => c = Throw e /\ untracked this T s').
Proof.
  intros Hu Hfail. unfold BaseAgent_run.
  pose (R := fun (s' : State) (c : Completion JsResult) =>
               c = Throw e /\ untracked this T s').
  eapply alone_bind
    with (R1 := fun s' c => s' = bump_clock s /\ exists t, c = Normal t).
  - eapply alone_done; [reflexivity | eauto].
  - intros s1 startTime [-> _].
    eapply alone_bind
      with (R1 := fun s' c =>
                    c = Normal tt /\ untracked this T s' /\
                    executions s' = executions s).
    + eapply alone_done; [reflexivity |]. repeat split.
      * apply (@untracked_modify_instance this T (bump_clock s)). exact Hu.
      * apply has_instance_modify_instance. apply Hu.
      * rewrite executions_modify_instance. reflexivity.
    + intros s2 _ [_ [Hu2 Hex2]].
      apply performs_try_finally; [apply executions_modify_instance |].
      eapply performs_weaken with
        (R := fun _ s' c => R s' c).
      2: { simpl. intros _ s' c [Hc Hu']. split; [exact Hc |].
           apply untracked_modify_instance. exact Hu'. }
      eapply alone_try_catch with (R1 := R).
      * eapply alone_bind with (R1 := R).
        -- apply alone_await.
           eapply alone_done.
           ++ unfold execute. rewrite Hex2, Hfail. reflexivity.
           ++ split; [reflexivity |]. exact Hu2.
        -- intros s' a [H _]. discriminate H.
        -- auto.
      * intros s' a [H _]. discriminate H.
      * intros s3 e' [He' Hu3]. injection He' as ->.
        eapply alone_bind
          with (R1 := fun s' c => untracked this T s' /\
                                  exists t, c = Normal t).
        -- eapply alone_done; [reflexivity |]. split; [exact Hu3 | eauto].
        -- intros s4 t [Hu4 _].
           eapply alone_bind
             with (R1 := fun s' c => untracked this T s' /\
                                     exists t, c = Normal t).
           ++ eapply alone_done; [reflexivity |]. split; [exact Hu4 | eauto].
           ++ intros s5 date [Hu5 _].
              eapply alone_bind
                with (R1 := fun s' c => untracked this T s' /\
                                        c = Normal tt).
              ** eapply alone_done; [reflexivity |].
                 split; [| reflexivity].
                 apply untracked_modify_instance. exact Hu5.
              ** intros s6 _ [Hu6 _].
                 eapply alone_done; [reflexivity |]. split; auto.
              ** intros s' e' [_ H]. discriminate H.
           ++ intros s' e' [_ [x H]]. discriminate H.
        -- intros s' e' [_ [x H]]. discriminate H.
    + intros s' e' [H _]. discriminate H.
  - intros s' e' [_ [x H]]. discriminate H.
Qed.

(** C5 on the code: when the execution unit throws, [runAgent] sets
    the status to error and throws the unit's error on to its caller,
    but [recordExecution] is not called on this path: the tracker's
    records are what they were before the run. *)
Theorem failed_run_is_not_recorded this params s e :
  has_instance this s ->
  execute_reply env (executions s) this params = Throws e ->
  snd (exec (runAgent env this params) s) = Throw e /\
  status_of this (fst (exec (runAgent env this params) s)) = Some "error" /\
  performanceTracker (fst (exec (runAgent env this params) s)) =
  performanceTracker s.
Proof.
  intros Hi Hfail.
  pose (T := performanceTracker s).
  pose (P := fun s' : State =>
               untracked this T s' /\ executions s' = executions s).
  assert (HP : P s) by (repeat split; assumption).
  assert (Hmod : forall s0 k f, True -> P s0 -> P (modify_instance k f s0)).
  { intros s0 k f _ [Hu He]. split.
    - apply untracked_modify_instance. exact Hu.
    - rewrite executions_modify_instance. exact He. }
  assert (Hrely : forall s0 s', P s0 -> s0 = s' -> P s')
    by (intros s0 s' H <-; exact H).
  assert (Hrun : alone (runAgent env this params) s
                   (fun s' c => c = Throw e /\ untracked this T s' /\
                                status_of this s' = Some "error")).
  { unfold runAgent, lookup_instance.
    eapply alone_try_catch
      with (R1 := fun s' c => c = Throw e /\ untracked this T s').
    - eapply alone_bind
        with (R1 := fun s' c => s' = s /\
                      c = Normal (JsMap.get (agentInstances s) this)).
      + eapply alone_done; [reflexivity | auto].
      + intros s' found [-> Hfound]. injection Hfound as ->.
        destruct (JsMap.get (agentInstances s) this) as [instance |] eqn:E;
          [| exfalso; apply Hi; exact E].
        eapply alone_bind.
        { apply alone_of_does with (P := P).
          apply does_await; [exact Hrely |].
          apply does_checkConflicts. exact HP. }
        2: { simpl. intros s' e' [_ [k [_ [x H]]]]. discriminate H. }
        simpl. intros s1 found [HP1 _].
        eapply alone_bind.
        { apply alone_of_does with (P := P)
            (phi := fun k c => k = 0%Z /\ c = Normal tt).
          destruct (0 <? length found)%nat.
          - apply does_await; [exact Hrely |].
            apply does_resolveConflicts; auto.
          - apply does_ret; auto. }
        2: { simpl. intros s' e' [_ [k [_ H]]]. discriminate H. }
        simpl. intros s2 _ [HP2 _].
        eapply alone_bind.
        { apply alone_of_does with (P := P).
          apply does_await; [exact Hrely |].
          apply does_updateAgentStatus with (K := fun _ => True); auto. }
        2: { simpl. intros s' e' [_ [k [_ H]]]. discriminate H. }
        simpl. intros s3 _ [[Hu3 He3] _].
        eapply alone_bind
          with (R1 := fun s' c => c = Throw e /\ untracked this T s').
        * apply alone_await.
          apply alone_BaseAgent_run_failing; [exact Hu3 |].
          rewrite He3. exact Hfail.
        * intros s' a [H _]. discriminate H.
        * auto.
      + intros s' e' [_ H]. discriminate H.
    - intros s' a [H _]. discriminate H.
    - intros s1 e' [He' Hu1]. injection He' as ->.
      eapply alone_bind
        with (R1 := fun s' c => c = Normal tt /\ untracked this T s').
      + eapply alone_done; [reflexivity |]. split; [reflexivity | exact Hu1].
      + intros s2 _ [_ Hu2].
        eapply alone_bind.
        * apply alone_await. apply alone_updateAgentStatus. exact Hu2.
        * simpl. intros s3 _ [_ [Hu3 Hst3]].
          eapply alone_done; [reflexivity |]. auto.
        * simpl. intros s' e' [H _]. discriminate H.
      + intros s' e' [H _]. discriminate H. }
  apply alone_exec in Hrun. destruct Hrun as [Hc [[Ht _] Hst]].
  auto.
Qed.

(** ** What a run records in the instance's own metrics *)

Lemma metrics_of_set_status this k st s :
  metrics_of this (modify_instance k (with_status st) s) = metrics_of this s.
Proof.
  unfold metrics_of, modify_instance.
  destruct (JsMap.get (agentInstances s) k) as [i |] eqn:E; [| reflexivity].
  simpl. destruct (String.eqb_spec k this) as [-> | Hne].
  - rewrite get_set_same, E. reflexivity.
  - rewrite get_set_other by exact Hne. reflexivity.
Qed.

Lemma metrics_of_set_metrics this g s i :
  JsMap.get (agentInstances s) this = Some i ->
  metrics_of this (modify_instance this (fun i => with_metrics (g i) i) s)
  = Some (g i).
Proof.
  intros E. unfold metrics_of, modify_instance. rewrite E. simpl.
  rewrite get_set_same. reflexivity.
Qed.

(** [BaseAgent.run] updates the metrics once, with the outcome of the
    execution unit. *)
Lemma alone_BaseAgent_run_metrics this params m s :
  metrics_of this s = Some m ->
  alone (BaseAgent_run env this params) s
    (fun s' c =>
       (exists dt date,
          metrics_of this s' =
          Some (updateMetrics m
                  (returned (execute_reply env (executions s) this params))
                  dt date)) /\
       executions s' = S (executions s)).
Proof.
  intros Hm. unfold BaseAgent_run.
  pose (b := returned (execute_reply env (executions s) this params)).
  pose (P0 := fun s' : State =>
                metrics_of this s' = Some m /\ executions s' = executions s).
  pose (P1 := fun s' : State =>
                (exists dt date,
                   metrics_of this s' = Some (updateMetrics m b dt date)) /\
                executions s' = S (executions s)).
  assert (Hupd : forall s0 success dt date,
    metrics_of this s0 = Some m ->
    metrics_of this
      (modify_instance this (fun i =>
         with_metrics (updateMetrics (metrics i) success dt date) i) s0)
    = Some (updateMetrics m success dt date)).
  { intros s0 success dt date H0. unfold metrics_of in H0.
    destruct (JsMap.get (agentInstances s0) this) as [i |] eqn:E;
      [| discriminate].
    injection H0 as <-.
    apply (metrics_of_set_metrics this
             (fun i => updateMetrics (metrics i) success dt date) s0 E). }
  eapply alone_bind
    with (R1 := fun s' c => P0 s' /\ exists t, c = Normal t).
  - eapply alone_done; [reflexivity |]. split; [split; auto | eauto].
  - intros s1 startTime [[Hm1 He1] _].
    eapply alone_bind with (R1 := fun s' c => P0 s' /\ c = Normal tt).
    + eapply alone_done; [reflexivity |]. split; [| reflexivity]. split.
      * rewrite metrics_of_set_status. exact Hm1.
      * rewrite executions_modify_instance. exact He1.
    + intros s2 _ [[Hm2 He2] _].
      apply performs_try_finally; [apply executions_modify_instance |].
      eapply performs_weaken with (R := fun _ s' c => P1 s').
      2: { simpl. intros _ s' c [[dt [date Hm']] He'].
           rewrite metrics_of_set_status, executions_modify_instance.
           split; [eauto | exact He']. }
      eapply alone_try_catch
        with (R1 := fun s' c =>
                match c with
                | Normal _ => b = true /\ P1 s'
                | Throw _ => b = false /\ metrics_of this s' = Some m /\
                             executions s' = S (executions s)
                end).
      * eapply alone_bind
          with (R1 := fun s' c =>
                  metrics_of this s' = Some m /\
                  executions s' = S (executions s) /\
                  match c with
                  | Normal _ => b = true
                  | Throw _ => b = false
                  end).
        -- apply alone_await. unfold b. rewrite <- He2.
           destruct (execute_reply env (executions s2) this params) eqn:Er.
           ++ eapply alone_done;
                [unfold execute; rewrite Er; reflexivity |].
              simpl. rewrite He2. auto.
           ++ eapply alone_done;
                [unfold execute; rewrite Er; reflexivity |].
              simpl. rewrite He2. auto.
        -- intros s3 result [Hm3 [He3 Hb]].
           eapply alone_bind
             with (R1 := fun s' c =>
                     (metrics_of this s' = Some m /\
                      executions s' = S (executions s)) /\
                     exists t, c = Normal t).
           ++ eapply alone_done; [reflexivity |]. split; [split; auto | eauto].
           ++ intros s4 t [[Hm4 He4] _].
              eapply alone_bind
                with (R1 := fun s' c =>
                        (metrics_of this s' = Some m /\
                         executions s' = S (executions s)) /\
                        exists t, c = Normal t).
              ** eapply alone_done; [reflexivity |].
                 split; [split; auto | eauto].
              ** intros s5 date [[Hm5 He5] _].
                 eapply alone_bind
                   with (R1 := fun s' c => P1 s' /\ c = Normal tt).
                 --- eapply alone_done; [reflexivity |].
                     split; [| reflexivity]. split.
                     +++ rewrite Hb. eexists. eexists. apply Hupd. exact Hm5.
                     +++ rewrite executions_modify_instance. exact He5.
                 --- intros s6 _ [HP1 _].
                     eapply alone_done; [reflexivity |]. simpl. auto.
                 --- intros s' e' [_ H]. discriminate H.
              ** intros s' e' [_ [x H]]. discriminate H.
           ++ intros s' e' [_ [x H]]. discriminate H.
        -- intros s' e' [Hm' [He' Hb]]. auto.
      * intros s' a [_ HP1]. exact HP1.
      * intros s3 e' [Hb [Hm3 He3]].
        eapply alone_bind
          with (R1 := fun s' c =>
                  (metrics_of this s' = Some m /\
                   executions s' = S (executions s)) /\
                  exists t, c = Normal t).
        -- eapply alone_done; [reflexivity |]. split; [split; auto | eauto].
        -- intros s4 t [[Hm4 He4] _].
           eapply alone_bind
             with (R1 := fun s' c =>
                     (metrics_of this s' = Some m /\
                      executions s' = S (executions s)) /\
                     exists t, c = Normal t).
           ++ eapply alone_done; [reflexivity |].
              split; [split; auto | eauto].
           ++ intros s5 date [[Hm5 He5] _].
              eapply alone_bind
                with (R1 := fun s' c => P1 s' /\ c = Normal tt).
              ** eapply alone_done; [reflexivity |].
                 split; [| reflexivity]. split.
                 --- rewrite Hb. eexists. eexists. apply Hupd. exact Hm5.
                 --- rewrite executions_modify_instance. exact He5.
              ** intros s6 _ [HP1 _].
                 eapply alone_done; [reflexivity |]. exact HP1.
              ** intros s' e'' [_ H]. discriminate H.
           ++ intros s' e'' [_ [x H]]. discriminate H.
        -- intros s' e'' [_ [x H]]. discriminate H.
    + intros s' e' [_ H]. discriminate H.
  - intros s' e' [_ [x H]]. discriminate H.
Qed.

(** So does [runAgent], whether it returns or throws. *)
Lemma runAgent_updates_metrics this params m s :
  metrics_of this s = Some m ->
  (exists dt date,
     metrics_of this (fst (exec (runAgent env this params) s)) =
     Some (updateMetrics m
             (returned (execute_reply env (executions s) this params))
             dt date)) /\
  executions (fst (exec (runAgent env this params) s)) = S (executions s).
Proof.
  intros Hm.
  pose (b := returned (execute_reply env (executions s) this params)).
  pose (P0 := fun s' : State =>
                metrics_of this s' = Some m /\ executions s' = executions s).
  pose (P1 := fun s' : State =>
                (exists dt date,
                   metrics_of this s' = Some (updateMetrics m b dt date)) /\
                executions s' = S (executions s)).
  assert (H0 : P0 s) by (split; auto).
  assert (Hst0 : forall s0 k st, True -> P0 s0 ->
                   P0 (modify_instance k (with_status st) s0)).
  { intros s0 k st _ [Hm0 He0]. split.
    - rewrite metrics_of_set_status. exact Hm0.
    - rewrite executions_modify_instance. exact He0. }
  assert (Hst1 : forall s0 k st, True -> P1 s0 ->
                   P1 (modify_instance k (with_status st) s0)).
  { intros s0 k st _ [Hm0 He0]. split.
    - rewrite metrics_of_set_status. exact Hm0.
    - rewrite executions_modify_instance. exact He0. }
  assert (Hrely0 : forall s0 s', P0 s0 -> s0 = s' -> P0 s')
    by (intros s0 s' H <-; exact H).
  assert (Hrely1 : forall s0 s', P1 s0 -> s0 = s' -> P1 s')
    by (intros s0 s' H <-; exact H).
  assert (Hrun : alone (runAgent env this params) s (fun s' c => P1 s')).
  { unfold runAgent, lookup_instance.
    eapply alone_try_catch with (R1 := fun s' c => P1 s').
    - eapply alone_bind
        with (R1 := fun s' c => s' = s /\
                      c = Normal (JsMap.get (agentInstances s) this)).
      + eapply alone_done; [reflexivity | auto].
      + intros s' found [-> Hfound]. injection Hfound as ->.
        destruct (JsMap.get (agentInstances s) this) as [instance |] eqn:E.
        2: { unfold metrics_of in Hm. rewrite E in Hm. discriminate Hm. }
        eapply alone_bind.
        { apply alone_of_does with (P := P0).
          apply does_await; [exact Hrely0 |].
          apply does_checkConflicts. exact H0. }
        2: { simpl. intros s' e' [_ [k [_ [x H]]]]. discriminate H. }
        simpl. intros s1 found [HP1 _].
        eapply alone_bind.
        { apply alone_of_does with (P := P0)
            (phi := fun k c => k = 0%Z /\ c = Normal tt).
          destruct (0 <? length found)%nat.
          - apply does_await; [exact Hrely0 |].
            apply does_resolveConflicts; auto.
          - apply does_ret; auto. }
        2: { simpl. intros s' e' [_ [k [_ H]]]. discriminate H. }
        simpl. intros s2 _ [HP2 _].
        eapply alone_bind.
        { apply alone_of_does with (P := P0).
          apply does_await; [exact Hrely0 |].
          apply does_updateAgentStatus with (K := fun _ => True); auto. }
        2: { simpl. intros s' e' [_ [k [_ H]]]. discriminate H. }
        simpl. intros s3 _ [[Hm3 He3] _].
        eapply alone_bind with (R1 := fun s' c => P1 s').
        * apply alone_await.
          eapply performs_weaken;
            [apply alone_BaseAgent_run_metrics; exact Hm3 |].
          simpl. intros _ s' c [Hm' He']. unfold P1, b.
          rewrite <- He3. split; assumption.
        * intros s4 result HP4.
          eapply alone_bind.
          { apply alone_of_does with (P := P1).
            apply does_await; [exact Hrely1 |].
            apply does_recordExecution; auto. }
          2: { simpl. intros s' e' [H _]. exact H. }
          simpl. intros s5 _ [HP5 _].
          eapply alone_bind.
          { apply alone_of_does with (P := P1).
            apply does_await; [exact Hrely1 |].
            apply does_updateAgentStatus with (K := fun _ => True); auto. }
          2: { simpl. intros s' e' [H _]. exact H. }
          simpl. intros s6 _ [HP6 _].
          eapply alone_bind with (R1 := fun s' c => P1 s').
          { eapply alone_done; [reflexivity | exact HP6]. }
          2: { auto. }
          intros s7 _ HP7.
          eapply alone_bind with (R1 := fun s' c => P1 s').
          { eapply alone_done; [reflexivity | exact HP7]. }
          2: { auto. }
          intros s8 _ HP8.
          eapply alone_done; [reflexivity | exact HP8].
        * auto.
      + intros s' e' [_ H]. discriminate H.
    - auto.
    - intros s1 e' HP1.
      eapply alone_bind with (R1 := fun s' c => P1 s').
      + eapply alone_done; [reflexivity | exact HP1].
      + intros s2 _ HP2.
        eapply alone_bind.
        * apply alone_of_does with (P := P1).
          apply does_await; [exact Hrely1 |].
          apply does_updateAgentStatus with (K := fun _ => True); auto.
        * simpl. intros s3 _ [HP3 _].
          eapply alone_done; [reflexivity | exact HP3].
        * simpl. intros s' e'' [H _]. exact H.
      + auto. }
  apply alone_exec in Hrun. exact Hrun.
Qed.

(** One run that returns and one that throws, in either order, on an
    instance with no run yet: the instance's metrics show a success
    rate of 0.5 over 2 runs. *)
Lemma runs_one_success_one_failure this p1 p2 m s :
  metrics_of this s = Some m ->
  totalRuns m = 0%float -> successRate m = 0%float ->
  returned (execute_reply env (executions s) this p1) =
  negb (returned (execute_reply env (S (executions s)) this p2)) ->
  exists m2,
    metrics_of this
      (fst (exec (runAgent env this p2)
              (fst (exec (runAgent env this p1) s)))) = Some m2 /\
    successRate m2 = 0.5%float /\ totalRuns m2 = 2%float.
Proof.
  intros Hm Hruns Hrate Hone.
  destruct (runAgent_updates_metrics this p1 s Hm)
    as [[dt1 [date1 Hm1]] He1].
  destruct (runAgent_updates_metrics this p2 _ Hm1)
    as [[dt2 [date2 Hm2]] _].
  rewrite He1 in Hm2. eexists. split; [exact Hm2 |].
  rewrite Hone. unfold updateMetrics. simpl. rewrite Hruns, Hrate.
  destruct (returned (execute_reply env (S (executions s)) this p2));
    split; reflexivity.
Qed.

End Alone.

Lemma failed_run_is_not_recorded_witness :
  has_instance "i" one_agent /\
  performanceTracker one_agent = [] /\
  performanceTracker (fst (exec (runAgent failing_env "i" []) one_agent))
  = [].
Proof.
  split; [discriminate |]. split; [reflexivity |].
  refine (proj2 (proj2 (@failed_run_is_not_recorded failing_env "i" []
                          one_agent "boom" _ eq_refl))).
  discriminate.
Defined.


(** * Further facts *)

(** ** Errors of the single operations *)

(** [runAgent] on an instance id that is not in the registry throws
    the not-found error; no execution unit is invoked, no query is
    sent and nothing changes but the console's log. *)
Theorem runAgent_unknown_instance env s instanceId params :
  JsMap.get (agentInstances s) instanceId = None ->
  exec (runAgent env instanceId params) s =
  (push_event
     {| ev_channel := Console;
        ev_name := ("Failed to run agent " ++ instanceId ++ ":")%string;
        ev_payload :=
          [("error",
            PStr ("Agent instance " ++ instanceId ++ " not found")%string)] |}
     s,
   Throw ("Agent instance " ++ instanceId ++ " not found")%string).
Proof.
  intros H.
  unfold exec, runAgent, try_catch, bind, lookup_instance, gets.
  simpl. rewrite H. simpl.
  unfold await, updateAgentStatus, try_catch, bind, lookup_instance, gets.
  simpl. rewrite H. reflexivity.
Qed.

Lemma runAgent_unknown_instance_witness :
  JsMap.get (agentInstances one_agent) "nobody" = None /\
  snd (exec (runAgent calm_env "nobody" []) one_agent) =
  Throw "Agent instance nobody not found".
Proof.
  split; [reflexivity |].
  rewrite (@runAgent_unknown_instance calm_env one_agent "nobody" []
             eq_refl).
  reflexivity.
Defined.

(** [updateAgentStatus] never throws.  On an instance of the registry
    the status is assigned before the database is written to: when
    the write fails the new status stays, the error goes to the
    console and no agent-status-changed event is sent; when it
    succeeds the event goes to the room of the instance's user. *)
Theorem updateAgentStatus_outcome env s instanceId st instance :
  JsMap.get (agentInstances s) instanceId = Some instance ->
  let written :=
    push_query
      (UpdateUserAgentStatus st (userId instance) (agentId instance))
      (modify_instance instanceId (with_status st) s) in
  exec (updateAgentStatus env instanceId st) s =
  match db_reply env (length (queries s))
          (UpdateUserAgentStatus st (userId instance) (agentId instance))
  with
  | DbRows _ =>
      (push_event
         {| ev_channel := IoRoom ("user-" ++ userId instance)%string;
            ev_name := "agent-status-changed";
            ev_payload :=
              [("instanceId", PStr instanceId);
               ("agentId", PStr (agentId instance));
               ("status", PStr st);
               ("userId", PStr (userId instance))] |}
         written,
       Normal tt)
  | DbError e =>
      (push_event
         {| ev_channel := Console;
            ev_name := "Failed to update agent status:";
            ev_payload := [("error", PStr e)] |}
         written,
       Normal tt)
  end /\
  status_of instanceId written = Some st.
Proof.
  intros H written. split.
  - unfold exec, updateAgentStatus, try_catch, bind, lookup_instance, gets,
      await, db_query.
    simpl. rewrite H. simpl.
    assert (Hq : queries (modify_instance instanceId (with_status st) s)
                 = queries s).
    { unfold modify_instance. rewrite H. reflexivity. }
    rewrite Hq.
    destruct (db_reply env (length (queries s))
                (UpdateUserAgentStatus st (userId instance)
                   (agentId instance))); reflexivity.
  - unfold written, status_of, modify_instance. rewrite H. simpl.
    rewrite get_set_same. reflexivity.
Qed.

Lemma updateAgentStatus_outcome_witness :
  exists instance,
    JsMap.get (agentInstances one_agent) "i" = Some instance /\
    snd (exec (updateAgentStatus offline_env "i" "running") one_agent)
    = Normal tt /\
    status_of "i"
      (fst (exec (updateAgentStatus offline_env "i" "running") one_agent))
    = Some "running".
Proof.
  eexists. split; [reflexivity |].
  destruct (@updateAgentStatus_outcome offline_env one_agent "i"
              "running" _ eq_refl) as [H _].
  rewrite H. split; reflexivity.
Defined.

(** ** A run from start to end *)

Section RunAlone.

Variable env : Env.

Local Notation alone p s R :=
  (performs (fun _ => True) eq p s (fun _ s' c => R s' c)).

(** The status at the end of a run: idle when [runAgent] returns,
    error when it throws. *)
Lemma alone_runAgent_status this params s :
  has_instance this s ->
  alone (runAgent env this params) s
    (fun s' c =>
       status_of this s' =
       Some match c with Normal _ => "idle" | Throw _ => "error" end).
Proof.
  intros Hi.
  pose (P := has_instance this).
  assert (Hmod : forall s0 k f, True -> P s0 -> P (modify_instance k f s0))
    by (intros s0 k f _; apply has_instance_modify_instance).
  assert (Hrely : forall s0 s', P s0 -> s0 = s' -> P s')
    by (intros s0 s' H <-; exact H).
  unfold runAgent, lookup_instance.
  eapply alone_try_catch
    with (R1 := fun s' c =>
            match c with
            | Normal _ => status_of this s' = Some "idle"
            | Throw _ => P s'
            end).
  - eapply alone_bind
      with (R1 := fun s' c => s' = s /\
                    c = Normal (JsMap.get (agentInstances s) this)).
    + eapply alone_done; [reflexivity | auto].
    + intros s' found [-> Hfound]. injection Hfound as ->.
      destruct (JsMap.get (agentInstances s) this) as [instance |] eqn:E;
        [| exfalso; apply Hi; exact E].
      eapply alone_bind.
      { apply alone_of_does with (P := P).
        apply does_await; [exact Hrely |].
        apply does_checkConflicts. exact Hi. }
      2: { simpl. intros s' e' [H _]. exact H. }
      simpl. intros s1 found [HP1 _].
      eapply alone_bind.
      { apply alone_of_does with (P := P)
          (phi := fun k c => k = 0%Z /\ c = Normal tt).
        destruct (0 <? length found)%nat.
        - apply does_await; [exact Hrely |].
          apply does_resolveConflicts; auto.
        - apply does_ret; auto. }
      2: { simpl. intros s' e' [H _]. exact H. }
      simpl. intros s2 _ [HP2 _].
      eapply alone_bind.
      { apply alone_of_does with (P := P).
        apply does_await; [exact Hrely |].
        apply does_updateAgentStatus with (K := fun _ => True); auto. }
      2: { simpl. intros s' e' [H _]. exact H. }
      simpl. intros s3 _ [HP3 _].
      eapply alone_bind.
      { apply alone_of_does with (P := P).
        apply does_await; [exact Hrely |].
        apply does_BaseAgent_run with (K := fun _ => True); auto. }
      2: { simpl. intros s' e' [H _]. exact H. }
      simpl. intros s4 result [HP4 _].
      eapply alone_bind.
      { apply alone_of_does with (P := P).
        apply does_await; [exact Hrely |].
        apply does_recordExecution; auto. }
      2: { simpl. intros s' e' [H _]. exact H. }
      simpl. intros s5 _ [HP5 _].
      eapply alone_bind.
      { apply alone_await.
        apply alone_updateAgentStatus with (T := performanceTracker s5).
        split; [reflexivity | exact HP5]. }
      2: { simpl. intros s' e' [H _]. discriminate H. }
      simpl. intros s6 _ [_ [_ Hst6]].
      eapply alone_bind
        with (R1 := fun s' c => status_of this s' = Some "idle" /\
                                c = Normal tt).
      { eapply alone_done; [reflexivity |]. split; [exact Hst6 | reflexivity]. }
      2: { intros s' e' [_ H]. discriminate H. }
      intros s7 _ [Hst7 _].
      eapply alone_bind
        with (R1 := fun s' c => status_of this s' = Some "idle" /\
                                c = Normal tt).
      { eapply alone_done; [reflexivity |]. split; [exact Hst7 | reflexivity]. }
      2: { intros s' e' [_ H]. discriminate H. }
      intros s8 _ [Hst8 _].
      eapply alone_done; [reflexivity | exact Hst8].
    + intros s' e' [_ H]. discriminate H.
  - intros s' a H. exact H.
  - intros s1 e' HP1. simpl in HP1.
    eapply alone_bind with (R1 := fun s' c => P s' /\ c = Normal tt).
    + eapply alone_done; [reflexivity |]. split; [exact HP1 | reflexivity].
    + intros s2 _ [HP2 _].
      eapply alone_bind.
      * apply alone_await.
        apply alone_updateAgentStatus with (T := performanceTracker s2).
        split; [reflexivity | exact HP2].
      * simpl. intros s3 _ [_ [_ Hst3]].
        eapply alone_done; [reflexivity | exact Hst3].
      * simpl. intros s' e'' [H _]. discriminate H.
    + intros s' e'' [_ H]. discriminate H.
Qed.

(** [BaseAgent.run] when the execution unit returns. *)
Lemma alone_BaseAgent_run_returning this params T s result :
  untracked this T s ->
  execute_reply env (executions s) this params = Returns result ->
  alone (BaseAgent_run env this params) s
    (fun s' c => c = Normal result /\ untracked this T s').
Proof.
  intros Hu Hret. unfold BaseAgent_run.
  pose (R := fun (s' : State) (c : Completion JsResult) =>
               c = Normal result /\ untracked this T s').
  eapply alone_bind
    with (R1 := fun s' c => s' = bump_clock s /\ exists t, c = Normal t).
  - eapply alone_done; [reflexivity | eauto].
  - intros s1 startTime [-> _].
    eapply alone_bind
      with (R1 := fun s' c =>
                    c = Normal tt /\ untracked this T s' /\
                    executions s' = executions s).
    + eapply alone_done; [reflexivity |]. repeat split.
      * apply (@untracked_modify_instance this T (bump_clock s)). exact Hu.
      * apply has_instance_modify_instance. apply Hu.
      * rewrite executions_modify_instance. reflexivity.
    + intros s2 _ [_ [Hu2 Hex2]].
      apply performs_try_finally; [apply executions_modify_instance |].
      eapply performs_weaken with (R := fun _ s' c => R s' c).
      2: { simpl. intros _ s' c [Hc Hu']. split; [exact Hc |].
           apply untracked_modify_instance. exact Hu'. }
      eapply alone_try_catch with (R1 := R).
      * eapply alone_bind with (R1 := R).
        -- apply alone_await.
           eapply alone_done.
           ++ unfold execute. rewrite Hex2, Hret. reflexivity.
           ++ split; [reflexivity |]. exact Hu2.
        -- intros s3 a [Ha Hu3]. injection Ha as ->.
           eapply alone_bind
             with (R1 := fun s' c => untracked this T s' /\
                                     exists t, c = Normal t).
           ++ eapply alone_done; [reflexivity |]. split; [exact Hu3 | eauto].
           ++ intros s4 t [Hu4 _].
              eapply alone_bind
                with (R1 := fun s' c => untracked this T s' /\
                                        exists t, c = Normal t).
              ** eapply alone_done; [reflexivity |].
                 split; [exact Hu4 | eauto].
              ** intros s5 date [Hu5 _].
                 eapply alone_bind
                   with (R1 := fun s' c => untracked this T s' /\
                                           c = Normal tt).
                 --- eapply alone_done; [reflexivity |].
                     split; [| reflexivity].
                     apply untracked_modify_instance. exact Hu5.
                 --- intros s6 _ [Hu6 _].
                     eapply alone_done; [reflexivity |]. split; auto.
                 --- intros s' e' [_ H]. discriminate H.
              ** intros s' e' [_ [x H]]. discriminate H.
           ++ intros s' e' [_ [x H]]. discriminate H.
        -- intros s' e' [H _]. discriminate H.
      * auto.
      * intros s' e' [H _]. discriminate H.
    + intros s' e' [H _]. discriminate H.
  - intros s' e' [_ [x H]]. discriminate H.
Qed.

(** The run up to the return of [instance.run], when the execution
    unit returns. *)
Lemma alone_runAgent_prefix_returning this params s result instance
    (rest : JsResult -> Async JsResult)
    (R : State -> Completion JsResult -> Prop) :
  JsMap.get (agentInstances s) this = Some instance ->
  execute_reply env (executions s) this params = Returns result ->
  (forall s', untracked this (performanceTracker s) s' ->
              alone (rest result) s' R) ->
  alone
    (found <- await (checkConflicts instance) ;;
     (if (0 <? length found)%nat
      then await (resolveConflicts env found instance)
      else ret tt) ;;
     await (updateAgentStatus env this "running") ;;
     result <- await (BaseAgent_run env this params) ;;
     rest result) s R.
Proof.
  intros E Hret Hrest.
  assert (Hi : has_instance this s) by (unfold has_instance; congruence).
  pose (T := performanceTracker s).
  pose (P := fun s' : State =>
               untracked this T s' /\ executions s' = executions s).
  assert (HP : P s) by (repeat split; assumption).
  assert (Hmod : forall s0 k f, True -> P s0 -> P (modify_instance k f s0)).
  { intros s0 k f _ [Hu He]. split.
    - apply untracked_modify_instance. exact Hu.
    - rewrite executions_modify_instance. exact He. }
  assert (Hrely : forall s0 s', P s0 -> s0 = s' -> P s')
    by (intros s0 s' H <-; exact H).
  eapply alone_bind.
  { apply alone_of_does with (P := P).
    apply does_await; [exact Hrely |].
    apply does_checkConflicts. exact HP. }
  2: { simpl. intros s' e' [_ [k [_ [x H]]]]. discriminate H. }
  simpl. intros s1 found [HP1 _].
  eapply alone_bind.
  { apply alone_of_does with (P := P)
      (phi := fun k c => k = 0%Z /\ c = Normal tt).
    destruct (0 <? length found)%nat.
    - apply does_await; [exact Hrely |].
      apply does_resolveConflicts; auto.
    - apply does_ret; auto. }
  2: { simpl. intros s' e' [_ [k [_ H]]]. discriminate H. }
  simpl. intros s2 _ [HP2 _].
  eapply alone_bind.
  { apply alone_of_does with (P := P).
    apply does_await; [exact Hrely |].
    apply does_updateAgentStatus with (K := fun _ => True); auto. }
  2: { simpl. intros s' e' [_ [k [_ H]]]. discriminate H. }
  simpl. intros s3 _ [[Hu3 He3] _].
  eapply alone_bind
    with (R1 := fun s' c => c = Normal result /\ untracked this T s').
  - apply alone_await.
    apply alone_BaseAgent_run_returning; [exact Hu3 |].
    rewrite He3. exact Hret.
  - intros s4 a [Ha Hu4]. injection Ha as ->. apply Hrest. exact Hu4.
  - intros s' e' [H _]. discriminate H.
Qed.

(** A run whose execution unit returns a result object. *)
Lemma alone_runAgent_returning this params s r :
  has_instance this s ->
  execute_reply env (executions s) this params = Returns (Some r) ->
  alone (runAgent env this params) s
    (fun s' c =>
       c = Normal (Some r) /\
       status_of this s' = Some "idle" /\
       exists date,
         performanceTracker s' =
         JsMap.set (performanceTracker s) this
           (let prev :=
              match JsMap.get (performanceTracker s) this with
              | Some m => m
              | None => {| totalExecutions := 0; successfulExecutions := 0;
                           totalExecutionTime := 0; lastExecution := None |}
              end in
            {| totalExecutions := (totalExecutions prev + 1)%float;
               successfulExecutions :=
                 if negb (error r)
                 then (successfulExecutions prev + 1)%float
                 else successfulExecutions prev;
               totalExecutionTime :=
                 (totalExecutionTime prev + or_zero (executionTime r))%float;
               lastExecution := Some date |})).
Proof.
  intros Hi Hret. unfold runAgent, lookup_instance.
  match goal with
  | |- performs _ _ _ _ ?F =>
      eapply alone_try_catch with (R1 := fun s' c => F 0%Z s' c)
  end; cbv beta.
  - eapply alone_bind
      with (R1 := fun s' c => s' = s /\
                    c = Normal (JsMap.get (agentInstances s) this)).
    + eapply alone_done; [reflexivity | auto].
    + intros s' found [-> Hfound]. injection Hfound as ->.
      destruct (JsMap.get (agentInstances s) this) as [instance |] eqn:E;
        [| exfalso; apply Hi; exact E].
      apply alone_runAgent_prefix_returning with (result := Some r);
        [exact E | exact Hret |].
      intros s4 [Ht4 Hi4].
      eapply alone_bind
        with (R1 := fun s' c =>
                c = Normal tt /\ has_instance this s' /\
                performanceTracker s' =
                JsMap.set (performanceTracker s) this _).
      * apply alone_await. eapply alone_done.
        -- unfold PerformanceTracker_recordExecution, bind, gets, now,
             modify. simpl. reflexivity.
        -- split; [reflexivity |]. split; [exact Hi4 |].
           simpl. rewrite Ht4. reflexivity.
      * intros s5 _ [_ [Hi5 Ht5]].
        eapply alone_bind.
        { apply alone_await.
          apply alone_updateAgentStatus with (T := performanceTracker s5).
          split; [reflexivity | exact Hi5]. }
        2: { simpl. intros s' e' [H _]. discriminate H. }
        simpl. intros s6 _ [_ [[Ht6 _] Hst6]].
        eapply alone_done; [reflexivity |].
        split; [reflexivity |]. split; [exact Hst6 |].
        eexists. simpl. rewrite Ht6, Ht5. reflexivity.
      * intros s' e' [H _]. discriminate H.
    + intros s' e' [_ H]. discriminate H.
  - auto.
  - intros s' e' [H _]. discriminate H.
Qed.

End RunAlone.

(** Whatever happens in a run on an existing instance, it leaves the
    instance idle when [runAgent] returns and in the status error when
    it throws; no run leaves it running. *)
Theorem runAgent_ends_idle_or_error env this params s :
  has_instance this s ->
  status_of this (fst (exec (runAgent env this params) s)) =
  Some match snd (exec (runAgent env this params) s) with
       | Normal _ => "idle"
       | Throw _ => "error"
       end.
Proof.
  intros Hi.
  pose proof (alone_runAgent_status env params Hi) as H.
  apply alone_exec in H. exact H.
Qed.

Lemma runAgent_ends_idle_or_error_witness :
  has_instance "i" one_agent /\
  status_of "i" (fst (exec (runAgent failing_env "i" []) one_agent)) =
  Some match snd (exec (runAgent failing_env "i" []) one_agent) with
       | Normal _ => "idle"
       | Throw _ => "error"
       end.
Proof.
  split; [discriminate |].
  apply (@runAgent_ends_idle_or_error failing_env "i" [] one_agent).
  discriminate.
Defined.

(** A run whose execution unit returns a result object returns that
    object, leaves the instance idle and stores one more execution in
    the tracker's entry of the instance: the total is increased by one,
    the successes by one unless the result carries an error, the time
    by the result's execution time when it has one. *)
Theorem runAgent_returns_and_records env this params s r :
  has_instance this s ->
  execute_reply env (executions s) this params = Returns (Some r) ->
  snd (exec (runAgent env this params) s) = Normal (Some r) /\
  status_of this (fst (exec (runAgent env this params) s)) = Some "idle" /\
  exists date,
    performanceTracker (fst (exec (runAgent env this params) s)) =
    JsMap.set (performanceTracker s) this
      (let prev :=
         match JsMap.get (performanceTracker s) this with
         | Some m => m
         | None => {| totalExecutions := 0; successfulExecutions := 0;
                      totalExecutionTime := 0; lastExecution := None |}
         end in
       {| totalExecutions := (totalExecutions prev + 1)%float;
          successfulExecutions :=
            if negb (error r)
            then (successfulExecutions prev + 1)%float
            else successfulExecutions prev;
          totalExecutionTime :=
            (totalExecutionTime prev + or_zero (executionTime r))%float;
          lastExecution := Some date |}).
Proof.
  intros Hi Hret.
  pose proof (alone_runAgent_returning env params Hi Hret) as H.
  apply alone_exec in H. exact H.
Qed.


(** ** What every operation keeps *)

Section Invariants.

Variable env : Env.
Variable I : State -> Prop.

Hypothesis I_set_status : forall s k st,
  I s -> I (modify_instance k (with_status st) s).
Hypothesis I_set_metrics : forall s k g,
  I s -> I (modify_instance k (fun i => with_metrics (g i) i) s).
Hypothesis I_push_query : forall s q, I s -> I (push_query q s).
Hypothesis I_push_event : forall s e, I s -> I (push_event e s).
Hypothesis I_bump_executions : forall s, I s -> I (bump_executions s).
Hypothesis I_bump_clock : forall s, I s -> I (bump_clock s).
Hypothesis I_tracker : forall s t, I s -> I (with_performanceTracker t s).
Hypothesis I_new_instance : forall s v c u a cfg,
  I s ->
  I (with_agentInstances
       (JsMap.set (agentInstances s) (uuidv4 env (uuids s))
          (new_agent c (uuidv4 env (uuids s)) u a cfg))
       (with_agents v (bump_uuids s))).

Lemma invariant_exec A (p : Async A) s :
  performs I (keeping I) p s (fun _ s' _ => I s' /\ True) ->
  I (fst (exec p s)).
Proof.
  intros Hp. apply performs_exec in Hp; [apply Hp |].
  intros s0 Hs0. exact Hs0.
Qed.

Lemma invariant_op_step op s : I s -> I (op_step env op s).
Proof.
  intros Hs.
  assert (Hst : forall s k st, True -> I s ->
                  I (modify_instance k (with_status st) s))
    by (intros s0 k st _; apply I_set_status).
  assert (Hmt : forall s k g, True -> I s ->
                  I (modify_instance k (fun i => with_metrics (g i) i) s))
    by (intros s0 k g _; apply I_set_metrics).
  destruct op as [u a cfg | k params | k | k st |]; simpl;
    apply invariant_exec.
  - eapply performs_weaken;
      [apply does_createAgentInstance with (I := I); auto |].
    simpl. tauto.
  - eapply performs_weaken;
      [apply does_runAgent with (I := I) (K := fun _ => True); auto |].
    simpl. tauto.
  - eapply performs_weaken;
      [apply does_pauseAgent with (I := I); auto |].
    simpl. tauto.
  - eapply performs_weaken;
      [apply does_updateAgentStatus with (I := I) (K := fun _ => True); auto |].
    simpl. tauto.
  - eapply performs_weaken;
      [apply does_schedulerTick with (I := I) (K := fun _ => True); auto |].
    simpl. tauto.
Qed.

Lemma invariant_run_ops ops s : I s -> I (run_ops env ops s).
Proof.
  unfold run_ops. revert s.
  induction ops as [| op ops IH]; intros s Hs; simpl; [exact Hs |].
  apply IH. apply invariant_op_step. exact Hs.
Qed.

End Invariants.

(** ** The constructor *)

Lemma with_agents_same s : with_agents (agents s) s = s.
Proof. destruct s; reflexivity. Qed.

Lemma exec_modify f s : exec (modify f) s = (f s, Normal tt).
Proof. reflexivity. Qed.

Lemma exec_ret A (a : A) s : exec (ret a) s = (s, Normal a).
Proof. reflexivity. Qed.

Lemma exec_register_agents rows s :
  exec (for_each rows (fun agentDef =>
          match getAgentClass (row_type agentDef) with
          | Some agentClass =>
              modify (fun s => with_agents
                (JsMap.set (agents s) (row_id agentDef)
                   {| definition := agentDef; agent_class := agentClass;
                      instances := JsMap.empty |}) s)
          | None => ret tt
          end)) s =
  (with_agents (register_agents rows (agents s)) s, Normal tt).
Proof.
  revert s. induction rows as [| row rows IH]; intros s.
  - unfold register_agents. simpl. rewrite with_agents_same. reflexivity.
  - cbn [for_each]. rewrite exec_bind.
    unfold register_agents. cbn [fold_left].
    destruct (getAgentClass (row_type row)) as [c |].
    + rewrite exec_modify. cbn [fst snd]. rewrite IH. reflexivity.
    + rewrite exec_ret. cbn [fst snd]. apply IH.
Qed.

(** The state that the constructor leaves. *)
Lemma constructor_state env :
  constructor env =
  let s0 := with_isRunning true (push_query SelectActiveAgents empty_state) in
  match db_reply env 0 SelectActiveAgents with
  | DbRows rows => with_agents (register_agents rows JsMap.empty) s0
  | DbError e =>
      push_event {| ev_channel := Console;
                    ev_name := "Failed to initialize agents:";
                    ev_payload := [("error", PStr e)] |} s0
  end.
Proof.
  unfold constructor, initializeAgents, try_catch, bind, await, db_query.
  cbn [queries empty_state length].
  destruct (db_reply env 0 SelectActiveAgents) as [rows | e];
    cbn [awaitR bindR try_catchR run_seq fst].
  - match goal with
    | |- fst (run_seq (try_catchR ?r _)) = _ =>
        change (fst (run_seq (try_catchR r
                  (fun error => console_error "Failed to initialize agents:" error))))
        with (fst (exec (try_catch (for_each rows (fun agentDef =>
          match getAgentClass (row_type agentDef) with
          | Some agentClass =>
              modify (fun s => with_agents
                (JsMap.set (agents s) (row_id agentDef)
                   {| definition := agentDef; agent_class := agentClass;
                      instances := JsMap.empty |}) s)
          | None => ret tt
          end)) (fun error => console_error "Failed to initialize agents:" error))
          (with_isRunning true (push_query SelectActiveAgents empty_state))))
    end.
    rewrite exec_try_catch, exec_register_agents. reflexivity.
  - reflexivity.
Qed.

(** The constructor returns while [initializeAgents] waits. *)
Lemma constructor_returns_state env :
  constructor_returns env =
  with_isRunning true (push_query SelectActiveAgents empty_state).
Proof.
  unfold constructor_returns, initializeAgents, try_catch, bind, await,
    db_query.
  cbn [queries empty_state length].
  destruct (db_reply env 0 SelectActiveAgents); reflexivity.
Qed.

(** What [initializeAgents] does when it goes on in the state [s]. *)
Lemma initializeAgents_settles_state env s :
  initializeAgents_settles env s =
  match db_reply env 0 SelectActiveAgents with
  | DbRows rows => with_agents (register_agents rows (agents s)) s
  | DbError e =>
      push_event {| ev_channel := Console;
                    ev_name := "Failed to initialize agents:";
                    ev_payload := [("error", PStr e)] |} s
  end.
Proof.
  unfold initializeAgents_settles, initializeAgents, try_catch, bind, await,
    db_query.
  cbn [queries empty_state length].
  destruct (db_reply env 0 SelectActiveAgents) as [rows | e];
    cbn [awaitR bindR try_catchR run_seq fst].
  - match goal with
    | |- fst (run_seq (try_catchR ?r _)) = _ =>
        change (fst (run_seq (try_catchR r
                  (fun error => console_error "Failed to initialize agents:" error))))
        with (fst (exec (try_catch (for_each rows (fun agentDef =>
          match getAgentClass (row_type agentDef) with
          | Some agentClass =>
              modify (fun s => with_agents
                (JsMap.set (agents s) (row_id agentDef)
                   {| definition := agentDef; agent_class := agentClass;
                      instances := JsMap.empty |}) s)
          | None => ret tt
          end)) (fun error => console_error "Failed to initialize agents:" error))
          s))
    end.
    rewrite exec_try_catch, exec_register_agents. reflexivity.
  - reflexivity.
Qed.

(** With no operation in between, that is the constructor's state. *)
Lemma constructor_settles env :
  constructor env = initializeAgents_settles env (constructor_returns env).
Proof.
  unfold constructor, initializeAgents_settles, constructor_returns.
  destruct (initializeAgents env empty_state); reflexivity.
Qed.

(** ** The registry and the catalogue over the operations *)

Lemma get_modify_instance k0 f s k :
  JsMap.get (agentInstances (modify_instance k0 f s)) k =
  if String.eqb k0 k
  then option_map f (JsMap.get (agentInstances s) k)
  else JsMap.get (agentInstances s) k.
Proof.
  unfold modify_instance.
  destruct (String.eqb_spec k0 k) as [-> | Hne].
  - destruct (JsMap.get (agentInstances s) k) as [i |] eqn:E; simpl.
    + apply get_set_same.
    + exact E.
  - destruct (JsMap.get (agentInstances s) k0) as [i |]; simpl.
    + apply get_set_other. exact Hne.
    + reflexivity.
Qed.

Lemma keys_modify_instance k0 f s :
  JsMap.keys (agentInstances (modify_instance k0 f s)) =
  JsMap.keys (agentInstances s).
Proof.
  unfold modify_instance.
  destruct (JsMap.get (agentInstances s) k0) as [i |] eqn:E; simpl.
  - apply keys_set_present. congruence.
  - reflexivity.
Qed.

Lemma length_keys V (m : JsMap.t V) : length (JsMap.keys m) = length m.
Proof. apply length_map. Qed.

Lemma length_set V (m : JsMap.t V) k v : length m <= length (JsMap.set m k v).
Proof.
  rewrite <- !length_keys.
  destruct (JsMap.get m k) eqn:E.
  - rewrite keys_set_present by congruence. lia.
  - rewrite keys_set_absent by exact E. rewrite length_app. lia.
Qed.

Lemma isRunning_modify_instance k f s :
  isRunning (modify_instance k f s) = isRunning s.
Proof.
  unfold modify_instance. destruct (JsMap.get (agentInstances s) k); reflexivity.
Qed.

(** Nothing stops the scheduler: at every state that the constructor
    and the operations lead to, [getStatus] reports [isRunning] as
    true. *)
Theorem scheduler_is_never_stopped env s :
  reachable env s ->
  OrchestratorStatus.isRunning (getStatus s) = true.
Proof.
  unfold getStatus. cbn [OrchestratorStatus.isRunning].
  induction 1 as [| s op H IH].
  - rewrite constructor_state. cbv zeta.
    destruct (db_reply env 0 SelectActiveAgents); reflexivity.
  - revert IH. apply invariant_op_step with (I := fun s => isRunning s = true);
      auto; intros; rewrite isRunning_modify_instance; assumption.
Qed.

Lemma scheduler_is_never_stopped_witness :
  reachable calm_env one_agent /\
  OrchestratorStatus.isRunning (getStatus one_agent) = true.
Proof.
  assert (H : reachable calm_env one_agent).
  { exact (reachable_step (OpCreate "u1" "mail-summarizer" [])
             (reachable_constructor calm_env)). }
  split; [exact H |].
  exact (scheduler_is_never_stopped H).
Defined.

(** No operation removes an instance from the registry or puts another
    agent object in its place: after any sequence of operations the
    instance is still there under its id, for the same user and
    unit-type, with the same class and configuration. *)
Theorem instances_are_never_removed env ops s k i :
  reachable env s ->
  (forall m n, uuidv4 env m = uuidv4 env n -> m = n) ->
  JsMap.get (agentInstances s) k = Some i ->
  exists i',
    JsMap.get (agentInstances (run_ops env ops s)) k = Some i' /\
    same_identity i i'.
Proof.
  intros Hreach Hinj Hget.
  pose (I := fun s' : State =>
               registry_ok env s' /\
               exists i', JsMap.get (agentInstances s') k = Some i' /\
                          same_identity i i').
  assert (Hmod : forall s0 k0 (f : Instance -> Instance),
            (forall x, same_identity x (f x)) ->
            I s0 -> I (modify_instance k0 f s0)).
  { intros s0 k0 f Hf [Hok [i' [Hi' Hsame]]]. split.
    - apply registry_ok_modify_instance; [| exact Hok].
      intros x. apply (Hf x).
    - rewrite get_modify_instance, Hi'. simpl.
      destruct (String.eqb k0 k); [| eauto].
      exists (f i'). split; [reflexivity |].
      destruct (Hf i') as [H1 [H2 [H3 [H4 H5]]]].
      destruct Hsame as [G1 [G2 [G3 [G4 G5]]]].
      unfold same_identity. repeat split; congruence. }
  assert (Hframe : forall s0 s1,
            agentInstances s1 = agentInstances s0 -> uuids s1 = uuids s0 ->
            I s0 -> I s1).
  { intros s0 s1 Ha Hu [Hok Hex]. split.
    - revert Hok. apply registry_ok_frame; assumption.
    - rewrite Ha. exact Hex. }
  assert (HI : I (run_ops env ops s)).
  { apply invariant_run_ops.
    - intros s0 k0 st. apply Hmod. intros x. repeat split.
    - intros s0 k0 g. apply Hmod. intros x. repeat split.
    - intros s0 q. apply Hframe; reflexivity.
    - intros s0 e. apply Hframe; reflexivity.
    - intros s0. apply Hframe; reflexivity.
    - intros s0. apply Hframe; reflexivity.
    - intros s0 t. apply Hframe; reflexivity.
    - intros s0 v c u a cfg [Hok [i' [Hi' Hsame]]]. split.
      + apply registry_ok_new_instance. exact Hok.
      + exists i'. split; [| exact Hsame]. simpl.
        rewrite get_set_other; [exact Hi' |].
        intros Heq. destruct Hok as [_ Huuid].
        destruct (Huuid k) as [j [Hj Hk]].
        { apply get_In in Hi'. unfold JsMap.keys.
          apply in_map_iff. exists (k, i'). split; [reflexivity | exact Hi']. }
        rewrite Hk in Heq. apply Hinj in Heq. lia.
    - split.
      + apply reachable_registry_ok. exact Hreach.
      + exists i. split; [exact Hget |]. repeat split. }
  exact (proj2 HI).
Qed.

Lemma instances_are_never_removed_witness :
  exists i',
    JsMap.get (agentInstances
                 (run_ops calm_env
                    [OpTick; OpRun "i" []; OpCreate "u1" "mail-summarizer" []]
                    one_agent)) "i" = Some i' /\
    userId i' = "u1" /\ agentId i' = "mail-summarizer".
Proof.
  assert (H : reachable calm_env one_agent).
  { exact (reachable_step (OpCreate "u1" "mail-summarizer" [])
             (reachable_constructor calm_env)). }
  destruct (@instances_are_never_removed calm_env
              [OpTick; OpRun "i" []; OpCreate "u1" "mail-summarizer" []]
              one_agent "i" _ H sample_uuid_injective eq_refl)
    as [i' [Hi' [_ [Hu [Ha _]]]]].
  exists i'. split; [exact Hi' |]. split; [exact Hu | exact Ha].
Defined.

(** A run touches one instance: it adds no key to the registry and
    removes none, it leaves the catalogue as it is and draws no uuid,
    and every other instance is after the run what it was before. *)
Theorem runAgent_touches_one_instance env this params s k :
  k <> this ->
  JsMap.get (agentInstances (fst (exec (runAgent env this params) s))) k =
  JsMap.get (agentInstances s) k /\
  JsMap.keys (agentInstances (fst (exec (runAgent env this params) s))) =
  JsMap.keys (agentInstances s) /\
  agents (fst (exec (runAgent env this params) s)) = agents s /\
  uuids (fst (exec (runAgent env this params) s)) = uuids s.
Proof.
  intros Hne.
  pose (I := fun s' : State =>
               JsMap.get (agentInstances s') k = JsMap.get (agentInstances s) k /\
               JsMap.keys (agentInstances s') = JsMap.keys (agentInstances s) /\
               agents s' = agents s /\ uuids s' = uuids s).
  assert (Hmod : forall s0 k0 f, k0 = this -> I s0 ->
                   I (modify_instance k0 f s0)).
  { intros s0 k0 f -> [H1 [H2 [H3 H4]]]. unfold I.
    rewrite get_modify_instance, keys_modify_instance.
    destruct (String.eqb_spec this k) as [Heq | _]; [congruence |].
    repeat split; try assumption;
      unfold modify_instance;
      destruct (JsMap.get (agentInstances s0) this); assumption. }
  assert (Hp : performs I (keeping I) (runAgent env this params) s
                 (fun _ s' _ => I s' /\ True)).
  { eapply performs_weaken.
    - apply does_runAgent with (I := I) (K := fun k0 => k0 = this); auto.
      repeat split.
    - simpl. tauto. }
  apply performs_exec in Hp; [apply Hp |].
  intros s0 Hs0. exact Hs0.
Qed.

Lemma runAgent_touches_one_instance_witness :
  JsMap.get (agentInstances
               (fst (exec (runAgent calm_env "xi" []) router_running))) "i" =
  JsMap.get (agentInstances router_running) "i".
Proof.
  apply (@runAgent_touches_one_instance calm_env "xi" [] router_running "i").
  discriminate.
Defined.

(** ** The catalogue *)

Section Kept.

Variable P : State -> Prop.

Lemma kept_bind A B (p : Async A) (f : A -> Async B) s :
  P (fst (exec p s)) ->
  (forall a s', P s' -> P (fst (exec (f a) s'))) ->
  P (fst (exec (bind p f) s)).
Proof.
  intros Hp Hf. rewrite exec_bind.
  destruct (snd (exec p s)) as [a | e]; [apply Hf, Hp | exact Hp].
Qed.

Lemma kept_try_catch A (p : Async A) (h : Error -> Async A) s :
  P (fst (exec p s)) ->
  (forall e s', P s' -> P (fst (exec (h e) s'))) ->
  P (fst (exec (try_catch p h) s)).
Proof.
  intros Hp Hh. rewrite exec_try_catch.
  destruct (snd (exec p s)) as [a | e]; [exact Hp | apply Hh, Hp].
Qed.

Lemma kept_for_each X (body : X -> Async unit) l :
  (forall x s, P s -> P (fst (exec (body x) s))) ->
  forall s, P s -> P (fst (exec (for_each l body) s)).
Proof.
  intros Hbody. induction l as [| x l IH]; intros s Hs; cbn [for_each].
  - exact Hs.
  - apply kept_bind; [apply Hbody, Hs |].
    intros _ s' Hs'. apply IH. exact Hs'.
Qed.

Variable env : Env.

Hypothesis P_push_query : forall q s, P s -> P (push_query q s).
Hypothesis P_push_event : forall e s, P s -> P (push_event e s).
Hypothesis P_create : forall u a cfg s,
  P s -> P (fst (exec (createAgentInstance env u a cfg) s)).
Hypothesis P_run : forall k params s,
  P s -> P (fst (exec (runAgent env k params) s)).
Hypothesis P_update : forall k st s,
  P s -> P (fst (exec (updateAgentStatus env k st) s)).

Lemma kept_schedulerTick s : P s -> P (fst (exec (schedulerTick env) s)).
Proof.
  intros Hs.
  unfold schedulerTick. apply kept_bind; [exact Hs |].
  intros running s0 Hs0.
  destruct (negb running); [exact Hs0 |].
  apply kept_try_catch.
  - apply kept_bind.
    + rewrite exec_await, exec_db_query. apply P_push_query. exact Hs0.
    + intros rows s1 Hs1.
      unfold runAutoRunAgents. apply kept_for_each; [| exact Hs1].
      intros row s2 Hs2.
      apply kept_bind.
      * rewrite exec_await. apply P_create. exact Hs2.
      * intros k s3 Hs3.
        apply kept_bind.
        -- rewrite exec_await. apply P_run. exact Hs3.
        -- intros _ s4 Hs4. exact Hs4.
  - intros e s1 Hs1. apply P_push_event. exact Hs1.
Qed.

Lemma kept_op_step op s : P s -> P (op_step env op s).
Proof.
  intros Hs. destruct op as [u a cfg | k params | k | k st |]; simpl.
  - apply P_create. exact Hs.
  - apply P_run. exact Hs.
  - unfold exec. rewrite pauseAgent_done. exact Hs.
  - apply P_update. exact Hs.
  - apply kept_schedulerTick. exact Hs.
Qed.

Lemma kept_run_ops ops s : P s -> P (run_ops env ops s).
Proof.
  unfold run_ops. revert s.
  induction ops as [| op ops IH]; intros s Hs; simpl; [exact Hs |].
  apply IH. apply kept_op_step. exact Hs.
Qed.

End Kept.

Lemma agents_modify_instance k f s : agents (modify_instance k f s) = agents s.
Proof.
  unfold modify_instance. destruct (JsMap.get (agentInstances s) k); reflexivity.
Qed.

Lemma runAgent_keeps_agents env this params s :
  agents (fst (exec (runAgent env this params) s)) = agents s.
Proof.
  pose (I := fun s' : State => agents s' = agents s).
  assert (Hp : performs I (keeping I) (runAgent env this params) s
                 (fun _ s' _ => I s' /\ True)).
  { eapply performs_weaken.
    - apply does_runAgent with (I := I) (K := fun _ => True); auto;
        intros; unfold I; try rewrite agents_modify_instance; auto.
    - simpl. tauto. }
  apply performs_exec in Hp; [apply Hp |].
  intros s0 Hs0. exact Hs0.
Qed.

Lemma createAgentInstance_keeps_catalogue env u a cfg s :
  JsMap.keys (agents (fst (exec (createAgentInstance env u a cfg) s))) =
  JsMap.keys (agents s).
Proof.
  unfold exec, createAgentInstance, try_catch, bind, gets, await, db_query.
  simpl.
  destruct (JsMap.get (agents s) a) as [entry |] eqn:E; simpl;
    [| reflexivity].
  destruct (db_reply env (length (queries s)) (UpsertUserAgent u a cfg));
    simpl; apply keys_set_present; congruence.
Qed.

Lemma updateAgentStatus_keeps_agents env k st s :
  agents (fst (exec (updateAgentStatus env k st) s)) = agents s.
Proof.
  pose (I := fun s' : State => agents s' = agents s).
  assert (Hp : performs I (keeping I) (updateAgentStatus env k st) s
                 (fun _ s' _ => I s' /\ True)).
  { eapply performs_weaken.
    - apply does_updateAgentStatus with (I := I) (K := fun _ => True); auto;
        intros; unfold I; try rewrite agents_modify_instance; auto.
    - simpl. tauto. }
  apply performs_exec in Hp; [apply Hp |].
  intros s0 Hs0. exact Hs0.
Qed.

Lemma run_ops_keeps_catalogue env ops s :
  JsMap.keys (agents (run_ops env ops s)) = JsMap.keys (agents s).
Proof.
  apply kept_run_ops
    with (P := fun s' => JsMap.keys (agents s') = JsMap.keys (agents s));
    auto.
  - intros u a cfg s0 H. rewrite createAgentInstance_keeps_catalogue. exact H.
  - intros k params s0 H. rewrite runAgent_keeps_agents. exact H.
  - intros k st s0 H. rewrite updateAgentStatus_keeps_agents. exact H.
Qed.

Lemma reachable_run_ops env s :
  reachable env s -> exists ops, s = run_ops env ops (constructor env).
Proof.
  induction 1 as [| s op H [ops ->]].
  - exists []. reflexivity.
  - exists (ops ++ [op]). unfold run_ops. rewrite fold_left_app. reflexivity.
Qed.

Lemma get_keys V (m : JsMap.t V) k :
  JsMap.get m k <> None <-> In k (JsMap.keys m).
Proof.
  split.
  - intros H. destruct (in_dec string_dec k (JsMap.keys m)) as [Hin | Hnin];
      [exact Hin |].
    apply get_None_keys in Hnin. contradiction.
  - intros Hin Hnone. apply get_None_keys in Hnone. contradiction.
Qed.

Lemma getAgentClass_known type : getAgentClass type <> None.
Proof. destruct type; discriminate. Qed.

Lemma keys_register_agents rows known a :
  In a (JsMap.keys (register_agents rows known)) <->
  In a (JsMap.keys known) \/ exists row, In row rows /\ row_id row = a.
Proof.
  unfold register_agents. revert known.
  induction rows as [| row rows IH]; intros known; cbn [fold_left].
  - split; [auto | intros [H | [row [[] _]]]; exact H].
  - rewrite IH. clear IH.
    destruct (getAgentClass (row_type row)) as [c |] eqn:Ec;
      [| destruct (getAgentClass_known _ Ec)].
    split.
    + intros [Hin | [r [Hr Hrest]]].
      * apply In_keys_set in Hin. destruct Hin as [-> | Hin]; [| auto].
        right. exists row. split; [left; reflexivity | reflexivity].
      * right. exists r. split; [right; exact Hr | exact Hrest].
    + intros [Hin | [r [[<- | Hr] Hid]]].
      * left. destruct (JsMap.get known (row_id row)) eqn:E.
        -- rewrite keys_set_present by congruence. exact Hin.
        -- rewrite keys_set_absent by exact E. apply in_or_app. auto.
      * left. subst a. apply get_keys. rewrite get_set_same. discriminate.
      * right. exists r. auto.
Qed.

Lemma run_ops_before_the_catalogue env ops s :
  agents s = JsMap.empty -> agents (run_ops env ops s) = JsMap.empty.
Proof.
  apply kept_run_ops with (P := fun s' : State => agents s' = JsMap.empty);
    auto.
  - intros u a cfg s0 H0.
    unfold exec, createAgentInstance, try_catch, bind, gets.
    simpl. rewrite H0. simpl. exact H0.
  - intros k params s0 H0. rewrite runAgent_keeps_agents. exact H0.
  - intros k st s0 H0. rewrite updateAgentStatus_keeps_agents. exact H0.
Qed.

(** The catalogue of agent types is what the answer to the
    constructor's query holds.  The constructor returns before the
    answer is there: until [initializeAgents] goes on, whatever
    operations run in between, the catalogue is empty.  From then on,
    and after any operations that follow, an agent id is registered
    exactly if the answer held a row with that id; no operation
    registers or removes an agent type.  So it is at every state that
    the constructor and the operations lead to when no operation runs
    before the answer. *)
Theorem catalogue_is_the_known_rows env rows before after a :
  db_reply env 0 SelectActiveAgents = DbRows rows ->
  let pending := run_ops env before (constructor_returns env) in
  let settled := run_ops env after (initializeAgents_settles env pending) in
  agents pending = JsMap.empty /\
  (JsMap.get (agents settled) a <> None <->
   exists row, In row rows /\ row_id row = a) /\
  (forall s, reachable env s ->
     (JsMap.get (agents s) a <> None <->
      exists row, In row rows /\ row_id row = a)).
Proof.
  intros Hrows pending settled.
  assert (Hpending : agents pending = JsMap.empty).
  { apply run_ops_before_the_catalogue.
    rewrite constructor_returns_state. reflexivity. }
  assert (Hsettled : forall ops s0,
            agents s0 = JsMap.empty ->
            (JsMap.get (agents (run_ops env ops
                                  (initializeAgents_settles env s0))) a
             <> None <->
             exists row, In row rows /\ row_id row = a)).
  { intros ops s0 H0.
    rewrite get_keys, run_ops_keeps_catalogue, initializeAgents_settles_state,
      Hrows.
    cbn [agents with_agents]. rewrite H0, keys_register_agents.
    simpl. tauto. }
  split; [exact Hpending |]. split.
  - apply Hsettled. exact Hpending.
  - intros s Hreach.
    apply reachable_run_ops in Hreach. destruct Hreach as [ops ->].
    rewrite constructor_settles. apply Hsettled.
    rewrite constructor_returns_state. reflexivity.
Qed.

Lemma catalogue_is_the_known_rows_witness :
  let pending :=
    run_ops calm_env [OpCreate "u1" "mail-summarizer" []]
      (constructor_returns calm_env) in
  let settled :=
    run_ops calm_env [OpCreate "u1" "mail-summarizer" []]
      (initializeAgents_settles calm_env pending) in
  agents pending = JsMap.empty /\
  (JsMap.get (agents settled) "mail-summarizer" <> None <->
   exists row, In row catalogue /\ row_id row = "mail-summarizer").
Proof.
  destruct (@catalogue_is_the_known_rows calm_env catalogue
              [OpCreate "u1" "mail-summarizer" []]
              [OpCreate "u1" "mail-summarizer" []]
              "mail-summarizer" eq_refl) as [H1 [H2 _]].
  split; [exact H1 | exact H2].
Defined.

(** When the constructor's query fails the error is logged and that is
    all: the catalogue is empty at every state that follows, no
    instance is ever registered, and every [createAgentInstance]
    throws that the agent is not found.  Nothing reads the catalogue
    again. *)
Theorem failed_initialization_is_permanent env e s u a cfg :
  db_reply env 0 SelectActiveAgents = DbError e ->
  reachable env s ->
  agents s = JsMap.empty /\
  agentInstances s = JsMap.empty /\
  snd (exec (createAgentInstance env u a cfg) s) =
  Throw ("Agent " ++ a ++ " not found")%string.
Proof.
  intros Herr Hreach.
  assert (Hcreate : forall u a cfg s0,
            agents s0 = JsMap.empty ->
            exec (createAgentInstance env u a cfg) s0 =
            (push_event {| ev_channel := Console;
                           ev_name := "Failed to create agent instance:";
                           ev_payload :=
                             [("error",
                               PStr ("Agent " ++ a ++ " not found")%string)] |}
               s0,
             Throw ("Agent " ++ a ++ " not found")%string)).
  { intros u0 a0 cfg0 s0 H0.
    unfold exec, createAgentInstance, try_catch, bind, gets.
    simpl. rewrite H0. reflexivity. }
  pose (P := fun s' : State =>
               agents s' = JsMap.empty /\ agentInstances s' = JsMap.empty).
  assert (HP : P s).
  { apply reachable_run_ops in Hreach. destruct Hreach as [ops ->].
    apply kept_run_ops; auto.
    - intros u0 a0 cfg0 s0 [H1 H2]. rewrite Hcreate by exact H1.
      split; assumption.
    - intros k params s0 [H1 H2]. split.
      + rewrite runAgent_keeps_agents. exact H1.
      + unfold exec, runAgent, try_catch, bind, lookup_instance, gets.
        simpl. rewrite H2. simpl.
        unfold await, updateAgentStatus, try_catch, bind, lookup_instance,
          gets. simpl. rewrite H2. simpl. exact H2.
    - intros k st s0 [H1 H2]. split.
      + rewrite updateAgentStatus_keeps_agents. exact H1.
      + unfold exec, updateAgentStatus, try_catch, bind, lookup_instance,
          gets. simpl. rewrite H2. simpl. exact H2.
    - rewrite constructor_state, Herr. split; reflexivity. }
  destruct HP as [H1 H2]. split; [exact H1 |]. split; [exact H2 |].
  rewrite Hcreate by exact H1. reflexivity.
Qed.

Lemma failed_initialization_is_permanent_witness :
  snd (exec (createAgentInstance offline_env "u1" "mail-summarizer" [])
         (op_step offline_env OpTick (constructor offline_env))) =
  Throw "Agent mail-summarizer not found".
Proof.
  apply (@failed_initialization_is_permanent offline_env
           "connection refused"
           (op_step offline_env OpTick (constructor offline_env))
           "u1" "mail-summarizer" []); [reflexivity |].
  exact (reachable_step OpTick (reachable_constructor offline_env)).
Defined.

(** What [getStatus] counts over the operations: the number of agent
    types stays what it was, the number of instances never goes down,
    and the instances counted as running are among them. *)
Theorem getStatus_over_the_operations env ops s :
  OrchestratorStatus.totalAgents (getStatus (run_ops env ops s)) =
  OrchestratorStatus.totalAgents (getStatus s) /\
  OrchestratorStatus.activeInstances (getStatus s) <=
  OrchestratorStatus.activeInstances (getStatus (run_ops env ops s)) /\
  OrchestratorStatus.runningInstances (getStatus (run_ops env ops s)) <=
  OrchestratorStatus.activeInstances (getStatus (run_ops env ops s)).
Proof.
  unfold getStatus, JsMap.size, JsMap.values.
  cbn [OrchestratorStatus.activeInstances OrchestratorStatus.runningInstances
       OrchestratorStatus.totalAgents].
  split; [| split].
  - rewrite <- !length_keys, run_ops_keeps_catalogue. reflexivity.
  - pose (n := length (agentInstances s)).
    apply invariant_run_ops
      with (I := fun s' : State => n <= length (agentInstances s')); auto.
    + intros s0 k st H. rewrite <- length_keys, keys_modify_instance,
        length_keys. exact H.
    + intros s0 k g H. rewrite <- length_keys, keys_modify_instance,
        length_keys. exact H.
    + intros s0 v c u a cfg H. simpl.
      eapply Nat.le_trans; [exact H | apply length_set].
  - eapply Nat.le_trans; [apply filter_length_le |].
    rewrite length_map. apply Nat.le_refl.
Qed.

(** ** Conflicts between instances *)

Lemma exec_pauseAgent env k s : exec (pauseAgent env k) s = (s, Normal tt).
Proof. unfold exec. rewrite pauseAgent_done. reflexivity. Qed.

Lemma exec_resolveConflicts env found instance s :
  (forall c, In c found -> conflict_type c = "agent-conflict") ->
  exec (resolveConflicts env found instance) s = (s, Normal tt).
Proof.
  induction found as [| c rest IH]; intros Htype; cbn [resolveConflicts].
  - reflexivity.
  - rewrite exec_bind, exec_await.
    unfold ConflictResolver_resolve.
    rewrite (Htype c) by (left; reflexivity).
    rewrite String.eqb_refl, exec_ret. cbn [fst snd action].
    rewrite String.eqb_refl.
    rewrite exec_bind, exec_await, exec_pauseAgent. cbn [fst snd].
    apply IH. intros c' Hin. apply Htype. right. exact Hin.
Qed.

(** Resolving the conflicts that [checkConflicts] found has no effect:
    each of them is answered with a pause of the other instance, which
    no agent class implements, so the state after [resolveConflicts]
    is the state before, with no status changed, no event emitted and
    no query sent. *)
Theorem resolveConflicts_has_no_effect env instance s found :
  snd (exec (checkConflicts instance) s) = Normal found ->
  exec (resolveConflicts env found instance) s = (s, Normal tt).
Proof.
  intros Hfound. apply exec_resolveConflicts.
  unfold exec in Hfound. rewrite checkConflicts_scan in Hfound.
  simpl in Hfound. injection Hfound as <-.
  intros c Hin. apply in_map_iff in Hin.
  destruct Hin as [other [<- _]]. reflexivity.
Qed.

Lemma resolveConflicts_has_no_effect_witness :
  exists candidate found,
    JsMap.get (agentInstances router_running) "xi" = Some candidate /\
    snd (exec (checkConflicts candidate) router_running) = Normal found /\
    length found = 1 /\
    exec (resolveConflicts calm_env found candidate) router_running =
    (router_running, Normal tt).
Proof.
  eexists. eexists. split; [reflexivity |].
  split; [reflexivity |]. split; [reflexivity |].
  apply resolveConflicts_has_no_effect. reflexivity.
Defined.

(** Conflict detection goes both ways and only between a
    meeting-agent and a task-router: of two running instances of one
    user, the first is reported as a conflict of the second exactly if
    the second is reported as a conflict of the first, and then one of
    them is a meeting-agent and the other a task-router. *)
Theorem checkConflicts_is_symmetric s ka kb a b fa fb :
  JsMap.get (agentInstances s) ka = Some a ->
  JsMap.get (agentInstances s) kb = Some b ->
  status a = "running" -> status b = "running" ->
  userId a = userId b ->
  snd (exec (checkConflicts a) s) = Normal fa ->
  snd (exec (checkConflicts b) s) = Normal fb ->
  (In b (map instance2 fa) <-> In a (map instance2 fb)) /\
  (In b (map instance2 fa) ->
   (agentId a = "meeting-agent" /\ agentId b = "task-router") \/
   (agentId a = "task-router" /\ agentId b = "meeting-agent")).
Proof.
  intros Ha Hb Hsa Hsb Hu Hfa Hfb.
  unfold exec in Hfa, Hfb. rewrite checkConflicts_scan in Hfa, Hfb.
  simpl in Hfa, Hfb. injection Hfa as <-. injection Hfb as <-.
  rewrite !map_map. cbn [instance2]. rewrite !map_id.
  rewrite !filter_In.
  assert (Hina : In a (JsMap.values (agentInstances s))).
  { apply get_In in Ha. unfold JsMap.values. apply in_map_iff.
    exists (ka, a). auto. }
  assert (Hinb : In b (JsMap.values (agentInstances s))).
  { apply get_In in Hb. unfold JsMap.values. apply in_map_iff.
    exists (kb, b). auto. }
  rewrite Hsa, Hsb, Hu, !String.eqb_refl. cbn [andb].
  rewrite (conflict_set_symmetric (agentId b) (agentId a)).
  split; [tauto |].
  intros [_ Hc].
  destruct (conflict_set_cases (agentId a))
    as [[Ea Es] | [[Ea Es] | [_ [_ Es]]]]; rewrite Es in Hc;
    cbn [includes] in Hc; rewrite ?orb_false_r in Hc;
    try discriminate Hc.
  - left. split; [exact Ea |]. symmetry. apply String.eqb_eq. exact Hc.
  - right. split; [exact Ea |]. symmetry. apply String.eqb_eq. exact Hc.
Qed.

Lemma checkConflicts_is_symmetric_witness :
  exists a b fa fb,
    JsMap.get (agentInstances
                 (modify_instance "xi" (with_status "running")
                    router_running)) "xi" = Some a /\
    JsMap.get (agentInstances
                 (modify_instance "xi" (with_status "running")
                    router_running)) "i" = Some b /\
    snd (exec (checkConflicts a)
           (modify_instance "xi" (with_status "running") router_running))
    = Normal fa /\
    snd (exec (checkConflicts b)
           (modify_instance "xi" (with_status "running") router_running))
    = Normal fb /\
    (In b (map instance2 fa) <-> In a (map instance2 fb)).
Proof.
  eexists. eexists. eexists. eexists.
  split; [reflexivity |]. split; [reflexivity |].
  split; [reflexivity |]. split; [reflexivity |].
  apply (@checkConflicts_is_symmetric
           (modify_instance "xi" (with_status "running") router_running)
           "xi" "i" _ _ _ _ eq_refl eq_refl eq_refl eq_refl eq_refl
           eq_refl eq_refl).
Defined.

(** ** The agent classes *)

Lemma get_property_data value field :
  has_data value = true -> exists v, get_property value field = Normal v.
Proof.
  destruct value; simpl; intros H; try discriminate; eauto.
Qed.

Lemma get_property_no_data value field :
  has_data value = false -> exists e, get_property value field = Throw e.
Proof.
  destruct value; simpl; intros H; try discriminate; eauto.
Qed.

Lemma isTimeOverlap_data meeting1 meeting2 :
  has_data meeting1 = true -> has_data meeting2 = true ->
  isTimeOverlap meeting1 meeting2 = Normal (overlaps meeting1 meeting2).
Proof.
  intros H1 H2. unfold overlaps, isTimeOverlap.
  destruct (get_property_data meeting1 FieldDate H1) as [d1 ->].
  destruct (get_property_data meeting2 FieldDate H2) as [d2 ->].
  destruct (get_property_data meeting1 FieldTime H1) as [t1 ->].
  destruct (get_property_data meeting2 FieldTime H2) as [t2 ->].
  destruct (strict_eq d1 d2); reflexivity.
Qed.

Lemma isTimeOverlap_no_data meeting1 meeting2 :
  has_data meeting1 = false \/ has_data meeting2 = false ->
  exists e, isTimeOverlap meeting1 meeting2 = Throw e.
Proof.
  intros H. unfold isTimeOverlap.
  destruct (has_data meeting1) eqn:H1.
  - destruct H as [H | H]; [discriminate |].
    destruct (get_property_data meeting1 FieldDate H1) as [d1 ->].
    destruct (get_property_no_data meeting2 FieldDate H) as [e ->]. eauto.
  - destruct (get_property_no_data meeting1 FieldDate H1) as [e ->]. eauto.
Qed.

Lemma detectScheduleConflicts_inner_data meeting1 later conflicts :
  has_data meeting1 = true -> forallb has_data later = true ->
  detectScheduleConflicts_inner meeting1 later conflicts =
  Normal (conflicts ++
          map (schedule_overlap meeting1) (filter (overlaps meeting1) later)).
Proof.
  intros H1. revert conflicts.
  induction later as [| meeting2 rest IH]; intros conflicts Hall;
    cbn [detectScheduleConflicts_inner filter map].
  - rewrite app_nil_r. reflexivity.
  - cbn [forallb] in Hall. apply andb_true_iff in Hall.
    destruct Hall as [H2 Hrest].
    rewrite (isTimeOverlap_data _ _ H1 H2), IH by exact Hrest.
    destruct (overlaps meeting1 meeting2); [| reflexivity].
    cbn [map]. rewrite <- app_assoc. reflexivity.
Qed.

Lemma detectScheduleConflicts_inner_no_data meeting1 later conflicts :
  (has_data meeting1 = false /\ later <> []) \/
  forallb has_data later = false ->
  exists e, detectScheduleConflicts_inner meeting1 later conflicts = Throw e.
Proof.
  revert conflicts.
  induction later as [| meeting2 rest IH]; intros conflicts H;
    cbn [detectScheduleConflicts_inner].
  - destruct H as [[_ H] | H]; [contradiction | discriminate].
  - destruct (has_data meeting1) eqn:H1.
    + destruct H as [[H _] | H]; [discriminate |].
      cbn [forallb] in H. apply andb_false_iff in H.
      destruct (has_data meeting2) eqn:H2.
      * rewrite (isTimeOverlap_data _ _ H1 H2).
        apply IH. right. destruct H as [H | H]; [discriminate | exact H].
      * destruct (isTimeOverlap_no_data meeting1 meeting2) as [e ->]; eauto.
    + destruct (isTimeOverlap_no_data meeting1 meeting2) as [e ->]; eauto.
Qed.

Lemma detectScheduleConflicts_from_data meetings conflicts :
  forallb has_data meetings = true ->
  detectScheduleConflicts_from meetings conflicts =
  Normal (conflicts ++ overlapping_pairs meetings).
Proof.
  revert conflicts.
  induction meetings as [| meeting1 later IH]; intros conflicts Hall;
    cbn [detectScheduleConflicts_from overlapping_pairs].
  - rewrite app_nil_r. reflexivity.
  - cbn [forallb] in Hall. apply andb_true_iff in Hall.
    destruct Hall as [H1 Hlater].
    rewrite detectScheduleConflicts_inner_data by assumption.
    rewrite IH by exact Hlater. rewrite <- app_assoc. reflexivity.
Qed.


Lemma overlapping_pairs_In meetings c :
  In c (overlapping_pairs meetings) <->
  exists i j meeting1 meeting2,
    i < j /\ nth_error meetings i = Some meeting1 /\
    nth_error meetings j = Some meeting2 /\
    overlaps meeting1 meeting2 = true /\
    c = schedule_overlap meeting1 meeting2.
Proof.
  induction meetings as [| m later IH]; cbn [overlapping_pairs].
  - split; [intros [] |].
    intros [i [j [m1 [m2 [_ [H _]]]]]]. destruct i; discriminate H.
  - rewrite in_app_iff, in_map_iff, IH. clear IH. split.
    + intros [[m2 [<- Hin]] | [i [j [m1 [m2 [Hlt [Hi [Hj [Ho ->]]]]]]]]].
      * apply filter_In in Hin. destruct Hin as [Hin Ho].
        apply In_nth_error in Hin. destruct Hin as [j Hj].
        exists 0, (S j), m, m2. repeat split; auto. lia.
      * exists (S i), (S j), m1, m2. repeat split; auto. lia.
    + intros [i [j [m1 [m2 [Hlt [Hi [Hj [Ho ->]]]]]]]].
      destruct j as [| j]; [lia |]. cbn [nth_error] in Hj.
      destruct i as [| i]; cbn [nth_error] in Hi.
      * injection Hi as ->. left. exists m2.
        split; [reflexivity |]. apply filter_In.
        split; [| exact Ho]. apply nth_error_In in Hj. exact Hj.
      * right. exists i, j, m1, m2. repeat split; auto. lia.
Qed.


(** [detectScheduleConflicts] on rows that all have data returns the
    overlapping pairs of an earlier and a later meeting, each pair
    once and in the order of the loops, each as a record of type
    schedule_overlap and severity medium with the earlier meeting
    first.  On two or more rows of which one has [null] or no data it
    throws a TypeError; on fewer than two rows it returns the empty
    list. *)
Theorem detectScheduleConflicts_reports_the_pairs meetings :
  (forallb has_data meetings = true ->
   detectScheduleConflicts meetings = Normal (overlapping_pairs meetings)) /\
  (forall c,
     In c (overlapping_pairs meetings) <->
     exists i j meeting1 meeting2,
       i < j /\ nth_error meetings i = Some meeting1 /\
       nth_error meetings j = Some meeting2 /\
       isTimeOverlap meeting1 meeting2 = Normal true /\
       c = schedule_overlap meeting1 meeting2) /\
  (forallb has_data meetings = false -> 2 <= length meetings ->
   exists e, detectScheduleConflicts meetings = Throw e) /\
  (length meetings <= 1 -> detectScheduleConflicts meetings = Normal []).
Proof.
  unfold detectScheduleConflicts. repeat split.
  - intros Hall. rewrite detectScheduleConflicts_from_data by exact Hall.
    reflexivity.
  - intros Hin. apply overlapping_pairs_In in Hin.
    destruct Hin as [i [j [m1 [m2 [Hlt [Hi [Hj [Ho Hc]]]]]]]].
    exists i, j, m1, m2. repeat split; auto.
    unfold overlaps in Ho.
    destruct (isTimeOverlap m1 m2) as [b | e]; [| discriminate].
    rewrite Ho. reflexivity.
  - intros [i [j [m1 [m2 [Hlt [Hi [Hj [Ho Hc]]]]]]]].
    apply overlapping_pairs_In. exists i, j, m1, m2. repeat split; auto.
    unfold overlaps. rewrite Ho. reflexivity.
  - intros Hall Hlen.
    destruct meetings as [| meeting1 [| meeting2 rest]]; simpl in Hlen;
      try lia.
    cbn [detectScheduleConflicts_from].
    destruct (@detectScheduleConflicts_inner_no_data meeting1
                (meeting2 :: rest) []) as [e ->]; [| eauto].
    cbn [forallb] in Hall. apply andb_false_iff in Hall.
    destruct Hall as [H | H]; [left | right; exact H].
    split; [exact H | discriminate].
  - intros Hlen.
    destruct meetings as [| meeting1 [| meeting2 rest]]; simpl in Hlen;
      try lia; reflexivity.
Qed.

Lemma detectScheduleConflicts_reports_the_pairs_witness :
  detectScheduleConflicts
    [sample_meeting 1 "2024-05-01" "10:00";
     sample_meeting 2 "2024-05-02" "10:00";
     sample_meeting 3 "2024-05-01" "10:00"] =
  Normal [schedule_overlap (sample_meeting 1 "2024-05-01" "10:00")
            (sample_meeting 3 "2024-05-01" "10:00")] /\
  exists e,
    detectScheduleConflicts [sample_meeting 1 "2024-05-01" "10:00"; JsNull]
    = Throw e.
Proof.
  split.
  - apply (proj1 (detectScheduleConflicts_reports_the_pairs
                    [sample_meeting 1 "2024-05-01" "10:00";
                     sample_meeting 2 "2024-05-02" "10:00";
                     sample_meeting 3 "2024-05-01" "10:00"])).
    reflexivity.
  - apply (proj1 (proj2 (proj2 (detectScheduleConflicts_reports_the_pairs
                                  [sample_meeting 1 "2024-05-01" "10:00";
                                   JsNull])))).
    + reflexivity.
    + simpl. lia.
Defined.



Lemma exec_summarize_emails_data emails summaries s :
  forallb has_data emails = true ->
  exists added,
    exec (summarize_emails emails summaries) s =
      (s, Normal (summaries ++ added)) /\
    length added = length emails /\
    Forall (fun summary => length (es_actionItems summary) = 2) added.
Proof.
  revert summaries.
  induction emails as [| email later IH]; intros summaries Hall;
    cbn [summarize_emails].
  - exists []. rewrite app_nil_r. repeat split. constructor.
  - cbn [forallb] in Hall. apply andb_true_iff in Hall.
    destruct Hall as [H1 Hlater].
    destruct (get_property_data email FieldSubject H1) as [subject Hs].
    assert (Hone : exec (summarizeEmail email) s =
              (s, Normal {| es_subject := subject;
                            es_summary := {| template_text := "Summary of ";
                                             template_value := subject |};
                            es_actionItems :=
                              ["Follow up on proposal"; "Schedule meeting"];
                            es_sentiment := "positive";
                            es_priority := "medium" |})).
    { unfold summarizeEmail. rewrite Hs. reflexivity. }
    rewrite exec_bind, exec_await, Hone. cbn [fst snd].
    destruct (IH (summaries ++
                  [{| es_subject := subject;
                      es_summary := {| template_text := "Summary of ";
                                       template_value := subject |};
                      es_actionItems :=
                        ["Follow up on proposal"; "Schedule meeting"];
                      es_sentiment := "positive";
                      es_priority := "medium" |}]) Hlater)
      as [added [Hrun [Hlen Hitems]]].
    eexists (_ :: added). rewrite Hrun, <- app_assoc.
    split; [reflexivity |]. split; [simpl; rewrite Hlen; reflexivity |].
    constructor; [reflexivity | exact Hitems].
Qed.

Lemma exec_summarize_emails_no_data emails summaries s :
  forallb has_data emails = false ->
  fst (exec (summarize_emails emails summaries) s) = s /\
  exists e, snd (exec (summarize_emails emails summaries) s) = Throw e.
Proof.
  revert summaries.
  induction emails as [| email later IH]; intros summaries Hall;
    cbn [summarize_emails]; [discriminate |].
  cbn [forallb] in Hall. apply andb_false_iff in Hall.
  rewrite exec_bind, exec_await.
  destruct (has_data email) eqn:H1.
  - destruct (get_property_data email FieldSubject H1) as [subject Hs].
    assert (Hrun : exists summary,
              exec (summarizeEmail email) s = (s, Normal summary)).
    { unfold summarizeEmail. rewrite Hs. eexists. reflexivity. }
    destruct Hrun as [summary ->]. cbn [fst snd]. apply IH.
    destruct Hall as [H | H]; [discriminate | exact H].
  - destruct (get_property_no_data email FieldSubject H1) as [e He].
    assert (Hrun : exec (summarizeEmail email) s = (s, Throw e)).
    { unfold summarizeEmail. rewrite He. reflexivity. }
    rewrite Hrun. cbn [fst snd]. eauto.
Qed.

(** From the answer of its query on, [MailSummarizerAgent.execute]
    changes nothing.  When every row has data it reports as many
    summaries as rows and exactly two action items for each row,
    whatever the data are; when the data of a row are [null] or
    missing, the read of the subject throws a TypeError and the call
    returns no result. *)
Theorem MailSummarizerAgent_counts emails s :
  fst (exec (MailSummarizerAgent_execute_on emails) s) = s /\
  (forallb has_data emails = true ->
   snd (exec (MailSummarizerAgent_execute_on emails) s) =
   Normal {| emailsProcessed := length emails;
             summariesGenerated := length emails;
             actionItemsExtracted := 2 * length emails |}) /\
  (forallb has_data emails = false ->
   exists e, snd (exec (MailSummarizerAgent_execute_on emails) s) = Throw e).
Proof.
  unfold MailSummarizerAgent_execute_on. rewrite exec_bind.
  destruct (forallb has_data emails) eqn:Hall.
  - destruct (exec_summarize_emails_data emails [] s Hall)
      as [added [Hrun [Hlen Hitems]]].
    rewrite Hrun. cbn [fst snd app]. rewrite exec_ret. cbn [fst snd].
    split; [reflexivity |]. split; [| discriminate].
    intros _. rewrite Hlen. do 3 f_equal.
    assert (H : forall n,
              fold_left (fun count s0 => count + length (es_actionItems s0))
                added n = n + 2 * length added).
    { clear Hrun Hlen. induction Hitems as [| x l Hx _ IH]; intros n; simpl;
        [lia |].
      rewrite IH, Hx. lia. }
    rewrite H, Hlen. reflexivity.
  - destruct (exec_summarize_emails_no_data emails [] s Hall)
      as [Hs [e He]].
    rewrite He. split; [exact Hs |]. split; [discriminate |].
    intros _. exists e. reflexivity.
Qed.

Lemma MailSummarizerAgent_counts_witness :
  snd (exec (MailSummarizerAgent_execute_on
               [JsObject 1 [("subject", JsString "Offer")];
                JsObject 2 []; JsNumber 7]) started) =
  Normal {| emailsProcessed := 3; summariesGenerated := 3;
            actionItemsExtracted := 6 |} /\
  exists e,
    snd (exec (MailSummarizerAgent_execute_on
                 [JsObject 1 [("subject", JsString "Offer")]; JsNull])
           started) = Throw e.
Proof.
  split.
  - apply (proj1 (proj2 (MailSummarizerAgent_counts
                           [JsObject 1 [("subject", JsString "Offer")];
                            JsObject 2 []; JsNumber 7] started))).
    reflexivity.
  - apply (proj2 (proj2 (MailSummarizerAgent_counts
                           [JsObject 1 [("subject", JsString "Offer")];
                            JsNull] started))).
    reflexivity.
Defined.

Lemma get_spread (a b : Config) k :
  NoDup (JsMap.keys b) ->
  JsMap.get (spread a b) k =
  match JsMap.get b k with
  | Some v => Some v
  | None => JsMap.get a k
  end.
Proof.
  unfold spread. revert a.
  induction b as [| [k0 v0] b IH]; intros a Hnd; cbn [fold_left fst snd].
  - reflexivity.
  - cbn [JsMap.keys map fst] in Hnd. inversion Hnd as [| ? ? Hnotin Hnd'].
    subst. rewrite IH by exact Hnd'. cbn [JsMap.get].
    destruct (String.eqb_spec k0 k) as [-> | Hne].
    + apply get_None_keys in Hnotin. unfold JsMap.keys. rewrite Hnotin.
      apply get_set_same.
    + destruct (JsMap.get b k); [reflexivity |].
      apply get_set_other. exact Hne.
Qed.

(** The configuration of a new instance: for each key the value that
    the caller gave, and the agent type's default where the caller
    gave none. *)
Theorem new_instance_config_overrides_defaults env s u a cfg entry key :
  JsMap.get (agents s) a = Some entry ->
  NoDup (JsMap.keys cfg) ->
  exists instance,
    JsMap.get (agentInstances (fst (exec (createAgentInstance env u a cfg) s)))
      (uuidv4 env (uuids s)) = Some instance /\
    JsMap.get (config instance) key =
    match JsMap.get cfg key with
    | Some v => Some v
    | None => JsMap.get (row_configuration (definition entry)) key
    end.
Proof.
  intros Hentry Hnd.
  exists (new_agent (agent_class entry) (uuidv4 env (uuids s)) u a
            (spread (row_configuration (definition entry)) cfg)).
  split.
  - unfold exec, createAgentInstance, try_catch, bind, gets, await, db_query.
    simpl. rewrite Hentry. simpl.
    destruct (db_reply env (length (queries s)) (UpsertUserAgent u a cfg));
      simpl; apply get_set_same.
  - cbn [config new_agent]. apply get_spread. exact Hnd.
Qed.

(** ** A tick on which nothing fails *)

Lemma uuids_modify_instance k f s : uuids (modify_instance k f s) = uuids s.
Proof.
  unfold modify_instance. destruct (JsMap.get (agentInstances s) k); reflexivity.
Qed.

Lemma runAgent_keeps_uuids env this params s :
  uuids (fst (exec (runAgent env this params) s)) = uuids s.
Proof.
  pose (I := fun s' : State => uuids s' = uuids s).
  assert (Hp : performs I (keeping I) (runAgent env this params) s
                 (fun _ s' _ => I s' /\ True)).
  { eapply performs_weaken.
    - apply does_runAgent with (I := I) (K := fun _ => True); auto;
        intros; unfold I; try rewrite uuids_modify_instance; auto.
    - simpl. tauto. }
  apply performs_exec in Hp; [apply Hp |].
  intros s0 Hs0. exact Hs0.
Qed.

Section CalmTick.

Variable env : Env.

Hypothesis database_answers : forall n q, exists rows, db_reply env n q = DbRows rows.
Hypothesis units_return :
  forall n k params, exists r, execute_reply env n k params = Returns (Some r).

Lemma calm_createAgentInstance u a cfg s :
  JsMap.get (agents s) a <> None ->
  let s' := fst (exec (createAgentInstance env u a cfg) s) in
  snd (exec (createAgentInstance env u a cfg) s) =
    Normal (uuidv4 env (uuids s)) /\
  has_instance (uuidv4 env (uuids s)) s' /\
  uuids s' = S (uuids s) /\ executions s' = executions s.
Proof.
  intros Hknown.
  destruct (JsMap.get (agents s) a) as [entry |] eqn:Hentry;
    [| contradiction].
  destruct (database_answers (length (queries s)) (UpsertUserAgent u a cfg))
    as [rows Hrows].
  unfold has_instance, exec, createAgentInstance, try_catch, bind, gets,
    await, db_query.
  simpl. rewrite Hentry. simpl. rewrite Hrows. simpl.
  rewrite get_set_same. repeat split. discriminate.
Qed.

Lemma calm_runAgent this params s :
  has_instance this s ->
  let s' := fst (exec (runAgent env this params) s) in
  (exists r, snd (exec (runAgent env this params) s) = Normal r) /\
  uuids s' = uuids s /\ executions s' = S (executions s).
Proof.
  intros Hi.
  destruct (units_return (executions s) this params) as [r Hr].
  pose proof (alone_runAgent_returning env params Hi Hr) as H.
  apply alone_exec in H. destruct H as [Hc _].
  split; [eauto |]. split; [apply runAgent_keeps_uuids |].
  destruct (JsMap.get (agentInstances s) this) as [i |] eqn:E;
    [| exfalso; apply Hi; exact E].
  apply (runAgent_updates_metrics env this params s (m := metrics i)).
  unfold metrics_of. rewrite E. reflexivity.
Qed.

Lemma calm_runAutoRunAgents rows s :
  (forall row, In row rows ->
     JsMap.get (agents s) (row_agent_id row) <> None) ->
  let s' := fst (exec (runAutoRunAgents env rows) s) in
  snd (exec (runAutoRunAgents env rows) s) = Normal tt /\
  uuids s' = uuids s + length rows /\
  executions s' = executions s + length rows.
Proof.
  unfold runAutoRunAgents. revert s.
  induction rows as [| row rows IH]; intros s Hknown; cbn [for_each].
  - simpl. repeat split; lia.
  - destruct (@calm_createAgentInstance (row_user_id row) (row_agent_id row)
                (row_settings row) s (Hknown row (or_introl eq_refl)))
      as [Hc [Hi [Hu He]]].
    set (s1 := fst (exec (createAgentInstance env (row_user_id row)
                            (row_agent_id row) (row_settings row)) s)) in *.
    destruct (@calm_runAgent (uuidv4 env (uuids s)) [] s1 Hi) as [[r Hr] [Hu2 He2]].
    set (s2 := fst (exec (runAgent env (uuidv4 env (uuids s)) []) s1)) in *.
    assert (Hbody :
      exec (instanceId <- await (createAgentInstance env (row_user_id row)
                                   (row_agent_id row) (row_settings row)) ;;
            await (runAgent env instanceId []) ;; ret tt) s
      = (s2, Normal tt)).
    { rewrite exec_bind, exec_await. fold s1. rewrite Hc.
      rewrite exec_bind, exec_await. fold s2. rewrite Hr.
      reflexivity. }
    rewrite exec_bind, Hbody. cbn [fst snd].
    destruct (IH s2) as [Hc' [Hu' He']].
    + intros row' Hin. apply get_keys.
      assert (Hk : JsMap.keys (agents s2) = JsMap.keys (agents s)).
      { unfold s2. rewrite runAgent_keeps_agents. unfold s1.
        apply createAgentInstance_keeps_catalogue. }
      rewrite Hk. apply get_keys. apply Hknown. right. exact Hin.
    + split; [exact Hc' |]. cbn [length]. split; lia.
Qed.

End CalmTick.

(** A tick on which nothing fails serves every row that its query
    selected: when the database answers every query and every
    execution unit returns a result, the tick creates one instance per
    row, runs each of them once, and ends normally. *)
Theorem tick_serves_every_selected_row env s rows :
  (forall n q, exists answer, db_reply env n q = DbRows answer) ->
  (forall n k params,
     exists r, execute_reply env n k params = Returns (Some r)) ->
  isRunning s = true ->
  db_reply env (length (queries s)) SelectAutoRunAgents = DbRows rows ->
  (forall row, In row rows ->
     JsMap.get (agents s) (row_agent_id row) <> None) ->
  snd (exec (schedulerTick env) s) = Normal tt /\
  uuids (fst (exec (schedulerTick env) s)) = uuids s + length rows /\
  executions (fst (exec (schedulerTick env) s)) = executions s + length rows.
Proof.
  intros Hdb Hunits Hrun Hrows Hknown.
  rewrite (exec_schedulerTick env s Hrun Hrows).
  destruct (@calm_runAutoRunAgents env Hdb Hunits rows
              (push_query SelectAutoRunAgents s) Hknown)
    as [Hc [Hu He]].
  rewrite Hc. cbn [fst snd]. repeat split; assumption.
Qed.

Lemma tick_serves_every_selected_row_witness :
  executions (fst (exec (schedulerTick calm_env) one_agent)) =
  executions one_agent + 1.
Proof.
  apply (@tick_serves_every_selected_row calm_env one_agent
           [sample_row "u1" "mail-summarizer"]).
  - intros n q. unfold calm_env, sample_env. simpl.
    destruct q; eexists; reflexivity.
  - intros n k params. eexists. reflexivity.
  - reflexivity.
  - reflexivity.
  - intros row [<- | []]. discriminate.
Defined.

(** ** The instance's own count *)

Lemma runAgent_returns_and_records_witness :
  has_instance "i" one_agent /\
  snd (exec (runAgent calm_env "i" []) one_agent) = Normal sample_result /\
  status_of "i" (fst (exec (runAgent calm_env "i" []) one_agent)) =
  Some "idle".
Proof.
  split; [discriminate |].
  destruct (@runAgent_returns_and_records calm_env "i" [] one_agent
              {| payload := "done"; error := false; executionTime := None |})
    as [Hc [Hst _]]; [discriminate | reflexivity |].
  split; [exact Hc | exact Hst].
Defined.

Lemma new_instance_config_overrides_defaults_witness :
  exists instance,
    JsMap.get
      (agentInstances
         (fst (exec (createAgentInstance calm_env "u1" "mail-summarizer"
                       [("tone", "brief")]) started)))
      "i" = Some instance /\
    JsMap.get (config instance) "tone" = Some "brief".
Proof.
  destruct (@new_instance_config_overrides_defaults calm_env started "u1"
              "mail-summarizer" [("tone", "brief")] _ "tone" eq_refl)
    as [instance [Hi Hc]].
  - repeat constructor. intros [].
  - exists instance. split; [exact Hi | exact Hc].
Defined.

Lemma runs_one_success_one_failure_witness :
  exists m2,
    metrics_of "i"
      (fst (exec (runAgent flaky_env "i" [])
              (fst (exec (runAgent flaky_env "i" []) one_agent)))) = Some m2 /\
    successRate m2 = 0.5%float /\ totalRuns m2 = 2%float.
Proof.
  apply (@runs_one_success_one_failure flaky_env "i" [] []
           {| totalRuns := 0; successRate := 0; averageExecutionTime := 0;
              lastRun := None |} one_agent);
    reflexivity.
Defined.

(** Every run on an instance of the registry invokes the instance's
    execution unit exactly once and counts as one run in the
    instance's own metrics: as a success when the unit returned, as a
    failure when it threw. *)
Theorem every_run_is_counted env this params s m :
  metrics_of this s = Some m ->
  executions (fst (exec (runAgent env this params) s)) = S (executions s) /\
  exists m',
    metrics_of this (fst (exec (runAgent env this params) s)) = Some m' /\
    totalRuns m' = (totalRuns m + 1)%float /\
    exists executionTime,
      successRate m' =
      ((successRate m * (totalRuns m + 1 - 1) +
        (if returned (execute_reply env (executions s) this params)
         then 1 else 0)) / (totalRuns m + 1))%float /\
      averageExecutionTime m' =
      ((averageExecutionTime m * (totalRuns m + 1 - 1) + executionTime)
       / (totalRuns m + 1))%float.
Proof.
  intros Hm.
  destruct (runAgent_updates_metrics env this params s Hm)
    as [[dt [date Hm']] He].
  split; [exact He |].
  eexists. split; [exact Hm' |]. split; [reflexivity |].
  exists dt. split; reflexivity.
Qed.

Lemma every_run_is_counted_witness :
  executions (fst (exec (runAgent failing_env "i" []) one_agent)) =
  S (executions one_agent).
Proof.
  apply (@every_run_is_counted failing_env "i" [] one_agent
           {| totalRuns := 0; successRate := 0; averageExecutionTime := 0;
              lastRun := None |}).
  reflexivity.
Defined.
